(** * Min-max heap over [heap.Interface] (package [mmheap])

    A shallow embedding of [mmheap.go]: the level-parity oracle
    ([isMinLevel], [parent], [grandparent]), the two sift procedures
    ([up], [down]) and the package-level operations ([Init], [Push], [Pop],
    [Remove], [Fix], [Max]), and of [intHeap] and its [verify] of
    [mmheap_test.go], followed by the properties of the package.

    Go's [int] and [uint] are taken at 64 bits (amd64, arm64): an [int] is
    a [Z] in [-2^63, 2^63) and every arithmetic operation of the source is
    wrapped.  An index out of range panics, as for a Go slice.  The two
    unbounded [for] loops of the source are driven by a [fuel] argument;
    the theorems give the fuel that suffices. *)

From Stdlib Require Import String ZArith Lia Bool List Sorting.Sorted.
From stdpp Require Import base list.
Local Open Scope Z_scope.
Local Unset Default Proof Using.
Ltac Zify.zify_post_hook ::=
  Z.div_mod_to_equations'; Z.quot_rem_to_equations'.

(** ** Results of a Go call: a value, a panic, or fuel exhausted *)

Inductive res (X : Type) : Type :=
| Ok (x : X)
| Panic
| OutOfFuel.
Arguments Ok {X} x.
Arguments Panic {X}.
Arguments OutOfFuel {X}.

#[global] Instance res_ret : MRet res := fun _ x => Ok x.
#[global] Instance res_bind : MBind res := fun _ _ f m =>
  match m with
  | Ok x => f x
  | Panic => Panic
  | OutOfFuel => OutOfFuel
  end.

(** ** Machine integers *)

Module int.
Definition min_int : Z := - 2 ^ 63.
Definition max_int : Z := 2 ^ 63 - 1.

(** Two's complement wrap-around of a mathematical integer. *)
Definition wrap (z : Z) : Z := (z + 2 ^ 63) mod 2 ^ 64 - 2 ^ 63.

Definition add (a b : Z) : Z := wrap (a + b).
Definition sub (a b : Z) : Z := wrap (a - b).
Definition mul (a b : Z) : Z := wrap (a * b).
(** Go's [/] truncates toward zero. *)
Definition div (a b : Z) : Z := wrap (Z.quot a b).

(** The conversion [uint(i)]. *)
Definition to_uint (i : Z) : Z := i mod 2 ^ 64.
End int.

(** ** [math/bits] *)

Module bits.
Definition UintSize : Z := 64.

(** [bits.Len(x)]: the number of bits needed to write [x]; 0 for 0. *)
Definition Len (x : Z) : Z := if x =? 0 then 0 else Z.log2 x + 1.

(** [bits.LeadingZeros(x)] is [UintSize - Len(x)]. *)
Definition LeadingZeros (x : Z) : Z := UintSize - Len x.
End bits.

(** ** [container/heap.Interface] *)

Module heap.
(** [sort.Interface] with [Push] and [Pop]; [H] is the state of the
    receiver, [A] the type of the elements.  Every method may panic. *)
Class Interface (H A : Type) : Type := {
  Len : H -> Z;
  Less : H -> Z -> Z -> res bool;
  Swap : H -> Z -> Z -> res H;
  Push : H -> A -> res H;
  Pop : H -> res (A * H)
}.
End heap.

(** ** Slices as heaps, after [intHeap] of the test file *)

Section Slice.
Context {A : Type} (less : A -> A -> bool).

(** [h[i]], which panics out of range. *)
Definition slice_get (h : list A) (i : Z) : res A :=
  if i <? 0 then Panic
  else match h !! Z.to_nat i with
       | Some x => Ok x
       | None => Panic
       end.

Definition slice_len (h : list A) : Z := Z.of_nat (length h).

Definition slice_less (h : list A) (i j : Z) : res bool :=
  x ← slice_get h i;
  y ← slice_get h j;
  Ok (less x y).

(** [h[i], h[j] = h[j], h[i]] *)
Definition slice_swap (h : list A) (i j : Z) : res (list A) :=
  x ← slice_get h i;
  y ← slice_get h j;
  Ok (<[Z.to_nat j := x]> (<[Z.to_nat i := y]> h)).

(** [*h = append( *h, v)] *)
Definition slice_push (h : list A) (v : A) : res (list A) := Ok (h ++ [v]).

(** [*h, v = ( *h)[:h.Len()-1], ( *h)[h.Len()-1]] *)
Definition slice_pop (h : list A) : res (A * list A) :=
  let n := int.sub (slice_len h) 1 in
  v ← slice_get h n;
  Ok (v, take (Z.to_nat n) h).

#[local] Instance sliceHeap : heap.Interface (list A) A := {|
  heap.Len := slice_len;
  heap.Less := slice_less;
  heap.Swap := slice_swap;
  heap.Push := slice_push;
  heap.Pop := slice_pop
|}.

(** The same slice, with the calls to [Swap] it received written to a
    log: the observable trace of the package on its argument. *)
Record logged : Type := Logged { elems : list A; swaps : list (Z * Z) }.

#[local] Instance loggedHeap : heap.Interface logged A := {|
  heap.Len h := slice_len (elems h);
  heap.Less h i j := slice_less (elems h) i j;
  heap.Swap h i j :=
    l ← slice_swap (elems h) i j; Ok (Logged l (swaps h ++ [(i, j)]));
  heap.Push h v := l ← slice_push (elems h) v; Ok (Logged l (swaps h));
  heap.Pop h :=
    '(v, l) ← slice_pop (elems h); Ok (v, Logged l (swaps h))
|}.
End Slice.

(** ** The package *)

Module mmheap.

(** [bits.LeadingZeros(uint(index+1))&1 == 1] *)
Definition isMinLevel (index : Z) : bool :=
  Z.land (bits.LeadingZeros (int.to_uint (int.add index 1))) 1 =? 1.

Definition hasParent (index : Z) : bool := index >? 0.

Definition parent (index : Z) : Z := int.div (int.sub index 1) 2.

Definition hasGrandparent (index : Z) : bool := index >? 2.

Definition grandparent (index : Z) : Z := parent (parent index).

Inductive relation : Set := self | child | grandchild.

Record progeny : Set := Progeny { index : Z; rel : relation }.

(** The six candidates of one iteration of [down], in the order of the
    array literal of the source. *)
Definition progenies (on : Z) : list progeny :=
  let l := int.add (int.mul 2 on) 1 in
  let r := int.add l 1 in
  let ll := int.add (int.mul 2 l) 1 in
  let lr := int.add ll 1 in
  let rl := int.add (int.mul 2 r) 1 in
  let rr := int.add rl 1 in
  [ Progeny l child; Progeny r child;
    Progeny ll grandchild; Progeny lr grandchild;
    Progeny rl grandchild; Progeny rr grandchild ].

Section Algorithms.
Context {H A : Type} {I : heap.Interface H A}.

(** The loop [for hasGrandparent(on)] of [up]: grandparent hops, until
    the test [onMinLevel == h.Less(on, grandparent)] fails. *)
Fixpoint up_loop (fuel : nat) (h : H) (onMinLevel : bool) (on : Z)
  : res H :=
  match fuel with
  | O => OutOfFuel
  | S fuel =>
      if hasGrandparent on then
        let gp := grandparent on in
        b ← heap.Less h on gp;
        if Bool.eqb onMinLevel b then
          h ← heap.Swap h on gp;
          up_loop fuel h onMinLevel gp
        else Ok h
      else Ok h
  end.

(** [up]: one step to the parent, which changes the level, then the
    loop. *)
Definition up (fuel : nat) (h : H) (on : Z) : res H :=
  let onMinLevel := isMinLevel on in
  let p := parent on in
  '(h, on, onMinLevel) ←
    (if hasParent on then
       b ← heap.Less h p on;
       if Bool.eqb onMinLevel b then
         h ← heap.Swap h on p;
         Ok (h, p, negb onMinLevel)
       else Ok (h, on, onMinLevel)
     else Ok (h, on, onMinLevel));
  up_loop fuel h onMinLevel on.

(** The [for ... range] loop of [down]: it breaks at the first
    candidate out of [0, n), and takes a candidate for [smallest] when
    [onMinLevel == h.Less(progeny.index, smallest.index)]. *)
Fixpoint select (h : H) (n : Z) (onMinLevel : bool)
    (candidates : list progeny) (smallest : progeny) : res progeny :=
  match candidates with
  | [] => Ok smallest
  | p :: candidates =>
      if (index p >=? n) || (index p <? 0) then Ok smallest
      else
        b ← heap.Less h (index p) (index smallest);
        if Bool.eqb onMinLevel b
        then select h n onMinLevel candidates p
        else select h n onMinLevel candidates smallest
  end.

(** The loop [for { ... }] of [down]; it returns the heap and the final
    [on]. *)
Fixpoint down_loop (fuel : nat) (h : H) (n : Z) (onMinLevel : bool)
    (on : Z) : res (H * Z) :=
  match fuel with
  | O => OutOfFuel
  | S fuel =>
      smallest ← select h n onMinLevel (progenies on) (Progeny on self);
      match rel smallest with
      | self => Ok (h, on)
      | child =>
          h ← heap.Swap h on (index smallest);
          Ok (h, index smallest)
      | grandchild =>
          h ← heap.Swap h on (index smallest);
          let p := parent (index smallest) in
          b ← heap.Less h p (index smallest);
          h ← (if Bool.eqb onMinLevel b
               then heap.Swap h (index smallest) p
               else Ok h);
          down_loop fuel h n onMinLevel (index smallest)
      end
  end.

(** [down] returns [on > i0]. *)
Definition down (fuel : nat) (h : H) (i0 n : Z) : res (H * bool) :=
  '(h, on) ← down_loop fuel h n (isMinLevel i0) i0;
  Ok (h, on >? i0).

(** [for i := n/2 - 1; i >= 0; i-- { down(h, i, n) }], by recursion on
    [k = i + 1]: the loop is entered with [k = (n/2 - 1) + 1] and left
    when [i] is negative. *)
Fixpoint Init_loop (fuel : nat) (h : H) (n : Z) (k : nat) : res H :=
  match k with
  | O => Ok h
  | S i =>
      '(h, _) ← down fuel h (Z.of_nat i) n;
      Init_loop fuel h n i
  end.

Definition Init (fuel : nat) (h : H) : res H :=
  let n := heap.Len h in
  Init_loop fuel h n (Z.to_nat (int.sub (int.div n 2) 1 + 1)).

Definition Push (fuel : nat) (h : H) (x : A) : res H :=
  h ← heap.Push h x;
  up fuel h (int.sub (heap.Len h) 1).

Definition Pop (fuel : nat) (h : H) : res (A * H) :=
  let n := int.sub (heap.Len h) 1 in
  h ← heap.Swap h 0 n;
  '(h, _) ← down fuel h 0 n;
  heap.Pop h.

Definition Remove (fuel : nat) (h : H) (i : Z) : res (A * H) :=
  let n := int.sub (heap.Len h) 1 in
  h ← (if negb (n =? i) then
         h ← heap.Swap h i n;
         '(h, moved) ← down fuel h i n;
         if negb moved then up fuel h i else Ok h
       else Ok h);
  heap.Pop h.

Definition Fix (fuel : nat) (h : H) (i : Z) : res H :=
  '(h, moved) ← down fuel h i (heap.Len h);
  if negb moved then up fuel h i else Ok h.

Definition Max (h : H) : res Z :=
  let n := heap.Len h in
  if n =? 1 then Ok 0
  else if n =? 2 then Ok 1
  else
    b ← heap.Less h 1 2;
    if b : bool then Ok 2 else Ok 1.

End Algorithms.

End mmheap.

(** ** The order of the elements

    [Less] of a heap is to be a strict weak ordering of its elements. *)

Class StrictWeakOrder {A : Type} (less : A -> A -> bool) : Prop := {
  less_irrefl x : less x x = false;
  less_trans x y z : less x y = true -> less y z = true -> less x z = true;
  less_cotrans x y z : less x z = true -> less x y = true \/ less y z = true
}.

(** ** The tree laid out in the slice *)

(** [depth i] is the integer part of the binary logarithm of [i + 1]. *)
Definition depth (i : Z) : Z := Z.log2 (i + 1).

Definition is_child (p c : Z) : Prop :=
  0 <= p /\ (c = 2 * p + 1 \/ c = 2 * p + 2).

Definition is_grandchild (g c : Z) : Prop :=
  exists p, is_child g p /\ is_child p c.

(** [descendant a d]: [d] lies strictly below [a]. *)
Inductive descendant (a : Z) : Z -> Prop :=
| desc_child d : is_child a d -> descendant a d
| desc_step q d : descendant a q -> is_child q d -> descendant a d.

(** [on_path i k]: [k] is [i], above [i] or below [i]. *)
Definition on_path (i k : Z) : Prop :=
  k = i \/ descendant k i \/ descendant i k.

(** The children and grandchildren of [on] as mathematical integers, in
    the order of [mmheap.progenies]. *)
Definition family (on : Z) : list mmheap.progeny :=
  [ mmheap.Progeny (2 * on + 1) mmheap.child;
    mmheap.Progeny (2 * on + 2) mmheap.child;
    mmheap.Progeny (4 * on + 3) mmheap.grandchild;
    mmheap.Progeny (4 * on + 4) mmheap.grandchild;
    mmheap.Progeny (4 * on + 5) mmheap.grandchild;
    mmheap.Progeny (4 * on + 6) mmheap.grandchild ].

Definition in_range (n : Z) (p : mmheap.progeny) : Prop :=
  0 <= mmheap.index p < n.

#[global] Instance in_range_dec n p : Decision (in_range n p).
Proof. unfold in_range. apply _. Defined.

(** The candidates that lie in [0, n). *)
Definition valid_family (on n : Z) : list mmheap.progeny :=
  filter (in_range n) (family on).

(** The candidates [select] looks at: those before the first one out of
    [0, n). *)
Fixpoint considered (n : Z) (cs : list mmheap.progeny)
  : list mmheap.progeny :=
  match cs with
  | [] => []
  | p :: cs =>
      if (mmheap.index p >=? n) || (mmheap.index p <? 0) then []
      else p :: considered n cs
  end.

(** [select] without the range test. *)
Fixpoint select_all {H A : Type} {I : heap.Interface H A} (h : H)
    (minLevel : bool) (cs : list mmheap.progeny) (best : mmheap.progeny)
  : res mmheap.progeny :=
  match cs with
  | [] => Ok best
  | c :: cs =>
      b ← heap.Less h (mmheap.index c) (mmheap.index best);
      select_all h minLevel cs (if Bool.eqb minLevel b then c else best)
  end.

Section Spec.
Context {A : Type} (less : A -> A -> bool).

(** [x <= y] for the ordering of [less]. *)
Definition leq (x y : A) : Prop := less y x = false.

(** [extreme lvl x y]: on a min level [x <= y], on a max level [y <= x]. *)
Definition extreme (minLevel : bool) (x y : A) : Prop :=
  if minLevel then leq x y else leq y x.

(** [x] and [y] are tied: neither is less than the other. *)
Definition tied (x y : A) : Prop := less x y = false /\ less y x = false.

(** [h[i]] as an option. *)
Definition zget (h : list A) (i : Z) : option A :=
  if i <? 0 then None else h !! Z.to_nat i.

(** The min-max heap property of the first [n] elements of [h]: an index
    at even depth is below all its descendants, one at odd depth above. *)
Definition heap_upto (n : Z) (h : list A) : Prop :=
  forall i d x y,
    descendant i d -> d < n -> zget h i = Some x -> zget h d = Some y ->
    extreme (Z.even (depth i)) x y.

Definition MinMaxHeap (h : list A) : Prop := heap_upto (slice_len h) h.

(** *** The heap property on the contents seen as a function

    The sift procedures are followed on [v : Z -> A], the contents of the
    slice by index; [swapf] is what [Swap] does to it. *)

Definition swapf (v : Z -> A) (i j : Z) : Z -> A :=
  fun k => if k =? j then v i else if k =? i then v j else v k.

Definition holds (v : Z -> A) (a d : Z) : Prop :=
  extreme (Z.even (depth a)) (v a) (v d).

(** The property for every index from [k] on. *)
Definition ordered_from (k n : Z) (v : Z -> A) : Prop :=
  forall a d, k <= a -> descendant a d -> d < n -> holds v a d.

(** The same but for [on] against its descendants: the state of [down]. *)
Definition ordered_but (k n : Z) (v : Z -> A) (on : Z) : Prop :=
  forall a d, k <= a -> a <> on -> descendant a d -> d < n -> holds v a d.

(** Everything but [on] against its ancestors on levels [lvl]: the state
    of [up]. *)
Definition ordered_above (n : Z) (v : Z -> A) (on : Z) (lvl : bool) : Prop :=
  forall a d, descendant a d -> d < n ->
    ~ (d = on /\ Z.even (depth a) = lvl) -> holds v a d.

(** Everything but [on] against its ancestors. *)
Definition ordered_except (n : Z) (v : Z -> A) (on : Z) : Prop :=
  forall a d, descendant a d -> d < n -> d <> on -> holds v a d.

(** [h[k]] with a default out of range. *)
Definition val (dflt : A) (h : list A) (k : Z) : A := default dflt (zget h k).

(** The slice after [Swap(i, j)]. *)
Definition exchange (h : list A) (i j : Z) : list A :=
  match zget h i, zget h j with
  | Some x, Some y => <[Z.to_nat j := x]> (<[Z.to_nat i := y]> h)
  | _, _ => h
  end.

(** *** A test of the heap property *)

(** The proper ancestors of [d], nearest first. *)
Fixpoint ancestors (fuel : nat) (d : Z) : list Z :=
  match fuel with
  | O => []
  | S fuel =>
      if d <=? 0 then []
      else let p := (d - 1) / 2 in p :: ancestors fuel p
  end.

Definition ok_pair (h : list A) (a d : Z) : bool :=
  match zget h a, zget h d with
  | Some x, Some y =>
      if Z.even (depth a) then negb (less y x) else negb (less x y)
  | _, _ => true
  end.

(** A test of the heap property: every index against its ancestors. *)
Definition heap_check (h : list A) : bool :=
  forallb (fun d => forallb (fun a => ok_pair h a (Z.of_nat d))
                      (ancestors d (Z.of_nat d)))
    (seq 0 (length h)).

(** [Pop] called [k] times, as in the loops of the tests. *)
Fixpoint drain (fuel : nat) (k : nat) (h : list A) : res (list A * list A) :=
  match k with
  | O => Ok ([], h)
  | S k =>
      '(v, h) ← mmheap.Pop (I := sliceHeap less) fuel h;
      '(vs, h) ← drain fuel k h;
      Ok (v :: vs, h)
  end.

(** [Push] called on each element of [xs] in turn. *)
Fixpoint pushes (fuel : nat) (h : list A) (xs : list A) : res (list A) :=
  match xs with
  | [] => Ok h
  | x :: xs =>
      h ← mmheap.Push (I := sliceHeap less) fuel h x;
      pushes fuel h xs
  end.

(** [Remove] at the index [Max] gives, [k] times, as in [TestRemove0]. *)
Fixpoint remove_max (fuel : nat) (k : nat) (h : list A)
  : res (list A * list A) :=
  match k with
  | O => Ok ([], h)
  | S k =>
      i ← mmheap.Max (I := sliceHeap less) h;
      '(v, h) ← mmheap.Remove (I := sliceHeap less) fuel h i;
      '(vs, h) ← remove_max fuel k h;
      Ok (v :: vs, h)
  end.

End Spec.

(** ** The log of a logged slice *)

(** Two results agree: both are values, related by [R], or both fail in
    the same way. *)
Definition agree {X Y : Type} (R : X -> Y -> Prop) (r1 : res X) (r2 : res Y)
  : Prop :=
  match r1, r2 with
  | Ok x, Ok y => R x y
  | Panic, Panic => True
  | OutOfFuel, OutOfFuel => True
  | _, _ => False
  end.

Section Trace.
Context {A : Type}.

(** The slice after the calls to [Swap] of a log, oldest first. *)
Definition replay (h : list A) (sw : list (Z * Z)) : list A :=
  foldl (fun h ij => exchange h (fst ij) (snd ij)) h sw.

(** [H] is the logged slice reached from [h0] with log [log0] by calls to
    [Swap] only, and holds [h]. *)
Definition reached (h0 : list A) (log0 : list (Z * Z)) (H : logged)
    (h : list A) : Prop :=
  elems H = h /\
  exists sw, swaps H = log0 ++ sw /\ h = replay h0 sw.
End Trace.

(** Pairs of a key and a tag, ordered by the key: elements that tie
    without being equal. *)
Definition less_key (a b : Z * Z) : bool := fst a <? fst b.

(** ** The oracle of the tests: [verify] of [mmheap_test.go] *)

Module test.

(** The arguments of one call to [t.Errorf] in [verify]. *)
Record failure : Set := Failure {
  index : Z;
  value : Z;
  badDirection : string;
  child_index : Z;
  child_value : Z
}.

(** One of the two blocks of [verify], for the child [j]: the test
    [isMinLevel(i) == h.Less(j, i) && h[j] != h[i]] and the report, which
    names the index [jmsg]. It answers the failures reported so far and
    whether [verify] returns here. *)
Definition verify_child (h : list Z) (i j jmsg : Z) (badDirection : string)
    (t : list failure) : res (list failure * bool) :=
  b ← slice_less Z.ltb h j i;
  bad ← (if Bool.eqb (mmheap.isMinLevel i) b
         then x ← slice_get h j; y ← slice_get h i; Ok (negb (x =? y))
         else Ok false);
  if bad : bool then
    hi ← slice_get h i;
    hj ← slice_get h j;
    Ok (t ++ [Failure i hi badDirection jmsg hj], true)
  else Ok (t, false).

(** [h.verify(t, i)] on an [intHeap]; [t] is the list of the failures
    reported. The report of the second block names [j1], as the source
    does. *)
Fixpoint verify (fuel : nat) (h : list Z) (i : Z) (t : list failure)
  : res (list failure) :=
  match fuel with
  | O => OutOfFuel
  | S fuel =>
      let n := slice_len h in
      let j1 := int.add (int.mul 2 i) 1 in
      let j2 := int.add (int.mul 2 i) 2 in
      let badDirection :=
        if negb (mmheap.isMinLevel i) then "<"%string else ">"%string in
      '(t, returned) ←
        (if j1 <? n then
           '(t, failed) ← verify_child h i j1 j1 badDirection t;
           if failed : bool then Ok (t, true)
           else t ← verify fuel h j1 t; Ok (t, false)
         else Ok (t, false));
      if returned : bool then Ok t
      else if j2 <? n then
        '(t, failed) ← verify_child h i j2 j1 badDirection t;
        if failed : bool then Ok t else verify fuel h j2 t
      else Ok t
  end.

End test.

(** What [verify] tests from [i] down: every parent and child in order. *)
Definition children_ordered (h : list Z) (i : Z) : Prop :=
  forall p c x y,
    p = i \/ descendant i p -> is_child p c ->
    zget h p = Some x -> zget h c = Some y ->
    extreme Z.ltb (Z.even (depth p)) x y.

(** * Properties *)

(** ** Orders used at concrete slices *)

#[global] Instance Zltb_order : StrictWeakOrder Z.ltb.
Proof. split; intros; lia. Qed.

#[global] Instance less_key_order : StrictWeakOrder less_key.
Proof. split; unfold less_key; intros; lia. Qed.

(** ** Machine arithmetic *)

Lemma wrap_id z : - 2 ^ 63 <= z < 2 ^ 63 -> int.wrap z = z.
Proof. unfold int.wrap. lia. Qed.

Lemma add_id a b : - 2 ^ 63 <= a + b < 2 ^ 63 -> int.add a b = a + b.
Proof. apply wrap_id. Qed.

Lemma sub_id a b : - 2 ^ 63 <= a - b < 2 ^ 63 -> int.sub a b = a - b.
Proof. apply wrap_id. Qed.

Lemma mul_id a b : - 2 ^ 63 <= a * b < 2 ^ 63 -> int.mul a b = a * b.
Proof. apply wrap_id. Qed.

Lemma to_uint_wrap z : int.to_uint (int.wrap z) = z mod 2 ^ 64.
Proof. unfold int.to_uint, int.wrap. lia. Qed.

Lemma parent_eq i : 0 < i < 2 ^ 63 -> mmheap.parent i = (i - 1) / 2.
Proof.
  intros Hi. unfold mmheap.parent, int.div, int.sub.
  rewrite (wrap_id (i - 1)) by lia. rewrite wrap_id; lia.
Qed.

Lemma parent_child p c :
  is_child p c -> c < 2 ^ 63 -> mmheap.parent c = p.
Proof. intros [Hp Hc] Hlt. rewrite parent_eq; lia. Qed.

Lemma child_parent i : 0 < i < 2 ^ 63 -> is_child (mmheap.parent i) i.
Proof. intros Hi. rewrite parent_eq by lia. unfold is_child. lia. Qed.

(** ** Levels *)

(** The parity of the count of leading zeros is that of the logarithm
    for any even word size: for the 64 bits taken here, and for 32. *)
Lemma leading_zeros_parity_size size x :
  Z.even size = true -> 0 < x < 2 ^ size ->
  (Z.land (size - bits.Len x) 1 =? 1) = Z.even (Z.log2 x).
Proof.
  intros Hsize Hx. unfold bits.Len.
  destruct (Z.eqb_spec x 0) as [->|_]; [lia|].
  assert (Hs : 0 <= size).
  { destruct (Z.le_gt_cases 0 size) as [?|Hneg]; [assumption|].
    rewrite Z.pow_neg_r in Hx by assumption. lia. }
  assert (HL : 0 <= Z.log2 x < size).
  { split; [apply Z.log2_nonneg|]. apply Z.log2_lt_pow2; lia. }
  apply Z.even_spec in Hsize. destruct Hsize as [k Hk].
  change 1 with (Z.ones 1) at 2.
  rewrite Z.land_ones by lia. change (2 ^ 1) with 2.
  destruct (Z.even (Z.log2 x)) eqn:E.
  - apply Z.even_spec in E. destruct E as [m Hm].
    apply Z.eqb_eq. lia.
  - rewrite <- Z.negb_odd in E. apply negb_false_iff, Z.odd_spec in E.
    destruct E as [m Hm]. apply Z.eqb_neq. lia.
Qed.

Lemma leading_zeros_parity x :
  0 < x < 2 ^ 64 ->
  (Z.land (bits.LeadingZeros x) 1 =? 1) = Z.even (Z.log2 x).
Proof. apply (leading_zeros_parity_size 64). reflexivity. Qed.

Lemma isMinLevel_depth i :
  0 <= i <= int.max_int -> mmheap.isMinLevel i = Z.even (depth i).
Proof.
  unfold int.max_int. intros Hi. unfold mmheap.isMinLevel, int.add, depth.
  rewrite to_uint_wrap, Z.mod_small by lia.
  apply leading_zeros_parity. lia.
Qed.

Lemma depth_child p c : is_child p c -> depth c = depth p + 1.
Proof.
  intros [Hp [-> | ->]]; unfold depth.
  - replace (2 * p + 1 + 1) with (2 * (p + 1)) by lia.
    rewrite Z.log2_double by lia. lia.
  - replace (2 * p + 2 + 1) with (2 * (p + 1) + 1) by lia.
    rewrite Z.log2_succ_double by lia. lia.
Qed.

Lemma level_child p c :
  is_child p c -> Z.even (depth c) = negb (Z.even (depth p)).
Proof.
  intros H. rewrite (depth_child p c H), Z.add_1_r.
  rewrite Z.even_succ, <- Z.negb_even. reflexivity.
Qed.

(** ** Descendants *)

Lemma desc_lt a d : descendant a d -> 0 <= a < d.
Proof. induction 1 as [d [? ?]|q d _ IH [? ?]]; lia. Qed.

Lemma desc_trans a b d : descendant a b -> descendant b d -> descendant a d.
Proof.
  intros Hab Hbd. induction Hbd as [d Hc|q d _ IH Hc].
  - eapply desc_step; eauto.
  - eapply desc_step; eauto.
Qed.

Lemma child_unique p q c : is_child p c -> is_child q c -> p = q.
Proof. unfold is_child. lia. Qed.

(** The ancestors of a child are its parent and the ancestors of it. *)
Lemma desc_parent a p d :
  descendant a d -> is_child p d -> a = p \/ descendant a p.
Proof.
  intros Had Hpd. inversion Had as [d' Hc|q d' Hq Hc]; subst.
  - left. eapply child_unique; eauto.
  - right. rewrite (child_unique p q d) by assumption. exact Hq.
Qed.

(** The descendants of [a] are its children and their descendants. *)
Lemma desc_top a d :
  descendant a d ->
  is_child a d \/ exists c, is_child a c /\ descendant c d.
Proof.
  induction 1 as [d Hc|q d Hq IH Hc].
  - left. exact Hc.
  - right. destruct IH as [Hq'|[c [Hac Hcq]]].
    + exists q. split; [assumption|]. apply desc_child. assumption.
    + exists c. split; [assumption|]. eapply desc_step; eauto.
Qed.

Lemma desc_root d : 0 < d -> descendant 0 d.
Proof.
  intros Hd. assert (H0 : 0 <= d) by lia. revert Hd.
  pattern d. apply Zlt_0_ind; [|exact H0]. clear d H0.
  intros d IH _ Hd.
  assert (Hc : is_child ((d - 1) / 2) d) by (unfold is_child; lia).
  destruct (Z.eq_dec ((d - 1) / 2) 0) as [E|E].
  - rewrite E in Hc. apply desc_child. exact Hc.
  - eapply desc_step; [|exact Hc]. apply IH; lia.
Qed.

Lemma desc_grandchild a c : is_grandchild a c -> descendant a c.
Proof.
  intros [p [Hap Hpc]]. eapply desc_step; [apply desc_child|]; eauto.
Qed.

Lemma level_grandchild g c :
  is_grandchild g c -> Z.even (depth c) = Z.even (depth g).
Proof.
  intros [p [Hgp Hpc]].
  rewrite (level_child p c Hpc), (level_child g p Hgp).
  apply negb_involutive.
Qed.

(** ** The ordering *)

Section Order.
Context {A : Type} (less : A -> A -> bool) `{!StrictWeakOrder less}.

Lemma less_asym x y : less x y = true -> less y x = false.
Proof.
  intros Hxy. destruct (less y x) eqn:Hyx; [|reflexivity].
  rewrite <- (less_irrefl x). symmetry. eapply less_trans; eauto.
Qed.

Lemma leq_refl x : leq less x x.
Proof. apply less_irrefl. Qed.

Lemma leq_trans x y z : leq less x y -> leq less y z -> leq less x z.
Proof.
  unfold leq. intros Hxy Hyz. destruct (less z x) eqn:Hzx; [|reflexivity].
  destruct (less_cotrans z y x Hzx); congruence.
Qed.

Lemma leq_total x y : leq less x y \/ leq less y x.
Proof.
  unfold leq. destruct (less y x) eqn:Hyx; [|by left].
  right. by apply less_asym.
Qed.

Lemma less_leq x y : less x y = true -> leq less x y.
Proof. apply less_asym. Qed.

Lemma extreme_refl lvl x : extreme less lvl x x.
Proof. destruct lvl; apply leq_refl. Qed.

Lemma extreme_trans lvl x y z :
  extreme less lvl x y -> extreme less lvl y z -> extreme less lvl x z.
Proof. destruct lvl; simpl; eauto using leq_trans. Qed.

Lemma extreme_flip lvl x y :
  extreme less (negb lvl) x y <-> extreme less lvl y x.
Proof. destruct lvl; reflexivity. Qed.

(** The test [onMinLevel == Less(u, v)] of the source. *)
Lemma chosen_extreme lvl u v :
  Bool.eqb lvl (less u v) = true -> extreme less lvl u v.
Proof.
  intros H. apply eqb_prop in H. subst lvl.
  destruct (less u v) eqn:E; simpl; [by apply less_asym|exact E].
Qed.

Lemma kept_extreme lvl u v :
  Bool.eqb lvl (less u v) = false -> extreme less lvl v u.
Proof.
  intros H. apply eqb_false_iff in H.
  destruct lvl, (less u v) eqn:E; simpl; try congruence.
  by apply less_asym.
Qed.

End Order.

(** ** Sifting down, on the contents *)

Section SiftDown.
Context {A : Type} (less : A -> A -> bool) `{!StrictWeakOrder less}.
Implicit Types (v : Z -> A) (lvl : bool).

Lemma swapf_l v i j : swapf v i j j = v i.
Proof. unfold swapf. by rewrite Z.eqb_refl. Qed.

Lemma swapf_r v i j : swapf v i j i = v j.
Proof.
  unfold swapf. destruct (Z.eqb_spec i j) as [->|_]; [reflexivity|].
  by rewrite Z.eqb_refl.
Qed.

Lemma swapf_other v i j k : k <> i -> k <> j -> swapf v i j k = v k.
Proof.
  intros Hi Hj. unfold swapf.
  destruct (Z.eqb_spec k j); [contradiction|].
  destruct (Z.eqb_spec k i); [contradiction|]. reflexivity.
Qed.

(** A value below the children and grandchildren of [on] is below every
    descendant of [on]. *)
Lemma extreme_below k n v on m :
  ordered_but less k n v on -> k <= on ->
  (forall c, is_child on c \/ is_grandchild on c -> c < n ->
             extreme less (Z.even (depth on)) m (v c)) ->
  forall d, descendant on d -> d < n ->
            extreme less (Z.even (depth on)) m (v d).
Proof.
  intros Hbut Hk Hm d Hd Hn.
  destruct (desc_top _ _ Hd) as [Hc|[c [Hc Hcd]]]; [by apply Hm; auto|].
  destruct (desc_top _ _ Hcd) as [Hg|[g [Hg Hgd]]].
  { apply Hm; [|assumption]. right. by exists c. }
  assert (Hgc : is_grandchild on g) by (by exists c).
  pose proof (desc_lt _ _ Hgd) as Hlt.
  pose proof (desc_lt _ _ (desc_grandchild _ _ Hgc)) as Hlt'.
  eapply extreme_trans; [assumption|apply (Hm g); [by right|lia]|].
  rewrite <- (level_grandchild on g Hgc).
  apply Hbut; auto; lia.
Qed.

Lemma down_self k n v on :
  ordered_but less k n v on -> k <= on ->
  (forall c, is_child on c \/ is_grandchild on c -> c < n ->
             extreme less (Z.even (depth on)) (v on) (v c)) ->
  ordered_from less k n v.
Proof.
  intros Hbut Hk Hm a d Ha Had Hn.
  destruct (Z.eq_dec a on) as [->|Hne]; [|by apply Hbut].
  eapply extreme_below; eauto.
Qed.

Lemma down_child k n v on c :
  ordered_but less k n v on -> k <= on ->
  is_child on c -> c < n ->
  (forall c', is_child on c' \/ is_grandchild on c' -> c' < n ->
              extreme less (Z.even (depth on)) (v c) (v c')) ->
  extreme less (Z.even (depth on)) (v c) (v on) ->
  ordered_from less k n (swapf v on c).
Proof.
  intros Hbut Hk Hc Hcn Hm Hx a d Ha Had Hn.
  pose proof (desc_lt _ _ Had) as Hlt.
  pose proof (desc_lt _ _ (desc_child _ _ Hc)) as Hltc.
  pose proof (extreme_below k n v on (v c) Hbut Hk Hm) as Hall.
  unfold holds.
  destruct (Z.eq_dec a on) as [->|Hao].
  { rewrite swapf_r. destruct (Z.eq_dec d c) as [->|Hdc].
    - by rewrite swapf_l.
    - rewrite swapf_other by lia. by apply Hall. }
  destruct (Z.eq_dec a c) as [->|Hac].
  { rewrite swapf_l, (swapf_other _ _ _ d) by lia.
    eapply extreme_trans; [assumption| |apply (Hbut c d); auto; lia].
    rewrite (level_child on c Hc). by apply extreme_flip. }
  rewrite (swapf_other _ _ _ a) by assumption.
  destruct (Z.eq_dec d on) as [->|Hdo].
  { rewrite swapf_r. apply (Hbut a c); auto.
    eapply desc_step; eauto. }
  destruct (Z.eq_dec d c) as [->|Hdc].
  { rewrite swapf_l. apply (Hbut a on); auto; [|lia].
    destruct (desc_parent _ _ _ Had Hc); [contradiction|assumption]. }
  rewrite swapf_other by assumption. by apply Hbut.
Qed.

Lemma down_grandchild k n v on p g v2 :
  ordered_but less k n v on -> k <= on ->
  is_child on p -> is_child p g -> g < n ->
  (forall c', is_child on c' \/ is_grandchild on c' -> c' < n ->
              extreme less (Z.even (depth on)) (v g) (v c')) ->
  extreme less (Z.even (depth on)) (v g) (v on) ->
  v2 on = v g ->
  (v2 g = v on /\ v2 p = v p) \/ (v2 g = v p /\ v2 p = v on) ->
  extreme less (Z.even (depth on)) (v2 g) (v2 p) ->
  (forall j, j <> on -> j <> g -> j <> p -> v2 j = v j) ->
  ordered_but less k n v2 g.
Proof.
  intros Hbut Hk Hp Hg Hgn Hm Hx Hon Hgp Hyq Hoth a d Ha Hag Had Hn.
  pose proof (desc_lt _ _ Had) as Hlt.
  assert (Hp' := Hp). assert (Hg' := Hg).
  destruct Hp' as [Hon0 Hpv], Hg' as [Hp0 Hgv].
  pose proof (extreme_below k n v on (v g) Hbut Hk Hm) as Hall.
  assert (Hmp : extreme less (Z.even (depth on)) (v g) (v p)).
  { apply Hm; [by left|lia]. }
  unfold holds.
  destruct (Z.eq_dec a on) as [->|Hao].
  { rewrite Hon.
    destruct (Z.eq_dec d g) as [->|Hdg]; [by destruct Hgp as [[-> _]|[-> _]]|].
    destruct (Z.eq_dec d p) as [->|Hdp]; [by destruct Hgp as [[_ ->]|[_ ->]]|].
    rewrite (Hoth d) by lia. by apply Hall. }
  destruct (Z.eq_dec a p) as [->|Hap].
  { rewrite (level_child on p Hp). apply extreme_flip.
    destruct (Z.eq_dec d g) as [->|Hdg]; [assumption|].
    rewrite (Hoth d) by lia.
    apply extreme_flip. rewrite <- (level_child on p Hp).
    eapply extreme_trans; [assumption| |apply (Hbut p d); auto; lia].
    rewrite (level_child on p Hp). apply extreme_flip.
    destruct Hgp as [[Eg Ep]|[Eg Ep]]; rewrite Ep.
    - apply extreme_refl; assumption.
    - rewrite Eg, Ep in Hyq. exact Hyq. }
  rewrite (Hoth a) by assumption.
  assert (Hup : descendant a g -> descendant a on).
  { intros H. destruct (desc_parent _ _ _ H Hg) as [->|H']; [contradiction|].
    destruct (desc_parent _ _ _ H' Hp) as [->|H'']; [contradiction|].
    assumption. }
  assert (Hup' : descendant a p -> descendant a on).
  { intros H. destruct (desc_parent _ _ _ H Hp) as [->|H']; [contradiction|].
    assumption. }
  destruct (Z.eq_dec d on) as [->|Hdo].
  { rewrite Hon. apply (Hbut a g); auto.
    eapply desc_step; [eapply desc_step|]; eauto. }
  destruct (Z.eq_dec d g) as [->|Hdg].
  { destruct Hgp as [[-> _]|[-> _]].
    - apply (Hbut a on); auto. lia.
    - apply (Hbut a p); auto; [|lia].
      eapply desc_step; [|exact Hp]. auto. }
  destruct (Z.eq_dec d p) as [->|Hdp].
  { destruct Hgp as [[_ ->]|[_ ->]].
    - apply (Hbut a p); auto.
    - apply (Hbut a on); auto. lia. }
  rewrite (Hoth d) by assumption. by apply Hbut.
Qed.

End SiftDown.

(** ** Sifting up, on the contents *)

Section SiftUp.
Context {A : Type} (less : A -> A -> bool) `{!StrictWeakOrder less}.
Implicit Types (v : Z -> A) (lvl : bool).

Lemma ordered_above_root n v on :
  0 <= on <= 2 ->
  ordered_above less n v on (Z.even (depth on)) -> ordered_from less 0 n v.
Proof.
  intros Hon Habove a d _ Had Hn. apply Habove; auto.
  intros [-> Hlvl]. pose proof (desc_lt _ _ Had) as Hlt.
  destruct (desc_parent a 0 on Had) as [->|H0].
  { unfold is_child. lia. }
  - assert (E : Z.even (depth on) = negb (Z.even (depth 0))).
    { apply level_child. unfold is_child. lia. }
    rewrite <- Hlvl in E. by destruct (Z.even (depth 0)).
  - apply desc_lt in H0. lia.
Qed.

Lemma up_break n v on p gp :
  ordered_above less n v on (Z.even (depth on)) ->
  is_child gp p -> is_child p on ->
  extreme less (Z.even (depth on)) (v gp) (v on) ->
  ordered_from less 0 n v.
Proof.
  intros Habove Hgp Hp Hx a d _ Had Hn.
  destruct (Z.eq_dec d on) as [->|Hd]; [|apply Habove; tauto].
  destruct (Bool.bool_dec (Z.even (depth a)) (Z.even (depth on))) as [E|E].
  2:{ apply Habove; auto. tauto. }
  assert (Hlg : Z.even (depth on) = Z.even (depth gp)).
  { apply level_grandchild. by exists p. }
  destruct (desc_parent _ _ _ Had Hp) as [->|Hap].
  { rewrite (level_child p on Hp) in E. by destruct (Z.even (depth p)). }
  unfold holds. rewrite E.
  destruct (desc_parent _ _ _ Hap Hgp) as [->|Hag]; [assumption|].
  eapply extreme_trans; [assumption| |exact Hx].
  rewrite <- E. apply (Habove a gp); auto.
  - destruct Hgp, Hp. lia.
  - intros [-> _]. destruct Hgp, Hp. lia.
Qed.

Lemma up_hop n v on p gp :
  ordered_above less n v on (Z.even (depth on)) ->
  is_child gp p -> is_child p on -> on < n ->
  extreme less (Z.even (depth on)) (v on) (v gp) ->
  ordered_above less n (swapf v on gp) gp (Z.even (depth on)).
Proof.
  intros Habove Hgp Hp Hon Hx a d Had Hn Hex.
  pose proof (desc_lt _ _ Had) as Hlt.
  assert (Hgo : descendant gp on).
  { eapply desc_step; [apply desc_child|]; eauto. }
  pose proof (desc_lt _ _ Hgo) as Hltg.
  assert (Hlg : Z.even (depth on) = Z.even (depth gp)).
  { apply level_grandchild. by exists p. }
  unfold holds.
  destruct (Z.eq_dec a on) as [->|Hao].
  { rewrite swapf_r, (swapf_other _ _ _ d) by lia.
    rewrite Hlg. apply (Habove gp d); auto.
    - eapply desc_trans; eauto.
    - intros [-> _]. lia. }
  destruct (Z.eq_dec a gp) as [->|Hag].
  { rewrite swapf_l, <- Hlg. destruct (Z.eq_dec d on) as [->|Hdo].
    - by rewrite swapf_r.
    - rewrite swapf_other by lia.
      eapply extreme_trans; [assumption|exact Hx|].
      rewrite Hlg. apply (Habove gp d); auto. tauto. }
  rewrite (swapf_other _ _ _ a) by assumption.
  destruct (Z.eq_dec d on) as [->|Hdo].
  { rewrite swapf_r.
    destruct (desc_parent _ _ _ Had Hp) as [->|Hap].
    - rewrite (level_child gp p Hgp). apply extreme_flip.
      apply (Habove gp p); auto; [by apply desc_child|lia|].
      intros [-> _]. destruct Hp. lia.
    - destruct (desc_parent _ _ _ Hap Hgp) as [->|Hagp]; [contradiction|].
      apply (Habove a gp); auto; [lia|]. intros [-> _]. lia. }
  destruct (Z.eq_dec d gp) as [->|Hdg].
  { rewrite swapf_l. apply (Habove a on); auto.
    - eapply desc_trans; eauto.
    - intros [_ E]. apply Hex. auto. }
  rewrite swapf_other by assumption. apply Habove; auto. tauto.
Qed.

Lemma up_parent_swap n v on p :
  ordered_except less n v on ->
  is_child p on ->
  extreme less (Z.even (depth on)) (v p) (v on) ->
  ordered_above less n (swapf v on p) p (Z.even (depth p)).
Proof.
  intros Hexc Hp Hx a d Had Hn Hex.
  pose proof (desc_lt _ _ Had) as Hlt.
  pose proof (desc_lt _ _ (desc_child _ _ Hp)) as Hltp.
  pose proof (level_child p on Hp) as Hlvl.
  unfold holds.
  destruct (Z.eq_dec a on) as [->|Hao].
  { rewrite swapf_r, swapf_other by lia.
    eapply extreme_trans; [assumption|exact Hx|]. apply (Hexc on d); auto.
    lia. }
  destruct (Z.eq_dec a p) as [->|Hap].
  { rewrite swapf_l. destruct (Z.eq_dec d on) as [->|Hdo].
    - rewrite swapf_r. apply extreme_flip. by rewrite <- Hlvl.
    - rewrite swapf_other by lia.
      eapply extreme_trans; [assumption| |apply (Hexc p d); auto].
      apply extreme_flip. by rewrite <- Hlvl. }
  rewrite (swapf_other _ _ _ a) by assumption.
  destruct (Z.eq_dec d on) as [->|Hdo].
  { rewrite swapf_r.
    destruct (desc_parent _ _ _ Had Hp) as [->|Ha]; [contradiction|].
    apply (Hexc a p); auto; lia. }
  destruct (Z.eq_dec d p) as [->|Hdp].
  { rewrite swapf_l.
    assert (E : Z.even (depth a) = Z.even (depth on)).
    { rewrite Hlvl.
      destruct (Bool.bool_dec (Z.even (depth a)) (Z.even (depth p)))
        as [E'|E']; [exfalso; apply Hex; auto|].
      by destruct (Z.even (depth a)), (Z.even (depth p)). }
    eapply extreme_trans; [assumption|apply (Hexc a p); auto; lia|].
    by rewrite E. }
  rewrite swapf_other by assumption. by apply Hexc.
Qed.

Lemma up_parent_keep n v on p :
  ordered_except less n v on ->
  is_child p on ->
  extreme less (Z.even (depth on)) (v on) (v p) ->
  ordered_above less n v on (Z.even (depth on)).
Proof.
  intros Hexc Hp Hx a d Had Hn Hex.
  pose proof (desc_lt _ _ Had) as Hlt.
  pose proof (level_child p on Hp) as Hlvl.
  destruct (Z.eq_dec d on) as [->|Hdo]; [|by apply Hexc].
  assert (E : Z.even (depth a) = Z.even (depth p)).
  { destruct (Bool.bool_dec (Z.even (depth a)) (Z.even (depth on)))
      as [E'|E']; [exfalso; apply Hex; auto|].
    rewrite Hlvl in E'.
    by destruct (Z.even (depth a)), (Z.even (depth p)). }
  assert (Hpo : extreme less (Z.even (depth p)) (v p) (v on)).
  { apply (proj1 (extreme_flip less _ _ _)). by rewrite <- Hlvl. }
  unfold holds. rewrite E.
  destruct (desc_parent _ _ _ Had Hp) as [->|Ha]; [assumption|].
  eapply extreme_trans; [assumption| |exact Hpo].
  rewrite <- E. apply (Hexc a p); auto; destruct Hp; lia.
Qed.

End SiftUp.

(** ** Slices *)

Section SliceFacts.
Context {A : Type}.
Implicit Types (h : list A) (i j k n : Z) (less : A -> A -> bool).

Lemma zget_range h i x : zget h i = Some x -> 0 <= i < slice_len h.
Proof.
  unfold zget, slice_len. destruct (Z.ltb_spec i 0); [discriminate|].
  intros Hx%lookup_lt_Some. lia.
Qed.

Lemma zget_is_Some h i : 0 <= i < slice_len h -> is_Some (zget h i).
Proof.
  unfold zget, slice_len. intros Hi.
  destruct (Z.ltb_spec i 0); [lia|]. apply lookup_lt_is_Some. lia.
Qed.

Lemma zget_None h i : ~ 0 <= i < slice_len h -> zget h i = None.
Proof.
  intros Hi. destruct (zget h i) eqn:E; [|reflexivity].
  apply zget_range in E. contradiction.
Qed.

Lemma zget_val dflt h i :
  0 <= i < slice_len h -> zget h i = Some (val dflt h i).
Proof.
  intros Hi. unfold val. by destruct (zget_is_Some h i Hi) as [x ->].
Qed.

Lemma val_get dflt h i x : zget h i = Some x -> val dflt h i = x.
Proof. unfold val. by intros ->. Qed.

Lemma val_congr dflt h h' i :
  zget h' i = zget h i -> val dflt h' i = val dflt h i.
Proof. unfold val. by intros ->. Qed.

Lemma slice_get_zget h i :
  slice_get h i = match zget h i with Some x => Ok x | None => Panic end.
Proof. unfold slice_get, zget. by destruct (i <? 0). Qed.

Lemma slice_get_ok dflt h i :
  0 <= i < slice_len h -> slice_get h i = Ok (val dflt h i).
Proof. intros Hi. by rewrite slice_get_zget, (zget_val dflt). Qed.

Lemma slice_get_panic h i : ~ 0 <= i < slice_len h -> slice_get h i = Panic.
Proof. intros Hi. by rewrite slice_get_zget, zget_None. Qed.

Lemma slice_less_ok less dflt h i j :
  0 <= i < slice_len h -> 0 <= j < slice_len h ->
  slice_less less h i j = Ok (less (val dflt h i) (val dflt h j)).
Proof.
  intros Hi Hj. unfold slice_less.
  by rewrite (slice_get_ok dflt h i), (slice_get_ok dflt h j).
Qed.

Lemma slice_swap_ok h i j :
  0 <= i < slice_len h -> 0 <= j < slice_len h ->
  slice_swap h i j = Ok (exchange h i j).
Proof.
  intros Hi Hj. unfold slice_swap, exchange. rewrite !slice_get_zget.
  destruct (zget_is_Some h i Hi) as [x ->].
  by destruct (zget_is_Some h j Hj) as [y ->].
Qed.

Lemma exchange_length h i j : length (exchange h i j) = length h.
Proof.
  unfold exchange. destruct (zget h i), (zget h j); try reflexivity.
  by rewrite !length_insert.
Qed.

Lemma exchange_len h i j : slice_len (exchange h i j) = slice_len h.
Proof. unfold slice_len. by rewrite exchange_length. Qed.

Lemma exchange_perm h i j : exchange h i j ≡ₚ h.
Proof.
  unfold exchange. destruct (zget h i) as [x|] eqn:Ei; [|reflexivity].
  destruct (zget h j) as [y|] eqn:Ej; [|reflexivity].
  unfold zget in Ei, Ej.
  destruct (i <? 0); [discriminate|]. destruct (j <? 0); [discriminate|].
  by apply Permutation_insert_swap.
Qed.

Lemma zget_exchange h i j k :
  0 <= i < slice_len h -> 0 <= j < slice_len h ->
  zget (exchange h i j) k =
  if k =? j then zget h i else if k =? i then zget h j else zget h k.
Proof.
  intros Hi Hj. unfold exchange.
  destruct (zget_is_Some h i Hi) as [x Hx].
  destruct (zget_is_Some h j Hj) as [y Hy]. rewrite Hx, Hy.
  unfold zget at 1. unfold slice_len in *.
  destruct (Z.eqb_spec k j) as [->|Hkj].
  { destruct (Z.ltb_spec j 0); [lia|].
    rewrite list_lookup_insert_eq; [done|]. rewrite length_insert. lia. }
  destruct (Z.ltb_spec k 0) as [Hk|Hk].
  { destruct (Z.eqb_spec k i); [lia|]. unfold zget.
    by destruct (Z.ltb_spec k 0); [|lia]. }
  rewrite list_lookup_insert_ne by lia.
  destruct (Z.eqb_spec k i) as [->|Hki].
  { rewrite list_lookup_insert_eq; [done|lia]. }
  rewrite list_lookup_insert_ne by lia.
  unfold zget. by destruct (Z.ltb_spec k 0); [lia|].
Qed.

Lemma val_exchange dflt h i j k :
  0 <= i < slice_len h -> 0 <= j < slice_len h ->
  val dflt (exchange h i j) k = swapf (val dflt h) i j k.
Proof.
  intros Hi Hj. unfold val, swapf. rewrite zget_exchange by assumption.
  by destruct (k =? j), (k =? i).
Qed.

End SliceFacts.

(** ** The choice among the candidates *)

Section Select.
Context {H A : Type} {I : heap.Interface H A}.

(** The range loop looks at the candidates before the first invalid one. *)
Lemma select_considered (h : H) n lvl cs best :
  mmheap.select h n lvl cs best = select_all h lvl (considered n cs) best.
Proof.
  revert best. induction cs as [|c cs IH]; intros best; [reflexivity|].
  simpl. destruct ((mmheap.index c >=? n) || (mmheap.index c <? 0));
    [reflexivity|].
  simpl. destruct (heap.Less h (mmheap.index c) (mmheap.index best));
    simpl; try reflexivity.
  destruct (eqb lvl x); apply IH.
Qed.

End Select.

Lemma int_child_l on :
  0 <= on <= int.max_int ->
  let l := int.add (int.mul 2 on) 1 in
  l = 2 * on + 1 \/ (l < 0 /\ int.max_int < 2 * on + 1).
Proof.
  unfold int.max_int, int.add, int.mul, int.wrap. intros Hon. lia.
Qed.

Lemma int_succ x n :
  0 <= x < n -> n <= int.max_int -> int.add x 1 = x + 1.
Proof. unfold int.max_int. intros. apply add_id. lia. Qed.

Lemma considered_cons n p cs :
  considered n (p :: cs) =
  if decide (in_range n p) then p :: considered n cs else [].
Proof.
  simpl. unfold in_range.
  destruct (Z.geb_spec (mmheap.index p) n), (Z.ltb_spec (mmheap.index p) 0);
    simpl; case_decide; try reflexivity; lia.
Qed.

(** [rest_invalid]: the candidates left are all out of [0, n). *)
Ltac rest_invalid :=
  repeat (rewrite filter_cons;
          let H := fresh in
          case_decide as H;
          [unfold in_range in H; cbn [mmheap.index] in H; lia|]);
  reflexivity.

(** [head_candidate]: the next candidate is in [0, n) for the code exactly
    when its mathematical value is; if it is not, neither are the others. *)
Ltac head_candidate :=
  rewrite considered_cons, filter_cons;
  repeat case_decide;
  unfold in_range in * |-; cbn [mmheap.index] in * |-;
  unfold int.max_int in *; try lia; [|rest_invalid].

(** Within [0, n) the wrapped candidates are the mathematical ones, and
    no candidate after the first invalid one is valid. *)
Lemma considered_progenies on n :
  0 <= on <= int.max_int -> 0 <= n <= int.max_int ->
  considered n (mmheap.progenies on) = valid_family on n.
Proof.
  intros Hon Hn. unfold mmheap.progenies, valid_family, family.
  pose proof (int_child_l on Hon) as Hl. cbv zeta in Hl.
  set (l := int.add (int.mul 2 on) 1) in *.
  head_candidate.
  assert (l = 2 * on + 1) as El by lia. clearbody l. subst l. f_equal.
  rewrite (int_succ (2 * on + 1) n) by (unfold int.max_int; lia).
  replace (2 * on + 1 + 1) with (2 * on + 2) by lia.
  head_candidate. f_equal.
  pose proof (int_child_l (2 * on + 1) ltac:(unfold int.max_int; lia)) as Hll.
  cbv zeta in Hll.
  set (ll := int.add (int.mul 2 (2 * on + 1)) 1) in *.
  head_candidate.
  assert (ll = 4 * on + 3) as Ell by lia. clearbody ll. subst ll. f_equal.
  rewrite (int_succ (4 * on + 3) n) by (unfold int.max_int; lia).
  replace (4 * on + 3 + 1) with (4 * on + 4) by lia.
  head_candidate. f_equal.
  assert (Erl : int.add (int.mul 2 (2 * on + 2)) 1 = 4 * on + 5).
  { rewrite mul_id, add_id; lia. }
  rewrite Erl.
  head_candidate. f_equal.
  rewrite (int_succ (4 * on + 5) n) by (unfold int.max_int; lia).
  replace (4 * on + 5 + 1) with (4 * on + 6) by lia.
  head_candidate. reflexivity.
Qed.

(** Where the arithmetic wraps: at [on = 2^62] the children come out
    negative and the loop breaks on the first, so the wrapped grandchildren
    3, 4, 5, 6 are not looked at; the grandchildren proper are beyond any
    length. *)
Example progenies_wrap :
  mmheap.index <$> mmheap.progenies (2 ^ 62)
  = [- 2 ^ 63 + 1; - 2 ^ 63 + 2; 3; 4; 5; 6] /\
  considered (2 ^ 62 + 1) (mmheap.progenies (2 ^ 62)) = [].
Proof. by vm_compute. Qed.

Lemma valid_family_elem on n s :
  0 <= on -> s ∈ valid_family on n ->
  0 <= mmheap.index s < n /\
  ((mmheap.rel s = mmheap.child /\ is_child on (mmheap.index s)) \/
   (mmheap.rel s = mmheap.grandchild /\
    exists p, is_child on p /\ is_child p (mmheap.index s))).
Proof.
  intros Hon [Hin Hs]%list_elem_of_filter. split; [exact Hin|].
  unfold family in Hs. unfold is_child.
  repeat (apply elem_of_cons in Hs as [->|Hs]); cbn.
  - left. split; [reflexivity|]. lia.
  - left. split; [reflexivity|]. lia.
  - right. split; [reflexivity|]. exists (2 * on + 1). lia.
  - right. split; [reflexivity|]. exists (2 * on + 1). lia.
  - right. split; [reflexivity|]. exists (2 * on + 2). lia.
  - right. split; [reflexivity|]. exists (2 * on + 2). lia.
  - by apply elem_of_nil in Hs.
Qed.

Lemma valid_family_complete on n c :
  is_child on c \/ is_grandchild on c -> c < n ->
  exists s, s ∈ valid_family on n /\ mmheap.index s = c.
Proof.
  intros Hc Hn.
  assert (Hin : 0 <= c < n).
  { destruct Hc as [[? ?]|[p [[? ?] [? ?]]]]; lia. }
  assert (Hc' : exists r, mmheap.Progeny c r ∈ family on).
  { unfold family.
    destruct Hc as [[? [-> | ->]]|[p [[? [-> | ->]] [? [-> | ->]]]]].
    - exists mmheap.child. apply elem_of_cons. by left.
    - exists mmheap.child. do 1 apply list_elem_of_further.
      apply elem_of_cons. by left.
    - exists mmheap.grandchild. do 2 apply list_elem_of_further.
      replace (2 * (2 * on + 1) + 1) with (4 * on + 3) by lia.
      apply elem_of_cons. by left.
    - exists mmheap.grandchild. do 3 apply list_elem_of_further.
      replace (2 * (2 * on + 1) + 2) with (4 * on + 4) by lia.
      apply elem_of_cons. by left.
    - exists mmheap.grandchild. do 4 apply list_elem_of_further.
      replace (2 * (2 * on + 2) + 1) with (4 * on + 5) by lia.
      apply elem_of_cons. by left.
    - exists mmheap.grandchild. do 5 apply list_elem_of_further.
      replace (2 * (2 * on + 2) + 2) with (4 * on + 6) by lia.
      apply elem_of_cons. by left. }
  destruct Hc' as [r Hr]. exists (mmheap.Progeny c r). split; [|reflexivity].
  apply list_elem_of_filter. split; assumption.
Qed.

Lemma res_bind_Ok {X Y : Type} (x : X) (f : X -> res Y) : (Ok x ≫= f) = f x.
Proof. reflexivity. Qed.

Section SelectSlice.
Context {A : Type} (less : A -> A -> bool).
Context (dflt : A).
Local Abbreviation val := (val dflt).
Local Abbreviation I := (sliceHeap less).

Lemma select_all_slice (h : list A) lvl cs best :
  Forall (in_range (slice_len h)) cs ->
  (cs <> [] -> in_range (slice_len h) best) ->
  exists s,
    select_all (I := I) h lvl cs best = Ok s /\
    (s = best \/ s ∈ cs) /\
    (StrictWeakOrder less ->
     extreme less lvl (val h (mmheap.index s)) (val h (mmheap.index best)) /\
     Forall (fun c => extreme less lvl (val h (mmheap.index s))
                        (val h (mmheap.index c))) cs).
Proof.
  intros Hcs. revert best.
  induction Hcs as [|c cs Hc Hcs IH]; intros best Hbest.
  { exists best. split; [reflexivity|]. split; [by left|].
    intros SWO. split; [by apply extreme_refl|constructor]. }
  assert (Hb : in_range (slice_len h) best) by (by apply Hbest).
  cbn [select_all heap.Less sliceHeap].
  rewrite (slice_less_ok less dflt) by assumption. rewrite res_bind_Ok.
  destruct (eqb lvl (less (val h (mmheap.index c))
                      (val h (mmheap.index best)))) eqn:E.
  - destruct (IH c) as (s & Hs & Hin & Hext); [done|].
    exists s. split; [exact Hs|]. split.
    { right. destruct Hin as [->|Hin]; [by left|by right]. }
    intros SWO. destruct (Hext SWO) as [Hx Hall].
    apply chosen_extreme in E; [|assumption].
    split; [by eapply extreme_trans; eauto|].
    constructor; assumption.
  - destruct (IH best) as (s & Hs & Hin & Hext); [done|].
    exists s. split; [exact Hs|]. split.
    { destruct Hin as [->|Hin]; [by left|right; by right]. }
    intros SWO. destruct (Hext SWO) as [Hx Hall].
    apply kept_extreme in E; [|assumption].
    split; [assumption|].
    constructor; [|assumption]. by eapply extreme_trans; eauto.
Qed.

(** One pass of the range loop of [down] on a slice. *)
Lemma select_progenies (h : list A) n lvl on :
  0 <= on <= int.max_int -> 0 <= n <= slice_len h ->
  slice_len h <= int.max_int ->
  exists s,
    mmheap.select (I := I) h n lvl (mmheap.progenies on)
      (mmheap.Progeny on mmheap.self) = Ok s /\
    (s = mmheap.Progeny on mmheap.self \/ s ∈ valid_family on n) /\
    (StrictWeakOrder less ->
     extreme less lvl (val h (mmheap.index s)) (val h on) /\
     (forall c, is_child on c \/ is_grandchild on c -> c < n ->
                extreme less lvl (val h (mmheap.index s)) (val h c))).
Proof.
  intros Hon Hn Hlen.
  rewrite select_considered, considered_progenies by lia.
  destruct (select_all_slice h lvl (valid_family on n)
              (mmheap.Progeny on mmheap.self)) as (s & Hs & Hin & Hext).
  - apply Forall_forall. intros c Hc.
    apply valid_family_elem in Hc as [Hc _]; [|lia]. unfold in_range. lia.
  - intros Hne. destruct (valid_family on n) as [|c cs] eqn:E; [done|].
    assert (Hc : c ∈ valid_family on n) by (rewrite E; by left).
    apply valid_family_elem in Hc as [Hc Hrel]; [|lia].
    unfold in_range. cbn.
    assert (on < mmheap.index c); [|lia].
    destruct Hrel as [[_ [? ?]]|[_ [p [[? ?] [? ?]]]]]; lia.
  - exists s. split; [exact Hs|]. split; [exact Hin|].
    intros SWO. destruct (Hext SWO) as [Hx Hall]. split; [exact Hx|].
    intros c Hc Hcn.
    destruct (valid_family_complete on n c Hc Hcn) as (s' & Hs' & <-).
    rewrite Forall_forall in Hall. by apply Hall.
Qed.

End SelectSlice.

(** ** [down] on a slice *)

Section Down.
Context {A : Type} (less : A -> A -> bool).
Context (dflt : A).
Local Abbreviation val := (val dflt).
Local Abbreviation I := (sliceHeap less).

Lemma ordered_from_ext k n (v v' : Z -> A) :
  (forall j, v' j = v j) -> ordered_from less k n v -> ordered_from less k n v'.
Proof.
  intros E Hv a d Ha Had Hn. unfold holds. rewrite !E. by apply Hv.
Qed.

Lemma down_loop_S fuel (h : list A) n lvl on :
  mmheap.down_loop (I := I) (S fuel) h n lvl on =
  smallest ← mmheap.select (I := I) h n lvl (mmheap.progenies on)
               (mmheap.Progeny on mmheap.self);
  match mmheap.rel smallest with
  | mmheap.self => Ok (h, on)
  | mmheap.child =>
      h ← slice_swap h on (mmheap.index smallest);
      Ok (h, mmheap.index smallest)
  | mmheap.grandchild =>
      h ← slice_swap h on (mmheap.index smallest);
      let p := mmheap.parent (mmheap.index smallest) in
      b ← slice_less less h p (mmheap.index smallest);
      h ← (if Bool.eqb lvl b
           then slice_swap h (mmheap.index smallest) p
           else Ok h);
      mmheap.down_loop (I := I) fuel h n lvl (mmheap.index smallest)
  end.
Proof. reflexivity. Qed.

(** [down_loop] returns, permutes the slice below [n], and from a heap
    that is ordered but for [on] it makes one that is ordered. *)
Lemma down_loop_spec fuel : forall (h : list A) n lvl on,
  0 <= on <= int.max_int -> 0 <= n <= slice_len h ->
  slice_len h <= int.max_int ->
  n - on < Z.of_nat fuel -> (0 < fuel)%nat ->
  exists h' on',
    mmheap.down_loop (I := I) fuel h n lvl on = Ok (h', on') /\
    h' ≡ₚ h /\ length h' = length h /\ on <= on' /\
    (on' = on \/ on' < n) /\
    (forall j, n <= j -> zget h' j = zget h j) /\
    (forall j, j < on -> zget h' j = zget h j) /\
    (forall k, StrictWeakOrder less -> lvl = Z.even (depth on) -> k <= on ->
       ordered_but less k n (val h) on -> ordered_from less k n (val h')).
Proof.
  induction fuel as [|fuel IH]; intros h n lvl on Hon Hn Hlen Hfuel Hpos;
    [lia|].
  rewrite down_loop_S.
  destruct (select_progenies less dflt h n lvl on Hon Hn Hlen)
    as (s & Hsel & Hs & Hext).
  rewrite Hsel, res_bind_Ok.
  destruct Hs as [->|Hs].
  { cbn [mmheap.rel]. exists h, on. split; [reflexivity|].
    split; [reflexivity|]. split; [reflexivity|]. split; [lia|].
    split; [by left|]. split; [done|]. split; [done|].
    intros k SWO -> Hk Hbut. destruct (Hext SWO) as [Hx Hm].
    eapply down_self; eauto. }
  apply valid_family_elem in Hs as [Hsn Hrel]; [|lia].
  destruct s as [c r]. cbn [mmheap.index mmheap.rel] in *.
  assert (Hoc : on < c).
  { destruct Hrel as [[_ [? ?]]|[_ [p [[? ?] [? ?]]]]]; lia. }
  assert (Hon' : 0 <= on < slice_len h) by lia.
  assert (Hc' : 0 <= c < slice_len h) by lia.
  destruct Hrel as [[-> Hc]|[-> [p [Hp Hg]]]].
  - rewrite slice_swap_ok by assumption. rewrite res_bind_Ok.
    exists (exchange h on c), c. split; [reflexivity|].
    split; [apply exchange_perm|]. split; [apply exchange_length|].
    split; [lia|]. split; [right; lia|].
    split; [|split].
    + intros j Hj. rewrite zget_exchange by assumption.
      destruct (Z.eqb_spec j c); [lia|]. destruct (Z.eqb_spec j on); [lia|].
      reflexivity.
    + intros j Hj. rewrite zget_exchange by assumption.
      destruct (Z.eqb_spec j c); [lia|]. destruct (Z.eqb_spec j on); [lia|].
      reflexivity.
    + intros k SWO -> Hk Hbut. destruct (Hext SWO) as [Hx Hm].
      apply (ordered_from_ext k n (swapf (val h) on c)).
      { intros j. by apply val_exchange. }
      eapply down_child; eauto. lia.
  - rewrite slice_swap_ok by assumption. rewrite res_bind_Ok. cbv zeta.
    assert (Hpar : mmheap.parent c = p).
    { apply parent_child; [assumption|]. unfold int.max_int in *. lia. }
    rewrite Hpar.
    assert (Hpr : on < p < c) by (destruct Hp, Hg; lia).
    assert (Hlen1 : slice_len (exchange h on c) = slice_len h)
      by apply exchange_len.
    assert (Hval1 : forall j, val (exchange h on c) j = swapf (val h) on c j).
    { intros j. by apply val_exchange. }
    assert (Hzget1 : forall j, j <> on -> j <> c ->
                               zget (exchange h on c) j = zget h j).
    { intros j Hj1 Hj2. rewrite zget_exchange by assumption.
      destruct (Z.eqb_spec j c); [lia|].
      destruct (Z.eqb_spec j on); [lia|]. reflexivity. }
    pose proof (exchange_perm h on c) as Hperm1.
    generalize dependent (exchange h on c). intros h1 Hlen1 Hval1 Hzget1 Hperm1.
    rewrite (slice_less_ok less dflt) by lia. rewrite res_bind_Ok.
    destruct (eqb lvl (less (val h1 p) (val h1 c))) eqn:Eb.
    + rewrite slice_swap_ok by lia. rewrite res_bind_Ok.
      assert (Hlen2 : slice_len (exchange h1 c p) = slice_len h)
        by (by rewrite exchange_len).
      assert (Hval2 : forall j, val (exchange h1 c p) j
                                = swapf (val h1) c p j).
      { intros j. apply val_exchange; lia. }
      assert (Hzget2 : forall j, j <> on -> j <> c -> j <> p ->
                                 zget (exchange h1 c p) j = zget h j).
      { intros j Hj1 Hj2 Hj3. rewrite zget_exchange by lia.
        destruct (Z.eqb_spec j p); [lia|].
        destruct (Z.eqb_spec j c); [lia|]. by apply Hzget1. }
      pose proof (exchange_perm h1 c p) as Hperm2.
      generalize dependent (exchange h1 c p).
      intros h2 Hlen2 Hval2 Hzget2 Hperm2.
      destruct (IH h2 n lvl c) as (h' & on' & Hrun & Hperm & Hlength & Hle
                                    & Hon'n & Hhigh & Hlow & Hinv);
        try lia.
      exists h', on'. split; [exact Hrun|].
      split; [by rewrite Hperm, Hperm2|].
      split; [rewrite Hlength; unfold slice_len in *; lia|].
      split; [lia|]. split; [right; lia|].
      split; [|split].
      * intros j Hj. rewrite Hhigh by assumption. apply Hzget2; lia.
      * intros j Hj. rewrite Hlow by lia. apply Hzget2; lia.
      * intros k SWO Hlvl Hk Hbut. destruct (Hext SWO) as [Hx Hm].
        apply Hinv; [assumption| |lia|].
        { rewrite Hlvl. symmetry. apply level_grandchild. by exists p. }
        subst lvl.
        eapply (down_grandchild less k n (val h) on p c); eauto; try lia.
        -- rewrite Hval2, swapf_other, Hval1, swapf_r by lia. reflexivity.
        -- right. rewrite !Hval2, swapf_r, swapf_l, !Hval1.
           rewrite swapf_l, swapf_other by lia. done.
        -- rewrite !Hval2, swapf_r, swapf_l. by apply chosen_extreme.
        -- intros j Hj1 Hj2 Hj3. by apply val_congr, Hzget2.
    + rewrite res_bind_Ok.
      destruct (IH h1 n lvl c) as (h' & on' & Hrun & Hperm & Hlength & Hle
                                    & Hon'n & Hhigh & Hlow & Hinv);
        try lia.
      exists h', on'. split; [exact Hrun|].
      split; [by rewrite Hperm|].
      split; [rewrite Hlength; unfold slice_len in *; lia|].
      split; [lia|]. split; [right; lia|].
      split; [|split].
      * intros j Hj. rewrite Hhigh by assumption. apply Hzget1; lia.
      * intros j Hj. rewrite Hlow by lia. apply Hzget1; lia.
      * intros k SWO Hlvl Hk Hbut. destruct (Hext SWO) as [Hx Hm].
        apply Hinv; [assumption| |lia|].
        { rewrite Hlvl. symmetry. apply level_grandchild. by exists p. }
        subst lvl.
        eapply (down_grandchild less k n (val h) on p c); eauto; try lia.
        -- rewrite Hval1, swapf_r. reflexivity.
        -- left. rewrite !Hval1, swapf_l, swapf_other by lia. done.
        -- by apply kept_extreme.
        -- intros j Hj1 Hj2 Hj3. apply val_congr, Hzget1; lia.
Qed.

End Down.

(** ** [up] on a slice *)

Lemma grandparent_eq i :
  2 < i < 2 ^ 63 ->
  is_child (mmheap.grandparent i) (mmheap.parent i) /\
  is_child (mmheap.parent i) i.
Proof.
  intros Hi. unfold mmheap.grandparent.
  pose proof (parent_eq i ltac:(lia)) as Ep.
  pose proof (parent_eq (mmheap.parent i) ltac:(lia)) as Eg.
  split; [apply child_parent; lia|apply child_parent; lia].
Qed.

Section Up.
Context {A : Type} (less : A -> A -> bool).
Context (dflt : A).
Local Abbreviation val := (val dflt).
Local Abbreviation I := (sliceHeap less).

Lemma ordered_above_ext n (v v' : Z -> A) on lvl :
  (forall j, v' j = v j) ->
  ordered_above less n v on lvl -> ordered_above less n v' on lvl.
Proof.
  intros E Hv a d Had Hn Hex. unfold holds. rewrite !E. by apply Hv.
Qed.

Lemma up_loop_S fuel (h : list A) lvl on :
  mmheap.up_loop (I := I) (S fuel) h lvl on =
  if mmheap.hasGrandparent on then
    b ← slice_less less h on (mmheap.grandparent on);
    if Bool.eqb lvl b then
      h ← slice_swap h on (mmheap.grandparent on);
      mmheap.up_loop (I := I) fuel h lvl (mmheap.grandparent on)
    else Ok h
  else Ok h.
Proof. reflexivity. Qed.

Lemma up_loop_spec fuel : forall (h : list A) lvl on,
  0 <= on < slice_len h -> slice_len h <= int.max_int ->
  on < Z.of_nat fuel ->
  exists h',
    mmheap.up_loop (I := I) fuel h lvl on = Ok h' /\
    h' ≡ₚ h /\ length h' = length h /\
    (forall j, on < j -> zget h' j = zget h j) /\
    (forall n, StrictWeakOrder less -> on < n -> lvl = Z.even (depth on) ->
       ordered_above less n (val h) on lvl ->
       ordered_from less 0 n (val h')).
Proof.
  induction fuel as [|fuel IH]; intros h lvl on Hon Hlen Hfuel; [lia|].
  rewrite up_loop_S. unfold mmheap.hasGrandparent.
  destruct (Z.gtb_spec on 2) as [Hgp|Hgp].
  2:{ exists h. split; [reflexivity|]. split; [reflexivity|].
      split; [reflexivity|]. split; [done|].
      intros n SWO Hn -> Habove. eapply ordered_above_root; eauto. lia. }
  destruct (grandparent_eq on) as [Hg Hp];
    [unfold int.max_int in *; lia|].
  set (gp := mmheap.grandparent on) in *.
  set (p := mmheap.parent on) in *. clearbody gp p.
  assert (Hlt : 0 <= gp < p /\ p < on) by (destruct Hg, Hp; lia).
  rewrite (slice_less_ok less dflt) by lia. rewrite res_bind_Ok.
  destruct (eqb lvl (less (val h on) (val h gp))) eqn:Eb.
  - rewrite slice_swap_ok by lia. rewrite res_bind_Ok.
    destruct (IH (exchange h on gp) lvl gp)
      as (h' & Hrun & Hperm & Hlength & Hhigh & Hinv).
    { rewrite exchange_len. lia. }
    { by rewrite exchange_len. }
    { lia. }
    exists h'. split; [exact Hrun|].
    split; [by rewrite Hperm, exchange_perm|].
    split; [by rewrite Hlength, exchange_length|].
    split.
    { intros j Hj. rewrite Hhigh by lia. rewrite zget_exchange by lia.
      destruct (Z.eqb_spec j gp); [lia|].
      destruct (Z.eqb_spec j on); [lia|]. reflexivity. }
    intros n SWO Hn -> Habove. apply Hinv; [assumption|lia| |].
    { apply level_grandchild. by exists p. }
    apply (ordered_above_ext n (swapf (val h) on gp)).
    { intros j. apply val_exchange; lia. }
    eapply (up_hop less n (val h) on p gp); eauto. by apply chosen_extreme.
  - exists h. split; [reflexivity|]. split; [reflexivity|].
    split; [reflexivity|]. split; [done|].
    intros n SWO Hn -> Habove.
    eapply (up_break less n (val h) on p gp); eauto. by apply kept_extreme.
Qed.

Lemma up_unfold fuel (h : list A) on :
  mmheap.up (I := I) fuel h on =
  '(h, on, onMinLevel) ←
    (if mmheap.hasParent on then
       b ← slice_less less h (mmheap.parent on) on;
       if Bool.eqb (mmheap.isMinLevel on) b then
         h ← slice_swap h on (mmheap.parent on);
         Ok (h, mmheap.parent on, negb (mmheap.isMinLevel on))
       else Ok (h, on, mmheap.isMinLevel on)
     else Ok (h, on, mmheap.isMinLevel on));
  mmheap.up_loop (I := I) fuel h onMinLevel on.
Proof. reflexivity. Qed.

Lemma ordered_except_root n (v : Z -> A) lvl :
  ordered_except less n v 0 -> ordered_above less n v 0 lvl.
Proof.
  intros Hexc a d Had Hn _. apply Hexc; auto.
  apply desc_lt in Had. lia.
Qed.

(** [up] returns and permutes the slice; called at an index of a heap
    that is ordered but for this index against its ancestors, it orders the
    heap. *)
Lemma up_spec fuel (h : list A) on :
  0 <= on < slice_len h -> slice_len h <= int.max_int ->
  on < Z.of_nat fuel ->
  exists h',
    mmheap.up (I := I) fuel h on = Ok h' /\
    h' ≡ₚ h /\ length h' = length h /\
    (forall j, on < j -> zget h' j = zget h j) /\
    (forall n, StrictWeakOrder less -> on < n ->
       ordered_except less n (val h) on ->
       ordered_from less 0 n (val h')).
Proof.
  intros Hon Hlen Hfuel. rewrite up_unfold.
  rewrite isMinLevel_depth by lia.
  unfold mmheap.hasParent. destruct (Z.gtb_spec on 0) as [Hp|Hp].
  2:{ rewrite res_bind_Ok.
      destruct (up_loop_spec fuel h (Z.even (depth on)) on)
        as (h' & Hrun & Hperm & Hlength & Hhigh & Hinv); try lia.
      exists h'. split; [exact Hrun|]. split; [exact Hperm|].
      split; [exact Hlength|]. split; [exact Hhigh|].
      intros n SWO Hn Hexc. apply Hinv; auto.
      assert (on = 0) as -> by lia. by apply ordered_except_root. }
  pose proof (child_parent on ltac:(unfold int.max_int in *; lia)) as Hc.
  set (p := mmheap.parent on) in *. clearbody p.
  assert (Hlt : 0 <= p < on) by (destruct Hc; lia).
  rewrite (slice_less_ok less dflt) by lia. rewrite res_bind_Ok.
  destruct (eqb (Z.even (depth on)) (less (val h p) (val h on))) eqn:Eb.
  - rewrite slice_swap_ok by lia. rewrite !res_bind_Ok.
    destruct (up_loop_spec fuel (exchange h on p)
                (negb (Z.even (depth on))) p)
      as (h' & Hrun & Hperm & Hlength & Hhigh & Hinv).
    { rewrite exchange_len. lia. }
    { by rewrite exchange_len. }
    { lia. }
    exists h'. split; [exact Hrun|].
    split; [by rewrite Hperm, exchange_perm|].
    split; [by rewrite Hlength, exchange_length|].
    split.
    { intros j Hj. rewrite Hhigh by lia. rewrite zget_exchange by lia.
      destruct (Z.eqb_spec j p); [lia|].
      destruct (Z.eqb_spec j on); [lia|]. reflexivity. }
    intros n SWO Hn Hexc. apply Hinv; [assumption|lia| |].
    { rewrite (level_child p on Hc). by rewrite negb_involutive. }
    apply (ordered_above_ext n (swapf (val h) on p)).
    { intros j. apply val_exchange; lia. }
    rewrite (level_child p on Hc), negb_involutive.
    eapply (up_parent_swap less n (val h) on p); eauto. by apply chosen_extreme.
  - rewrite res_bind_Ok.
    destruct (up_loop_spec fuel h (Z.even (depth on)) on)
      as (h' & Hrun & Hperm & Hlength & Hhigh & Hinv); try lia.
    exists h'. split; [exact Hrun|]. split; [exact Hperm|].
    split; [exact Hlength|]. split; [exact Hhigh|].
    intros n SWO Hn Hexc. apply Hinv; auto.
    eapply (up_parent_keep less n (val h) on p); eauto.
    by apply kept_extreme.
Qed.

End Up.

(** ** The package-level functions on a slice *)

Lemma desc_ge a d : descendant a d -> 2 * a + 1 <= d.
Proof. induction 1 as [d [? ?]|q d _ IH [? ?]]; lia. Qed.

Section Package.
Context {A : Type} (less : A -> A -> bool).
Context (dflt : A).
Local Abbreviation val := (val dflt).
Local Abbreviation I := (sliceHeap less).

Lemma heap_upto_val n (h : list A) :
  n <= slice_len h ->
  heap_upto less n h <-> ordered_from less 0 n (val h).
Proof.
  intros Hn. split.
  - intros Hh a d _ Had Hd. pose proof (desc_lt _ _ Had) as Hlt.
    apply (Hh a d); auto; apply zget_val; lia.
  - intros Hv a d x y Had Hd Hx Hy. pose proof (desc_lt _ _ Had) as Hlt.
    specialize (Hv a d ltac:(lia) Had Hd). unfold holds in Hv.
    by rewrite (val_get _ _ _ _ Hx), (val_get _ _ _ _ Hy) in Hv.
Qed.

Lemma down_unfold fuel (h : list A) i0 n :
  mmheap.down (I := I) fuel h i0 n =
  '(h, on) ← mmheap.down_loop (I := I) fuel h n (mmheap.isMinLevel i0) i0;
  Ok (h, on >? i0).
Proof. reflexivity. Qed.

Lemma down_spec fuel (h : list A) i0 n :
  0 <= i0 <= int.max_int -> 0 <= n <= slice_len h ->
  slice_len h <= int.max_int -> (length h < fuel)%nat ->
  exists h' moved,
    mmheap.down (I := I) fuel h i0 n = Ok (h', moved) /\
    h' ≡ₚ h /\ length h' = length h /\
    (forall j, n <= j -> zget h' j = zget h j) /\
    (forall j, j < i0 -> zget h' j = zget h j) /\
    (forall k, StrictWeakOrder less -> k <= i0 ->
               ordered_but less k n (val h) i0 ->
               ordered_from less k n (val h')).
Proof.
  intros Hi Hn Hlen Hfuel. rewrite down_unfold.
  destruct (down_loop_spec less dflt fuel h n (mmheap.isMinLevel i0) i0)
    as (h' & on' & Hrun & Hperm & Hlength & Hle & _ & Hhigh & Hlow & Hinv);
    try (unfold slice_len in *; lia).
  rewrite Hrun, res_bind_Ok. exists h', (on' >? i0).
  split; [reflexivity|]. split; [exact Hperm|]. split; [exact Hlength|].
  split; [exact Hhigh|]. split; [exact Hlow|].
  intros k SWO Hk. apply Hinv; [assumption| |exact Hk].
  by apply isMinLevel_depth.
Qed.

Lemma Init_loop_spec fuel k : forall (h : list A) n,
  n = slice_len h -> n <= int.max_int -> 2 * Z.of_nat k <= n ->
  (length h < fuel)%nat ->
  exists h',
    mmheap.Init_loop (I := I) fuel h n k = Ok h' /\
    h' ≡ₚ h /\ length h' = length h /\
    (StrictWeakOrder less -> ordered_from less (Z.of_nat k) n (val h) ->
     ordered_from less 0 n (val h')).
Proof.
  induction k as [|i IH]; intros h n En Hlen Hk Hfuel.
  { exists h. split; [reflexivity|]. split; [reflexivity|].
    split; [reflexivity|]. done. }
  cbn [mmheap.Init_loop].
  destruct (down_spec fuel h (Z.of_nat i) n)
    as (h1 & moved & Hrun & Hperm & Hlength & _ & _ & Hinv); try lia.
  rewrite Hrun, res_bind_Ok.
  destruct (IH h1 n) as (h' & Hrun' & Hperm' & Hlength' & Hinv');
    try (unfold slice_len in *; lia).
  exists h'. split; [exact Hrun'|]. split; [by rewrite Hperm'|].
  split; [lia|].
  intros SWO Hfrom.
  apply Hinv'; [assumption|]. apply (Hinv (Z.of_nat i)); [assumption|lia|].
  intros a d Ha Hne. apply Hfrom. lia.
Qed.

Lemma Init_spec fuel (h : list A) :
  slice_len h <= int.max_int -> (length h < fuel)%nat ->
  exists h',
    mmheap.Init (I := I) fuel h = Ok h' /\
    h' ≡ₚ h /\ length h' = length h /\
    (StrictWeakOrder less -> MinMaxHeap less h').
Proof.
  intros Hlen Hfuel. unfold mmheap.Init. cbn [heap.Len sliceHeap].
  assert (Hn : 0 <= slice_len h) by (unfold slice_len; lia).
  assert (Ek : int.sub (int.div (slice_len h) 2) 1 + 1 = slice_len h / 2).
  { unfold int.max_int in *. unfold int.div. rewrite (wrap_id (_ ÷ _)) by lia.
    rewrite sub_id; lia. }
  rewrite Ek.
  destruct (Init_loop_spec fuel (Z.to_nat (slice_len h / 2)) h (slice_len h))
    as (h' & Hrun & Hperm & Hlength & Hinv); try lia.
  exists h'. split; [exact Hrun|]. split; [exact Hperm|].
  split; [exact Hlength|]. intros SWO.
  unfold MinMaxHeap. apply heap_upto_val; [lia|].
  replace (slice_len h') with (slice_len h) by (unfold slice_len; lia).
  apply Hinv; [assumption|].
  intros a d Ha Had Hd. apply desc_ge in Had. lia.
Qed.

(** The root of a min-max heap is a minimum. *)
Lemma root_min `{!StrictWeakOrder less} (h : list A) v x :
  MinMaxHeap less h -> zget h 0 = Some v -> x ∈ h -> leq less v x.
Proof.
  intros Hh Hv [d Hd]%list_elem_of_lookup.
  destruct (Z.eq_dec (Z.of_nat d) 0) as [E|E].
  - assert (d = 0%nat) as -> by lia.
    assert (Hv' : h !! 0%nat = Some v) by exact Hv.
    assert (v = x) as -> by congruence. apply leq_refl; assumption.
  - assert (Hx : zget h (Z.of_nat d) = Some x).
    { unfold zget. destruct (Z.ltb_spec (Z.of_nat d) 0); [lia|].
      by rewrite Nat2Z.id. }
    apply (Hh 0 (Z.of_nat d) v x); auto.
    + apply desc_root. lia.
    + apply zget_range in Hx. lia.
Qed.

Lemma zget_take (h : list A) n j :
  0 <= n -> j < n -> zget (take (Z.to_nat n) h) j = zget h j.
Proof.
  intros Hn Hj. unfold zget. destruct (Z.ltb_spec j 0); [reflexivity|].
  apply lookup_take_lt. lia.
Qed.

Lemma heap_upto_take n (h : list A) :
  0 <= n <= slice_len h -> heap_upto less n h ->
  MinMaxHeap less (take (Z.to_nat n) h).
Proof.
  intros Hn Hh a d x y Had Hd.
  assert (Hlen : slice_len (take (Z.to_nat n) h) = n).
  { unfold slice_len in *. rewrite length_take. lia. }
  rewrite Hlen in Hd. pose proof (desc_lt _ _ Had) as Hlt.
  rewrite !zget_take by lia. by apply Hh.
Qed.

Lemma slice_pop_ok (h : list A) v :
  1 <= slice_len h <= int.max_int ->
  zget h (slice_len h - 1) = Some v ->
  slice_pop h = Ok (v, take (Z.to_nat (slice_len h - 1)) h) /\
  h = take (Z.to_nat (slice_len h - 1)) h ++ [v].
Proof.
  intros Hlen Hv. unfold slice_pop.
  rewrite sub_id by (unfold int.max_int in *; lia).
  rewrite slice_get_zget, Hv. split; [reflexivity|].
  unfold zget in Hv. destruct (Z.ltb_spec (slice_len h - 1) 0); [lia|].
  rewrite <- take_S_r by exact Hv.
  symmetry. apply take_ge. unfold slice_len in *. lia.
Qed.

Lemma Pop_unfold fuel (h : list A) :
  mmheap.Pop (I := I) fuel h =
  h1 ← slice_swap h 0 (int.sub (slice_len h) 1);
  '(h2, _) ← mmheap.down (I := I) fuel h1 0 (int.sub (slice_len h) 1);
  slice_pop h2.
Proof. reflexivity. Qed.

Lemma Pop_spec fuel (h : list A) :
  1 <= slice_len h <= int.max_int -> (length h < fuel)%nat ->
  let n := slice_len h - 1 in
  exists h2 moved v,
    slice_swap h 0 n = Ok (exchange h 0 n) /\
    mmheap.down (I := I) fuel (exchange h 0 n) 0 n = Ok (h2, moved) /\
    slice_pop h2 = Ok (v, take (Z.to_nat n) h2) /\
    h2 = take (Z.to_nat n) h2 ++ [v] /\
    mmheap.Pop (I := I) fuel h = Ok (v, take (Z.to_nat n) h2) /\
    zget h 0 = Some v /\
    h ≡ₚ v :: take (Z.to_nat n) h2 /\
    (StrictWeakOrder less -> MinMaxHeap less h ->
     MinMaxHeap less (take (Z.to_nat n) h2)).
Proof.
  intros Hlen Hfuel n. rewrite Pop_unfold.
  rewrite sub_id by (unfold int.max_int in *; lia). fold n.
  assert (Hn : 0 <= n < slice_len h) by (unfold n; lia).
  rewrite slice_swap_ok by lia. rewrite res_bind_Ok.
  destruct (down_spec fuel (exchange h 0 n) 0 n)
    as (h2 & moved & Hrun & Hperm & Hlength & Hhigh & _ & Hinv);
    try (rewrite ?exchange_len, ?exchange_length; unfold int.max_int in *; lia).
  rewrite Hrun, res_bind_Ok.
  assert (Hlen2 : slice_len h2 = slice_len h).
  { unfold slice_len. by rewrite Hlength, exchange_length. }
  assert (Hv : zget h2 n = zget h 0).
  { rewrite Hhigh by lia. rewrite zget_exchange by lia.
    by rewrite Z.eqb_refl. }
  destruct (zget_is_Some h 0 ltac:(lia)) as [v Hv0]. rewrite Hv0 in Hv.
  destruct (slice_pop_ok h2 v) as [Hpop Hsplit];
    [lia|by rewrite Hlen2|].
  rewrite Hlen2 in Hpop, Hsplit. fold n in Hpop, Hsplit.
  exists h2, moved, v. split; [reflexivity|]. split; [reflexivity|].
  split; [exact Hpop|]. split; [exact Hsplit|]. split; [exact Hpop|].
  split; [exact Hv0|].
  split.
  { rewrite <- (exchange_perm h 0 n), <- Hperm. rewrite Hsplit at 1.
    by rewrite Permutation_app_comm. }
  intros SWO Hh. apply heap_upto_take; [lia|].
  apply heap_upto_val; [lia|]. apply (Hinv 0); [assumption|lia|].
  intros a d _ Hne Had Hd. pose proof (desc_lt _ _ Had) as Hlt.
  unfold holds. rewrite !val_exchange by lia.
  rewrite !swapf_other by lia.
  apply (proj1 (heap_upto_val (slice_len h) h ltac:(lia)) Hh); auto; lia.
Qed.

Lemma zget_app_l (h : list A) x j :
  j < slice_len h -> zget (h ++ [x]) j = zget h j.
Proof.
  intros Hj. unfold zget. destruct (Z.ltb_spec j 0); [reflexivity|].
  apply lookup_app_l. unfold slice_len in Hj. lia.
Qed.

Lemma Push_unfold fuel (h : list A) x :
  mmheap.Push (I := I) fuel h x =
  mmheap.up (I := I) fuel (h ++ [x]) (int.sub (slice_len (h ++ [x])) 1).
Proof. reflexivity. Qed.

End Package.

Section Package2.
Context {A : Type} (less : A -> A -> bool).
Local Abbreviation I := (sliceHeap less).

Lemma slice_len_app (h : list A) x : slice_len (h ++ [x]) = slice_len h + 1.
Proof. unfold slice_len. rewrite length_app. simpl. lia. Qed.

Lemma Push_spec fuel (h : list A) x :
  slice_len h < int.max_int -> (length h < fuel)%nat ->
  exists h',
    mmheap.Push (I := I) fuel h x = Ok h' /\
    h' ≡ₚ x :: h /\
    (StrictWeakOrder less -> MinMaxHeap less h -> MinMaxHeap less h').
Proof.
  intros Hlen Hfuel. rewrite Push_unfold, slice_len_app.
  assert (H0 : 0 <= slice_len h) by (unfold slice_len; lia).
  rewrite sub_id by (unfold int.max_int in *; lia).
  replace (slice_len h + 1 - 1) with (slice_len h) by lia.
  destruct (up_spec less x fuel (h ++ [x]) (slice_len h))
    as (h' & Hrun & Hperm & Hlength & _ & Hinv);
    try (rewrite ?slice_len_app; unfold slice_len in *; lia).
  exists h'. split; [exact Hrun|].
  split; [by rewrite Hperm, Permutation_app_comm|].
  intros SWO Hh. unfold MinMaxHeap.
  assert (Hlen' : slice_len h' = slice_len h + 1).
  { rewrite <- slice_len_app with (x := x). unfold slice_len. lia. }
  apply (heap_upto_val less x); [lia|]. rewrite Hlen'.
  apply Hinv; [assumption|lia|].
  intros a d Had Hd Hne. pose proof (desc_lt _ _ Had) as Hlt.
  unfold holds. rewrite !(val_congr x h (h ++ [x])) by (apply zget_app_l; lia).
  apply (proj1 (heap_upto_val less x (slice_len h) h ltac:(lia)) Hh);
    auto; lia.
Qed.

Lemma Fix_unfold fuel (h : list A) i :
  mmheap.Fix (I := I) fuel h i =
  '(h, moved) ← mmheap.down (I := I) fuel h i (slice_len h);
  if negb moved then mmheap.up (I := I) fuel h i else Ok h.
Proof. reflexivity. Qed.

Lemma Fix_spec fuel (h : list A) i :
  0 <= i < slice_len h -> slice_len h <= int.max_int ->
  (length h < fuel)%nat ->
  exists h',
    mmheap.Fix (I := I) fuel h i = Ok h' /\
    h' ≡ₚ h /\ length h' = length h.
Proof.
  intros Hi Hlen Hfuel. rewrite Fix_unfold.
  destruct (zget_is_Some h i Hi) as [dflt _].
  destruct (down_spec less dflt fuel h i (slice_len h))
    as (h1 & moved & Hrun & Hperm & Hlength & _); try lia.
  rewrite Hrun, res_bind_Ok. destruct moved; cbn [negb].
  { exists h1. done. }
  destruct (up_spec less dflt fuel h1 i)
    as (h' & Hrun' & Hperm' & Hlength' & _);
    try (unfold slice_len in *; lia).
  exists h'. split; [exact Hrun'|]. split; [by rewrite Hperm'|]. lia.
Qed.

Lemma drain_S fuel k (h : list A) :
  drain less fuel (S k) h =
  '(v, h) ← mmheap.Pop (I := I) fuel h;
  '(vs, h) ← drain less fuel k h;
  Ok (v :: vs, h).
Proof. reflexivity. Qed.

Lemma drain_spec `{!StrictWeakOrder less} fuel k : forall (h : list A),
  length h = k -> slice_len h <= int.max_int -> (length h < fuel)%nat ->
  MinMaxHeap less h ->
  exists out,
    drain less fuel k h = Ok (out, []) /\
    out ≡ₚ h /\ StronglySorted (leq less) out.
Proof.
  induction k as [|k IH]; intros h Hk Hlen Hfuel Hh.
  { destruct h; [|discriminate]. exists []. split; [reflexivity|].
    split; [reflexivity|constructor]. }
  assert (Hd : exists dflt : A, True).
  { destruct h; [discriminate|]. eauto. }
  destruct Hd as [dflt _].
  destruct (Pop_spec less dflt fuel h)
    as (h2 & moved & v & _ & _ & _ & _ & Hpop & Hv & Hperm & Hheap);
    try (unfold slice_len in *; lia).
  set (h' := take (Z.to_nat (slice_len h - 1)) h2) in *. clearbody h'.
  assert (Hk' : length h' = k).
  { apply Permutation_length in Hperm. simpl in Hperm. lia. }
  assert (Hlen' : slice_len h' <= int.max_int)
    by (unfold slice_len in *; lia).
  assert (Hfuel' : (length h' < fuel)%nat) by lia.
  destruct (IH h' Hk' Hlen' Hfuel' (Hheap _ Hh))
    as (out & Hrun & Hperm' & Hsorted).
  rewrite drain_S, Hpop, res_bind_Ok. cbn beta iota.
  rewrite Hrun, res_bind_Ok. cbn beta iota.
  exists (v :: out). split; [reflexivity|].
  split; [by rewrite Hperm, Hperm'|].
  constructor; [assumption|].
  apply Forall_forall. intros x Hx.
  apply (root_min less h v x); [assumption|assumption|].
  rewrite Hperm. apply list_elem_of_further.
  rewrite <- Hperm'. exact Hx.
Qed.

End Package2.

Section RemoveFacts.
Context {A : Type} (less : A -> A -> bool).
Local Abbreviation I := (sliceHeap less).

Lemma Remove_unfold fuel (h : list A) i :
  mmheap.Remove (I := I) fuel h i =
  h3 ← (if negb (int.sub (slice_len h) 1 =? i) then
          h1 ← slice_swap h i (int.sub (slice_len h) 1);
          '(h2, moved) ← mmheap.down (I := I) fuel h1 i
                           (int.sub (slice_len h) 1);
          if negb moved then mmheap.up (I := I) fuel h2 i else Ok h2
        else Ok h);
  slice_pop h3.
Proof. reflexivity. Qed.

(** [Remove] at an index of a slice returns the element that was there
    and leaves the other elements, in some order. *)
Lemma Remove_spec fuel (h : list A) i :
  0 <= i < slice_len h -> slice_len h <= int.max_int ->
  (length h < fuel)%nat ->
  exists v h',
    mmheap.Remove (I := I) fuel h i = Ok (v, h') /\
    zget h i = Some v /\ h ≡ₚ v :: h' /\
    slice_len h' = slice_len h - 1.
Proof.
  intros Hi Hlen Hfuel. rewrite Remove_unfold.
  rewrite sub_id by (unfold int.max_int in *; lia).
  set (n := slice_len h - 1).
  destruct (zget_is_Some h i Hi) as [v Hv].
  assert (Hpop : forall h3 : list A,
            h3 ≡ₚ h -> zget h3 n = Some v ->
            exists h', slice_pop h3 = Ok (v, h') /\ h ≡ₚ v :: h' /\
                       slice_len h' = slice_len h - 1).
  { intros h3 Hperm Hlast.
    assert (Hlen3 : slice_len h3 = slice_len h).
    { unfold slice_len. by rewrite (Permutation_length Hperm). }
    destruct (slice_pop_ok h3 v) as [Hp Hsplit];
      [lia|by rewrite Hlen3|].
    rewrite Hlen3 in Hp, Hsplit. fold n in Hp, Hsplit.
    eexists. split; [exact Hp|]. split.
    - rewrite <- Hperm. rewrite Hsplit at 1. by rewrite Permutation_app_comm.
    - unfold slice_len in *. rewrite length_take. lia. }
  destruct (Z.eqb_spec n i) as [E|E]; cbn [negb].
  { rewrite res_bind_Ok. destruct (Hpop h) as (h' & Hp & Hperm & Hl);
      [reflexivity|by rewrite E|]. by exists v, h'. }
  rewrite slice_swap_ok by (unfold n; lia). rewrite res_bind_Ok.
  destruct (down_spec less v fuel (exchange h i n) i n)
    as (h2 & moved & Hrun & Hperm & Hlength & Hhigh & _);
    try (rewrite ?exchange_len, ?exchange_length;
         unfold n, int.max_int in *; lia).
  rewrite Hrun, res_bind_Ok. cbn beta iota.
  assert (Hlast : zget h2 n = Some v).
  { rewrite Hhigh by lia. rewrite zget_exchange by (unfold n; lia).
    by rewrite Z.eqb_refl. }
  assert (Hlen2 : slice_len h2 = slice_len h).
  { unfold slice_len. by rewrite Hlength, exchange_length. }
  destruct moved; cbn [negb].
  { rewrite res_bind_Ok.
    destruct (Hpop h2) as (h' & Hp & Hperm' & Hl);
      [by rewrite Hperm, exchange_perm|assumption|]. by exists v, h'. }
  destruct (up_spec less v fuel h2 i)
    as (h3 & Hrun' & Hperm' & _ & Hhigh' & _);
    try (unfold slice_len in *; lia).
  rewrite Hrun', res_bind_Ok.
  destruct (Hpop h3) as (h' & Hp & Hperm'' & Hl).
  - by rewrite Hperm', Hperm, exchange_perm.
  - rewrite Hhigh' by (unfold n; lia). exact Hlast.
  - by exists v, h'.
Qed.

End RemoveFacts.

(** ** Deciding the heap property *)

Lemma ancestors_complete fuel : forall a d,
  descendant a d -> d <= Z.of_nat fuel -> In a (ancestors fuel d).
Proof.
  induction fuel as [|fuel IH]; intros a d Had Hd.
  { apply desc_lt in Had. lia. }
  pose proof (desc_lt _ _ Had) as Hlt. cbn [ancestors].
  destruct (Z.leb_spec d 0); [lia|].
  assert (Hc : is_child ((d - 1) / 2) d) by (unfold is_child; lia).
  destruct (desc_parent _ _ _ Had Hc) as [->|Hp]; [by left|].
  right. apply IH; [assumption|]. lia.
Qed.

Lemma heap_check_sound {A : Type} (less : A -> A -> bool) (h : list A) :
  heap_check less h = true -> MinMaxHeap less h.
Proof.
  unfold heap_check. rewrite forallb_forall. intros Hall a d x y Had Hd Hx Hy.
  pose proof (desc_lt _ _ Had) as Hlt.
  specialize (Hall (Z.to_nat d)).
  rewrite Z2Nat.id in Hall by lia.
  assert (Hin : In (Z.to_nat d) (seq 0 (length h))).
  { apply in_seq. unfold slice_len in Hd. lia. }
  specialize (Hall Hin). rewrite forallb_forall in Hall.
  specialize (Hall a (ancestors_complete (Z.to_nat d) a d Had ltac:(lia))).
  unfold ok_pair in Hall. rewrite Hx, Hy in Hall.
  unfold extreme, leq. destruct (Z.even (depth a));
    by apply negb_true_iff in Hall.
Qed.

(** ** The invariant through [Init], [Push] and [Pop] *)

Section Invariant.
Context {A : Type} (less : A -> A -> bool) `{!StrictWeakOrder less}.
Local Abbreviation I := (sliceHeap less).

Lemma Init_nil fuel : mmheap.Init (I := I) fuel [] = Ok [].
Proof. reflexivity. Qed.

Lemma MinMaxHeap_nil : MinMaxHeap less [].
Proof.
  intros a d x y _ _ Hx. unfold zget in Hx. by destruct (a <? 0).
Qed.

(** [Init] makes a min-max heap of any slice. *)
Lemma Init_heap (h : list A) fuel :
  slice_len h <= int.max_int -> (length h < fuel)%nat ->
  exists h', mmheap.Init (I := I) fuel h = Ok h' /\
             h' ≡ₚ h /\ MinMaxHeap less h'.
Proof.
  intros Hlen Hfuel. destruct h as [|d0 h0] eqn:E.
  { exists []. split; [apply Init_nil|]. split; [reflexivity|].
    apply MinMaxHeap_nil. }
  rewrite <- E in *. clear E.
  destruct (Init_spec less d0 fuel h Hlen Hfuel)
    as (h' & Hrun & Hperm & _ & Hheap).
  exists h'. split; [exact Hrun|]. split; [exact Hperm|]. by apply Hheap.
Qed.

(** [Push] keeps a min-max heap one. *)
Lemma Push_heap (h : list A) x fuel :
  MinMaxHeap less h -> slice_len h < int.max_int -> (length h < fuel)%nat ->
  exists h', mmheap.Push (I := I) fuel h x = Ok h' /\
             h' ≡ₚ x :: h /\ MinMaxHeap less h'.
Proof.
  intros Hh Hlen Hfuel.
  destruct (Push_spec less fuel h x Hlen Hfuel) as (h' & Hrun & Hperm & Hheap).
  exists h'. split; [exact Hrun|]. split; [exact Hperm|]. by apply Hheap.
Qed.

(** [Pop] keeps a min-max heap one, and takes its root out. *)
Lemma Pop_heap (h : list A) fuel :
  MinMaxHeap less h -> 1 <= slice_len h <= int.max_int ->
  (length h < fuel)%nat ->
  exists v h', mmheap.Pop (I := I) fuel h = Ok (v, h') /\
               zget h 0 = Some v /\ h ≡ₚ v :: h' /\ MinMaxHeap less h'.
Proof.
  intros Hh Hlen Hfuel.
  destruct (zget_is_Some h 0 ltac:(lia)) as [d0 _].
  destruct (Pop_spec less d0 fuel h Hlen Hfuel)
    as (h2 & moved & v & _ & _ & _ & _ & Hrun & Hv & Hperm & Hheap).
  eexists v, _. split; [exact Hrun|]. split; [exact Hv|].
  split; [exact Hperm|]. by apply Hheap.
Qed.

End Invariant.

(** ** The claims *)

Section Claims.
Context {A : Type} (less : A -> A -> bool).
Local Abbreviation I := (sliceHeap less).

(** C2. Heap sort: [Init] on any slice, then as many calls to [Pop] as it
    has elements, return; the values popped are in non-decreasing order
    and are a permutation of the slice, which [Pop] has emptied. *)
Theorem Pop_yields_sorted `{!StrictWeakOrder less} (l : list A) (fuel : nat) :
  slice_len l <= int.max_int -> (length l < fuel)%nat ->
  exists h out,
    mmheap.Init (I := I) fuel l = Ok h /\
    drain less fuel (length l) h = Ok (out, []) /\
    Sorted (leq less) out /\ out ≡ₚ l.
Proof.
  intros Hlen Hfuel.
  destruct (Init_heap less l fuel Hlen Hfuel) as (h & Hinit & Hperm & Hheap).
  assert (Hlength : length h = length l) by (by apply Permutation_length).
  destruct (drain_spec less fuel (length l) h)
    as (out & Hrun & Hperm' & Hsorted);
    try (unfold slice_len in *; lia); [assumption|].
  exists h, out. split; [exact Hinit|]. split; [exact Hrun|].
  split; [by apply StronglySorted_Sorted|]. by rewrite Hperm'.
Qed.

(** C3. [Pop] on a min-max heap of [n >= 1] elements swaps index 0 with
    index [n - 1], sifts index 0 down over the first [n - 1] elements and
    takes the last element off; what it returns is the old root, it is
    below every element held before the call, and [n - 1] elements stay. *)
Theorem Pop_returns_minimum `{!StrictWeakOrder less} (h : list A)
    (fuel : nat) :
  MinMaxHeap less h -> 1 <= slice_len h <= int.max_int ->
  (length h < fuel)%nat ->
  let n := slice_len h in
  exists h1 h2 moved v h',
    heap.Swap (Interface := I) h 0 (n - 1) = Ok h1 /\
    mmheap.down (I := I) fuel h1 0 (n - 1) = Ok (h2, moved) /\
    heap.Pop (Interface := I) h2 = Ok (v, h') /\ h2 = h' ++ [v] /\
    mmheap.Pop (I := I) fuel h = Ok (v, h') /\
    zget h 0 = Some v /\ (forall x, x ∈ h -> leq less v x) /\
    slice_len h' = n - 1.
Proof.
  intros Hh Hlen Hfuel n.
  destruct (zget_is_Some h 0 ltac:(lia)) as [d0 _].
  destruct (Pop_spec less d0 fuel h Hlen Hfuel)
    as (h2 & moved & v & Hswap & Hdown & Hpop & Hsplit & Hrun & Hv & Hperm
        & _).
  fold n in Hswap, Hdown, Hpop, Hsplit, Hrun, Hperm.
  exists (exchange h 0 (n - 1)), h2, moved, v, (take (Z.to_nat (n - 1)) h2).
  split; [exact Hswap|]. split; [exact Hdown|]. split; [exact Hpop|].
  split; [exact Hsplit|]. split; [exact Hrun|]. split; [exact Hv|].
  split; [intros x Hx; by apply (root_min less h v x)|].
  apply Permutation_length in Hperm. cbn [length] in Hperm.
  subst n. unfold slice_len in *. lia.
Qed.

(** C4. [Max] on a min-max heap of [n >= 1] elements returns 0 when
    [n = 1], 1 when [n = 2], and otherwise 2 when [Less(1, 2)] and else 1;
    the element at the index returned is above every element held. *)
Theorem Max_is_maximum `{!StrictWeakOrder less} (h : list A) :
  MinMaxHeap less h -> 1 <= slice_len h ->
  exists i m,
    mmheap.Max (I := I) h = Ok i /\
    (slice_len h = 1 -> i = 0) /\
    (slice_len h = 2 -> i = 1) /\
    (3 <= slice_len h ->
     exists b, heap.Less (Interface := I) h 1 2 = Ok b /\
               i = if b then 2 else 1) /\
    zget h i = Some m /\ forall x, x ∈ h -> leq less x m.
Proof.
  intros Hh Hlen. unfold mmheap.Max. cbn [heap.Len heap.Less sliceHeap].
  assert (Hall : forall i m, 0 <= i <= 2 -> zget h i = Some m ->
            (forall c y, 1 <= c <= 2 -> zget h c = Some y -> leq less y m) ->
            forall x, x ∈ h -> leq less x m).
  { intros i m Hi Hm Htop x [d Hd]%list_elem_of_lookup.
    assert (Hx : zget h (Z.of_nat d) = Some x).
    { unfold zget. destruct (Z.ltb_spec (Z.of_nat d) 0); [lia|].
      by rewrite Nat2Z.id. }
    pose proof (zget_range _ _ _ Hx) as Hdr.
    destruct (Z.eq_dec (Z.of_nat d) 0) as [E0|E0].
    { rewrite E0 in Hx. destruct (Z.eq_dec i 0) as [->|Hi0].
      - assert (x = m) as -> by congruence. by apply leq_refl.
      - apply (Hh 0 i x m); auto; [apply desc_root|apply zget_range in Hm];
          lia. }
    destruct (desc_top 0 (Z.of_nat d) ltac:(apply desc_root; lia))
      as [[_ Hc]|[c [[_ Hc] Hcd]]].
    - apply (Htop (Z.of_nat d)); [lia|assumption].
    - destruct (zget_is_Some h c) as [y Hy].
      { apply desc_lt in Hcd. lia. }
      eapply leq_trans; [assumption| |apply (Htop c y); [lia|assumption]].
      assert (Hlvl : Z.even (depth c) = false).
      { destruct Hc as [-> | ->]; reflexivity. }
      specialize (Hh c (Z.of_nat d) y x Hcd ltac:(lia) Hy Hx).
      by rewrite Hlvl in Hh. }
  destruct (Z.eqb_spec (slice_len h) 1) as [E1|E1].
  { destruct (zget_is_Some h 0 ltac:(lia)) as [m Hm].
    exists 0, m. split; [reflexivity|]. split; [done|]. split; [lia|].
    split; [lia|]. split; [exact Hm|].
    apply (Hall 0 m); [lia|assumption|].
    intros c y Hc Hy. apply zget_range in Hy. lia. }
  destruct (Z.eqb_spec (slice_len h) 2) as [E2|E2].
  { destruct (zget_is_Some h 1 ltac:(lia)) as [m Hm].
    exists 1, m. split; [reflexivity|]. split; [lia|]. split; [done|].
    split; [lia|]. split; [exact Hm|].
    apply (Hall 1 m); [lia|assumption|].
    intros c y Hc Hy. pose proof (zget_range _ _ _ Hy).
    assert (c = 1) as -> by lia.
    assert (y = m) as -> by congruence. by apply leq_refl. }
  destruct (zget_is_Some h 1 ltac:(lia)) as [m1 Hm1].
  destruct (zget_is_Some h 2 ltac:(lia)) as [m2 Hm2].
  unfold slice_less. rewrite !slice_get_zget, Hm1, Hm2, !res_bind_Ok.
  destruct (less m1 m2) eqn:E.
  - exists 2, m2. split; [reflexivity|]. split; [lia|]. split; [lia|].
    split; [by exists true|]. split; [exact Hm2|].
    apply (Hall 2 m2); [lia|assumption|].
    intros c y Hc Hy. destruct (Z.eq_dec c 1) as [->|Hc1].
    + assert (y = m1) as -> by congruence. by apply less_leq.
    + assert (c = 2) as -> by lia.
      assert (y = m2) as -> by congruence. by apply leq_refl.
  - exists 1, m1. split; [reflexivity|]. split; [lia|]. split; [lia|].
    split; [by exists false|]. split; [exact Hm1|].
    apply (Hall 1 m1); [lia|assumption|].
    intros c y Hc Hy. destruct (Z.eq_dec c 1) as [->|Hc1].
    + assert (y = m1) as -> by congruence. by apply leq_refl.
    + assert (c = 2) as -> by lia.
      assert (y = m2) as -> by congruence. exact E.
Qed.

End Claims.

(** ** The logged slice against the slice *)

Lemma agree_bind {X Y X' Y' : Type} (R : X -> Y -> Prop)
    (S : X' -> Y' -> Prop) (m1 : res X) (m2 : res Y)
    (f : X -> res X') (g : Y -> res Y') :
  agree R m1 m2 -> (forall x y, R x y -> agree S (f x) (g y)) ->
  agree S (m1 ≫= f) (m2 ≫= g).
Proof.
  intros Hm Hf. destruct m1, m2; try done. by apply Hf.
Qed.

Lemma agree_eq {X : Type} (r : res X) : agree eq r r.
Proof. by destruct r. Qed.

Section Simulation.
Context {A : Type} (less : A -> A -> bool).
Context (h0 : list A) (log0 : list (Z * Z)).
Local Abbreviation L := (loggedHeap less).
Local Abbreviation S := (sliceHeap less).
Local Abbreviation R := (reached h0 log0).

Lemma reached_start : R (Logged h0 log0) h0.
Proof. split; [reflexivity|]. exists []. by rewrite app_nil_r. Qed.

Lemma replay_snoc (h : list A) sw i j :
  replay h (sw ++ [(i, j)]) = exchange (replay h sw) i j.
Proof. unfold replay. by rewrite foldl_app. Qed.

Lemma replay_perm (h : list A) sw : replay h sw ≡ₚ h.
Proof.
  induction sw as [|[i j] sw IH] using rev_ind; [reflexivity|].
  by rewrite replay_snoc, exchange_perm.
Qed.

Lemma replay_length (h : list A) sw : length (replay h sw) = length h.
Proof. apply Permutation_length, replay_perm. Qed.

Lemma slice_swap_exchange (h : list A) i j h' :
  slice_swap h i j = Ok h' -> h' = exchange h i j.
Proof.
  unfold slice_swap, exchange. rewrite !slice_get_zget.
  destruct (zget h i); [|discriminate].
  destruct (zget h j); [|discriminate]. cbn. congruence.
Qed.

Lemma Len_sim H h : R H h -> heap.Len (Interface := L) H = slice_len h.
Proof. by intros [<- _]. Qed.

Lemma Less_sim H h i j :
  R H h -> heap.Less (Interface := L) H i j = slice_less less h i j.
Proof. by intros [<- _]. Qed.

Lemma Swap_sim H h i j :
  R H h -> agree R (heap.Swap (Interface := L) H i j) (slice_swap h i j).
Proof.
  intros [<- (sw & Hlog & Hh)]. cbn [heap.Swap loggedHeap].
  destruct (slice_swap (elems H) i j) as [h'| |] eqn:E; cbn; try done.
  split; [reflexivity|]. exists (sw ++ [(i, j)]). cbn [swaps].
  rewrite Hlog, app_assoc. split; [reflexivity|].
  rewrite replay_snoc, <- Hh. by apply slice_swap_exchange.
Qed.

Lemma select_sim H h n lvl cs best :
  R H h ->
  mmheap.select (I := L) H n lvl cs best
  = mmheap.select (I := S) h n lvl cs best.
Proof.
  intros HR. revert best. induction cs as [|c cs IH]; intros best;
    [reflexivity|].
  cbn [mmheap.select]. rewrite (Less_sim H h) by assumption.
  cbn [heap.Less sliceHeap].
  destruct (_ || _); [reflexivity|].
  destruct (slice_less less h _ _) as [b| |]; cbn; try reflexivity.
  destruct (eqb lvl b); apply IH.
Qed.

Lemma up_loop_sim fuel : forall H h lvl on,
  R H h ->
  agree R (mmheap.up_loop (I := L) fuel H lvl on)
          (mmheap.up_loop (I := S) fuel h lvl on).
Proof.
  induction fuel as [|fuel IH]; intros H h lvl on HR; [done|].
  cbn [mmheap.up_loop]. destruct (mmheap.hasGrandparent on); [|done].
  rewrite (Less_sim H h) by assumption. cbn [heap.Less heap.Swap sliceHeap].
  apply (agree_bind eq); [apply agree_eq|]. intros b ? <-.
  destruct (eqb lvl b); [|done].
  apply (agree_bind R); [by apply Swap_sim|].
  intros H' h' HR'. by apply IH.
Qed.

Lemma up_sim fuel H h on :
  R H h ->
  agree R (mmheap.up (I := L) fuel H on) (mmheap.up (I := S) fuel h on).
Proof.
  intros HR. unfold mmheap.up.
  apply (agree_bind (fun x y => R x.1.1 y.1.1 /\ x.1.2 = y.1.2
                                /\ x.2 = y.2)).
  - destruct (mmheap.hasParent on); [|done].
    rewrite (Less_sim H h) by assumption. cbn [heap.Less heap.Swap sliceHeap].
    apply (agree_bind eq); [apply agree_eq|]. intros b ? <-.
    destruct (eqb _ b); [|done].
    apply (agree_bind R); [by apply Swap_sim|]. by intros H' h' HR'.
  - intros [[H' on1] l1] [[h' on2] l2] (HR' & E1 & E2). cbn in *. subst.
    by apply up_loop_sim.
Qed.

Lemma down_loop_sim fuel : forall H h n lvl on,
  R H h ->
  agree (fun x y => R x.1 y.1 /\ x.2 = y.2)
    (mmheap.down_loop (I := L) fuel H n lvl on)
    (mmheap.down_loop (I := S) fuel h n lvl on).
Proof.
  induction fuel as [|fuel IH]; intros H h n lvl on HR; [done|].
  cbn [mmheap.down_loop]. rewrite (select_sim H h) by assumption.
  apply (agree_bind eq); [apply agree_eq|]. intros s ? <-.
  destruct (mmheap.rel s).
  - done.
  - apply (agree_bind R); [by apply Swap_sim|]. by intros H' h' HR'.
  - apply (agree_bind R); [by apply Swap_sim|]. intros H1 h1 HR1.
    cbv zeta. rewrite (Less_sim H1 h1) by assumption.
    cbn [heap.Less heap.Swap sliceHeap].
    apply (agree_bind eq); [apply agree_eq|]. intros b ? <-.
    apply (agree_bind R).
    + destruct (eqb lvl b); [by apply Swap_sim|done].
    + intros H2 h2 HR2. by apply IH.
Qed.

Lemma down_sim fuel H h i0 n :
  R H h ->
  agree (fun x y => R x.1 y.1 /\ x.2 = y.2)
    (mmheap.down (I := L) fuel H i0 n) (mmheap.down (I := S) fuel h i0 n).
Proof.
  intros HR. unfold mmheap.down.
  apply (agree_bind (fun x y => R x.1 y.1 /\ x.2 = y.2));
    [by apply down_loop_sim|].
  intros [H' on1] [h' on2] [HR' E]. cbn in *. by subst.
Qed.

Lemma Init_loop_sim fuel n k : forall H h,
  R H h ->
  agree R (mmheap.Init_loop (I := L) fuel H n k)
          (mmheap.Init_loop (I := S) fuel h n k).
Proof.
  induction k as [|k IH]; intros H h HR; [done|].
  cbn [mmheap.Init_loop].
  apply (agree_bind (fun x y => R x.1 y.1 /\ x.2 = y.2));
    [by apply down_sim|].
  intros [H' b1] [h' b2] [HR' _]. by apply IH.
Qed.

Lemma Init_sim fuel H h :
  R H h ->
  agree R (mmheap.Init (I := L) fuel H) (mmheap.Init (I := S) fuel h).
Proof.
  intros HR. unfold mmheap.Init. rewrite (Len_sim H h) by assumption.
  by apply Init_loop_sim.
Qed.

Lemma Fix_sim fuel H h i :
  R H h ->
  agree R (mmheap.Fix (I := L) fuel H i) (mmheap.Fix (I := S) fuel h i).
Proof.
  intros HR. unfold mmheap.Fix. rewrite (Len_sim H h) by assumption.
  apply (agree_bind (fun x y => R x.1 y.1 /\ x.2 = y.2));
    [by apply down_sim|].
  intros [H' b1] [h' b2] [HR' E]. cbn in *. subst.
  destruct (negb b2); [by apply up_sim|done].
Qed.

End Simulation.

(** C5. For every index [i] of a slice, [isMinLevel i] is true exactly when
    [depth i], the integer part of the binary logarithm of [i + 1], is
    even; the root is on a min level. *)
Theorem isMinLevel_even_depth (i : Z) :
  0 <= i <= int.max_int ->
  (mmheap.isMinLevel i = true <-> Z.even (depth i) = true) /\
  2 ^ depth i <= i + 1 < 2 ^ (depth i + 1) /\
  mmheap.isMinLevel 0 = true.
Proof.
  intros Hi. split; [by rewrite isMinLevel_depth|].
  split; [|reflexivity].
  unfold depth. pose proof (Z.log2_spec (i + 1) ltac:(lia)) as H.
  by rewrite <- Z.add_1_r in H.
Qed.

Lemma valid_family_in_range on n m :
  0 <= on -> n <= m -> Forall (in_range m) (valid_family on n).
Proof.
  intros Hon Hn. apply Forall_forall. intros c Hc.
  apply valid_family_elem in Hc as [Hc _]; [|lia]. unfold in_range. lia.
Qed.

Lemma valid_family_self on n m :
  0 <= on -> n <= m -> valid_family on n <> [] ->
  in_range m (mmheap.Progeny on mmheap.self).
Proof.
  intros Hon Hn Hne. destruct (valid_family on n) as [|c cs] eqn:E; [done|].
  assert (Hc : c ∈ valid_family on n) by (rewrite E; by left).
  apply valid_family_elem in Hc as [Hc Hrel]; [|lia].
  unfold in_range. cbn.
  assert (on < mmheap.index c); [|lia].
  destruct Hrel as [[_ [? ?]]|[_ [p [[? ?] [? ?]]]]]; lia.
Qed.

Lemma valid_family_none on n : 0 <= on -> n <= 0 -> valid_family on n = [].
Proof.
  intros Hon Hn. destruct (valid_family on n) as [|c cs] eqn:E; [done|].
  assert (Hc : c ∈ valid_family on n) by (rewrite E; by left).
  apply valid_family_elem in Hc as [Hc _]; lia.
Qed.

Section Claims2.
Context {A : Type} (less : A -> A -> bool).
Local Abbreviation I := (sliceHeap less).

(** C8. One pass of the range loop of [down] at [on], over the first [n]
    elements: the candidates it looks at are the children and grandchildren
    of [on] that lie in [0, n), every one of them and no other; the progeny
    it ends on is [on] or one of these, and is extreme among them for the
    level: smallest on a min level, largest on a max level. *)
Theorem down_selects_extreme `{!StrictWeakOrder less} (h : list A)
    (n : Z) (onMinLevel : bool) (on : Z) :
  0 <= on <= int.max_int -> 0 <= n <= slice_len h ->
  slice_len h <= int.max_int ->
  let self := mmheap.Progeny on mmheap.self in
  considered n (mmheap.progenies on) = valid_family on n /\
  exists s,
    mmheap.select (I := I) h n onMinLevel (mmheap.progenies on) self = Ok s /\
    select_all (I := I) h onMinLevel (valid_family on n) self = Ok s /\
    (s = self \/ s ∈ valid_family on n) /\
    forall c x y,
      c = self \/ c ∈ valid_family on n ->
      zget h (mmheap.index s) = Some x -> zget h (mmheap.index c) = Some y ->
      extreme less onMinLevel x y.
Proof.
  intros Hon Hn Hlen self.
  assert (Hcons : considered n (mmheap.progenies on) = valid_family on n).
  { apply considered_progenies; lia. }
  split; [exact Hcons|]. rewrite select_considered, Hcons.
  destruct h as [|d0 h0] eqn:E.
  { rewrite valid_family_none by (unfold slice_len in Hn; cbn in Hn; lia).
    exists self. split; [reflexivity|]. split; [reflexivity|].
    split; [by left|]. intros c x y _ Hx.
    unfold zget in Hx. by destruct (_ <? 0). }
  rewrite <- E in *. clear E.
  destruct (select_all_slice less d0 h onMinLevel (valid_family on n) self)
    as (s & Hs & Hin & Hext).
  { apply valid_family_in_range; lia. }
  { apply valid_family_self; lia. }
  destruct (Hext _) as [Hx Hall].
  exists s. split; [exact Hs|]. split; [exact Hs|]. split; [exact Hin|].
  intros c x y Hc Hsx Hcy.
  assert (Ex : val d0 h (mmheap.index s) = x) by (by apply val_get).
  assert (Ey : val d0 h (mmheap.index c) = y) by (by apply val_get).
  rewrite <- Ex, <- Ey. destruct Hc as [->|Hc]; [exact Hx|].
  rewrite Forall_forall in Hall. by apply Hall.
Qed.

(** C9. On an empty slice, [Pop] and [Max] panic: neither returns. *)
Theorem empty_panics (fuel : nat) :
  mmheap.Pop (I := I) fuel [] = Panic /\ mmheap.Max (I := I) [] = Panic.
Proof. split; reflexivity. Qed.

(** C10. [Init] on any slice, and [Fix] at any index of it, return and
    leave a permutation of the slice, of the same length: the slice they
    leave is the one they got with the calls to [Swap] they made, in the
    order of the log, and nothing else, done to it. *)
Theorem Init_Fix_permute (h : list A) (fuel : nat) :
  slice_len h <= int.max_int -> (length h < fuel)%nat ->
  (exists h' sw,
     mmheap.Init (I := I) fuel h = Ok h' /\
     mmheap.Init (I := loggedHeap less) fuel (Logged h [])
     = Ok (Logged h' sw) /\
     h' = replay h sw /\ length h' = length h /\ h' ≡ₚ h) /\
  (forall i, 0 <= i < slice_len h ->
     exists h' sw,
       mmheap.Fix (I := I) fuel h i = Ok h' /\
       mmheap.Fix (I := loggedHeap less) fuel (Logged h []) i
       = Ok (Logged h' sw) /\
       h' = replay h sw /\ length h' = length h /\ h' ≡ₚ h).
Proof.
  intros Hlen Hfuel. split.
  - assert (Hinit : exists h', mmheap.Init (I := I) fuel h = Ok h').
    { destruct h as [|d0 h0] eqn:E; [by exists []|]. rewrite <- E in *.
      destruct (Init_spec less d0 fuel h Hlen Hfuel) as (h' & Hrun & _).
      by exists h'. }
    destruct Hinit as [h' Hrun].
    pose proof (Init_sim less h [] fuel _ _ (reached_start h [])) as Hsim.
    rewrite Hrun in Hsim.
    destruct (mmheap.Init fuel (Logged h [])) as [[l sw]| |]; try done.
    destruct Hsim as [E (sw' & Hsw & Hh')]. cbn in E, Hsw. subst l sw.
    exists h', sw'. split; [exact Hrun|]. split; [reflexivity|].
    split; [exact Hh'|]. rewrite Hh'.
    split; [apply replay_length|apply replay_perm].
  - intros i Hi.
    destruct (Fix_spec less fuel h i Hi Hlen Hfuel) as (h' & Hrun & _).
    pose proof (Fix_sim less h [] fuel _ _ i (reached_start h [])) as Hsim.
    rewrite Hrun in Hsim.
    destruct (mmheap.Fix fuel (Logged h []) i) as [[l sw]| |]; try done.
    destruct Hsim as [E (sw' & Hsw & Hh')]. cbn in E, Hsw. subst l sw.
    exists h', sw'. split; [exact Hrun|]. split; [reflexivity|].
    split; [exact Hh'|]. rewrite Hh'.
    split; [apply replay_length|apply replay_perm].
Qed.

End Claims2.

(** ** Calls that leave the heap as it is *)

Section Stays.
Context {H A : Type} {I : heap.Interface H A}.

Lemma select_all_keep (h : H) lvl cs best :
  Forall (fun c => exists b,
            heap.Less h (mmheap.index c) (mmheap.index best) = Ok b /\
            Bool.eqb lvl b = false) cs ->
  select_all h lvl cs best = Ok best.
Proof.
  induction 1 as [|c cs (b & Hb & Eb) _ IH]; [reflexivity|].
  cbn [select_all]. by rewrite Hb, res_bind_Ok, Eb.
Qed.

Lemma down_stays fuel (h : H) i n :
  mmheap.select h n (mmheap.isMinLevel i) (mmheap.progenies i)
    (mmheap.Progeny i mmheap.self) = Ok (mmheap.Progeny i mmheap.self) ->
  mmheap.down (S fuel) h i n = Ok (h, false).
Proof.
  intros Hsel. unfold mmheap.down. cbn [mmheap.down_loop].
  rewrite Hsel, !res_bind_Ok. cbn [mmheap.rel]. rewrite res_bind_Ok.
  by rewrite Z.gtb_ltb, Z.ltb_irrefl.
Qed.

Lemma up_stays fuel (h : H) i :
  (mmheap.hasParent i = true ->
   exists b, heap.Less h (mmheap.parent i) i = Ok b /\
             Bool.eqb (mmheap.isMinLevel i) b = false) ->
  (mmheap.hasGrandparent i = true ->
   exists b, heap.Less h i (mmheap.grandparent i) = Ok b /\
             Bool.eqb (mmheap.isMinLevel i) b = false) ->
  mmheap.up (S fuel) h i = Ok h.
Proof.
  intros Hp Hg. unfold mmheap.up.
  assert (E : (if mmheap.hasParent i
               then b ← heap.Less h (mmheap.parent i) i;
                    if eqb (mmheap.isMinLevel i) b
                    then h0 ← heap.Swap h i (mmheap.parent i);
                         Ok (h0, mmheap.parent i, negb (mmheap.isMinLevel i))
                    else Ok (h, i, mmheap.isMinLevel i)
               else Ok (h, i, mmheap.isMinLevel i))
              = Ok (h, i, mmheap.isMinLevel i)).
  { destruct (mmheap.hasParent i); [|reflexivity].
    destruct (Hp eq_refl) as (b & -> & Eb). by rewrite res_bind_Ok, Eb. }
  rewrite E, res_bind_Ok. cbn [mmheap.up_loop].
  destruct (mmheap.hasGrandparent i); [|reflexivity].
  destruct (Hg eq_refl) as (b & -> & Eb). by rewrite res_bind_Ok, Eb.
Qed.

Lemma Fix_stays fuel (h : H) i :
  mmheap.down (S fuel) h i (heap.Len h) = Ok (h, false) ->
  mmheap.up (S fuel) h i = Ok h ->
  mmheap.Fix (S fuel) h i = Ok h.
Proof.
  intros Hd Hu. unfold mmheap.Fix. by rewrite Hd, res_bind_Ok.
Qed.

End Stays.

Section NoTies.
Context {A : Type} (less : A -> A -> bool).

Lemma not_chosen lvl u v :
  extreme less lvl v u -> lvl = true \/ ~ tied less v u ->
  Bool.eqb lvl (less u v) = false.
Proof.
  unfold extreme, leq, tied. destruct lvl; intros Hx Ht.
  - by rewrite Hx.
  - destruct Ht as [?|Ht]; [done|]. destruct (less u v); [reflexivity|].
    exfalso. by apply Ht.
Qed.

Lemma tied_sym x y : tied less x y -> tied less y x.
Proof. unfold tied. tauto. Qed.

(** C7, as the code has it. On a min-max heap, [Fix] at an index [i]
    calls [Swap] not once and leaves the slice as it is, when [i] is at
    even depth or no other element ties with the one at [i]. *)
Theorem Fix_without_ties_is_noop (h : list A) (i : Z) (x : A) (fuel : nat)
    (log : list (Z * Z)) :
  MinMaxHeap less h -> slice_len h <= int.max_int -> (0 < fuel)%nat ->
  zget h i = Some x ->
  (Z.even (depth i) = true \/
   forall j y, j <> i -> zget h j = Some y -> ~ tied less x y) ->
  mmheap.Fix (I := loggedHeap less) fuel (Logged h log) i
  = Ok (Logged h log).
Proof.
  intros Hh Hlen Hfuel Hx Hties.
  destruct fuel as [|fuel]; [lia|].
  pose proof (zget_range _ _ _ Hx) as Hi.
  assert (Hlvl : mmheap.isMinLevel i = Z.even (depth i)).
  { apply isMinLevel_depth. lia. }
  assert (Hval : forall j, 0 <= j < slice_len h -> j <> i ->
            zget h j = Some (val x h j) /\
            (mmheap.isMinLevel i = true \/ ~ tied less x (val x h j))).
  { intros j Hj Hne. pose proof (zget_val x h j Hj) as Hy.
    split; [exact Hy|]. rewrite Hlvl.
    destruct Hties as [?|Ht]; [by left|right]. by apply (Ht j). }
  assert (Ex : val x h i = x) by (by apply val_get).
  apply Fix_stays.
  - apply down_stays. cbn [heap.Len loggedHeap elems].
    rewrite select_considered, considered_progenies by lia.
    apply select_all_keep. apply Forall_forall. intros c Hc.
    apply valid_family_elem in Hc as [Hcn Hrel]; [|lia].
    cbn [heap.Less loggedHeap elems mmheap.index].
    assert (Hic : descendant i (mmheap.index c)).
    { destruct Hrel as [[_ Hc]|[_ [p [Hp Hc]]]].
      - by apply desc_child.
      - apply desc_grandchild. by exists p. }
    pose proof (desc_lt _ _ Hic) as Hlt.
    destruct (Hval (mmheap.index c)) as [Hy Ht]; [lia|lia|].
    rewrite (slice_less_ok less x) by lia. rewrite Ex.
    eexists. split; [reflexivity|].
    apply not_chosen; [|exact Ht]. rewrite Hlvl.
    apply (Hh i (mmheap.index c)); auto. lia.
  - apply up_stays; cbn [heap.Less loggedHeap elems].
    + unfold mmheap.hasParent. intros Hp%Z.gtb_lt.
      pose proof (child_parent i ltac:(unfold int.max_int in *; lia)) as Hc.
      set (p := mmheap.parent i) in *. clearbody p.
      assert (Hlt : 0 <= p < i) by (destruct Hc; lia).
      destruct (Hval p) as [Hy Ht]; [lia|lia|].
      rewrite (slice_less_ok less x) by lia. rewrite Ex.
      eexists. split; [reflexivity|].
      apply not_chosen; [|exact Ht]. rewrite Hlvl.
      rewrite (level_child p i Hc). apply extreme_flip.
      apply (Hh p i); auto; [by apply desc_child|lia].
    + unfold mmheap.hasGrandparent. intros Hg%Z.gtb_lt.
      destruct (grandparent_eq i) as [Hgp Hp];
        [unfold int.max_int in *; lia|].
      set (gp := mmheap.grandparent i) in *.
      set (p := mmheap.parent i) in *. clearbody gp p.
      assert (Hlt : 0 <= gp < p /\ p < i) by (destruct Hgp, Hp; lia).
      destruct (Hval gp) as [Hy Ht]; [lia|lia|].
      rewrite (slice_less_ok less x) by lia. rewrite Ex.
      eexists. split; [reflexivity|].
      apply not_chosen.
      * rewrite Hlvl, (level_grandchild gp i) by (by exists p).
        apply (Hh gp i); auto; [|lia]. apply desc_grandchild. by exists p.
      * destruct Ht as [?|Ht]; [by left|right].
        intros Htie. by apply Ht, tied_sym.
Qed.

End NoTies.

(** ** [Remove] and [Fix] at an index with ancestors *)

Lemma not_heap {A : Type} (less : A -> A -> bool) (h : list A) a d x y :
  descendant a d -> zget h a = Some x -> zget h d = Some y ->
  ~ extreme less (Z.even (depth a)) x y -> ~ MinMaxHeap less h.
Proof.
  intros Had Hx Hy Hn Hh. apply Hn, (Hh a d); auto.
  apply zget_range in Hy. lia.
Qed.

Lemma desc_1_7 : descendant 1 7.
Proof.
  apply (desc_step 1 3 7); [apply desc_child|]; unfold is_child; lia.
Qed.

Lemma desc_1_8 : descendant 1 8.
Proof.
  apply (desc_step 1 3 8); [apply desc_child|]; unfold is_child; lia.
Qed.

(** C6. [Remove] at index 3 of a min-max heap of twelve elements returns
    the element that was at index 3 and leaves eleven elements, but not a
    min-max heap: the last element, 50, comes to index 3, goes down to
    index 8, and is never compared with 10 at index 1, above it. After
    [Remove] at index 2, which [Max] gives, [Max] answers index 1, which
    holds 10, while 50 is held. *)
Theorem Remove_loses_heap_property :
  let h := [1; 10; 100; 2; 3; 4; 5; 8; 7; 6; 5; 50] in
  let h' := [1; 10; 100; 7; 3; 4; 5; 8; 50; 6; 5] in
  let h'' := [1; 10; 5; 7; 3; 4; 5; 8; 50; 6] in
  MinMaxHeap Z.ltb h /\
  mmheap.Remove (I := sliceHeap Z.ltb) 13 h 3 = Ok (2, h') /\
  zget h 3 = Some 2 /\ length h' = 11%nat /\
  ~ MinMaxHeap Z.ltb h' /\
  mmheap.Max (I := sliceHeap Z.ltb) h' = Ok 2 /\
  mmheap.Remove (I := sliceHeap Z.ltb) 13 h' 2 = Ok (100, h'') /\
  mmheap.Max (I := sliceHeap Z.ltb) h'' = Ok 1 /\
  zget h'' 1 = Some 10 /\ zget h'' 8 = Some 50.
Proof.
  cbv zeta. split; [by apply heap_check_sound|].
  split; [by vm_compute|]. split; [reflexivity|]. split; [reflexivity|].
  split.
  { apply (not_heap Z.ltb _ 1 8 10 50 desc_1_8); [reflexivity|reflexivity|].
    by vm_compute. }
  split; [by vm_compute|]. split; [by vm_compute|]. split; [by vm_compute|].
  split; reflexivity.
Qed.

(** C1. The heap property does not hold after every call. [Remove] at
    index 3 of a min-max heap leaves a slice that is not one; and so does
    [Fix] at index 3 after the key there was raised from 2 to 100, after
    which [Max] answers index 1, which holds 10. *)
Theorem heap_property_lost :
  (let h := [0; 5; 9; 1; 1; 1; 1; 2; 2; 2; 2; 7] in
   let h' := [0; 5; 9; 2; 1; 1; 1; 7; 2; 2; 2] in
   MinMaxHeap Z.ltb h /\
   mmheap.Remove (I := sliceHeap Z.ltb) 13 h 3 = Ok (1, h') /\
   ~ MinMaxHeap Z.ltb h') /\
  (let h := [1; 10; 9; 2; 3; 4; 5; 8] in
   let h' := [1; 10; 9; 8; 3; 4; 5; 100] in
   MinMaxHeap Z.ltb h /\
   mmheap.Fix (I := sliceHeap Z.ltb) 9 (<[3%nat := 100]> h) 3 = Ok h' /\
   ~ MinMaxHeap Z.ltb h' /\
   mmheap.Max (I := sliceHeap Z.ltb) h' = Ok 1 /\ zget h' 1 = Some 10).
Proof.
  cbv zeta. split.
  - split; [by apply heap_check_sound|]. split; [by vm_compute|].
    apply (not_heap Z.ltb _ 1 7 5 7 desc_1_7); [reflexivity|reflexivity|].
    by vm_compute.
  - split; [by apply heap_check_sound|]. split; [by vm_compute|].
    split; [|split; reflexivity].
    apply (not_heap Z.ltb _ 1 7 10 100 desc_1_7); [reflexivity|reflexivity|].
    by vm_compute.
Qed.

(** C7, as the claim has it, fails: at index 1 of a min-max heap whose
    indices 1 and 3 hold tied elements, [Fix] calls [Swap(1, 3)] and the
    slice is not as it was. *)
Lemma Fix_swaps_tied_elements :
  let h := [(1, 0); (5, 1); (3, 2); (5, 3)] in
  let h' := [(1, 0); (5, 3); (3, 2); (5, 1)] in
  MinMaxHeap less_key h /\ 0 <= 1 < slice_len h /\
  mmheap.Fix (I := loggedHeap less_key) 5 (Logged h []) 1
  = Ok (Logged h' [(1, 3)]) /\
  Logged h' [(1, 3)] <> Logged h [].
Proof.
  cbv zeta. split; [by apply heap_check_sound|]. split; [by vm_compute|].
  split; [by vm_compute|]. discriminate.
Qed.

(** ** The tests of the package, run on the embedding *)

(** Pushing 5, 3, 8, 1, 9, 2: the minimum is at index 0 and [Max] gives
    the index of 9. *)
Example pushes_six :
  (h ← pushes Z.ltb 7 [] [5; 3; 8; 1; 9; 2];
   i ← mmheap.Max (I := sliceHeap Z.ltb) h; Ok (h, i))
  = Ok ([1; 9; 8; 3; 5; 2], 1).
Proof. by vm_compute. Qed.

(** [TestInit1]: [Init] over 20, 19, ..., 1, then twenty calls to [Pop]. *)
Example TestInit1 :
  (h ← mmheap.Init (I := sliceHeap Z.ltb) 21 (Z.of_nat <$> rev (seq 1 20));
   drain Z.ltb 21 20 h)
  = Ok (Z.of_nat <$> seq 1 20, []).
Proof. by vm_compute. Qed.

(** [TestRemove0]: [Init] over 0, ..., 9, then [Remove] at [Max] until the
    slice is empty. *)
Example TestRemove0 :
  (h ← mmheap.Init (I := sliceHeap Z.ltb) 11 (Z.of_nat <$> seq 0 10);
   remove_max Z.ltb 11 10 h)
  = Ok (Z.of_nat <$> rev (seq 0 10), []).
Proof. by vm_compute. Qed.

(** * Further properties of the package *)

(** ** [down] and [up] one after the other, as in [Fix] and [Remove] *)

Section Sift.
Context {A : Type} (less : A -> A -> bool).
Context (dflt : A).
Local Abbreviation val := (val dflt).
Local Abbreviation I := (sliceHeap less).

(** [down] leaves in place an element that is in order with its children
    and grandchildren, strictly so on a max level. *)
Lemma down_keep fuel (h : list A) i n :
  0 <= i < n -> n <= slice_len h -> slice_len h <= int.max_int ->
  (forall c, c ∈ valid_family i n ->
     extreme less (Z.even (depth i)) (val h i) (val h (mmheap.index c)) /\
     (Z.even (depth i) = true \/
      ~ tied less (val h i) (val h (mmheap.index c)))) ->
  mmheap.down (I := I) (S fuel) h i n = Ok (h, false).
Proof.
  intros Hi Hn Hlen Hkeep. apply down_stays.
  rewrite select_considered, considered_progenies
    by (unfold slice_len, int.max_int in *; lia).
  apply select_all_keep. apply Forall_forall. intros c Hc.
  destruct (Hkeep c Hc) as [Hx Ht].
  apply valid_family_elem in Hc as [Hcn _]; [|lia].
  cbn [heap.Less sliceHeap mmheap.index].
  rewrite (slice_less_ok less dflt) by lia.
  eexists. split; [reflexivity|].
  rewrite isMinLevel_depth by lia. by apply not_chosen.
Qed.

(** [down] at [i], then [up] at [i] when [down] answered false, over the
    first [n] elements: they return, permute the slice, and order a heap
    that was ordered but at [i], in two cases: the element at [i] was in
    order with what is above it, or it is with its children and
    grandchildren, strictly so on a max level. *)
Lemma sift_spec fuel (h : list A) i n :
  0 <= i < n -> n <= slice_len h -> slice_len h <= int.max_int ->
  (length h < fuel)%nat ->
  exists h2 moved h',
    mmheap.down (I := I) fuel h i n = Ok (h2, moved) /\
    (if negb moved then mmheap.up (I := I) fuel h2 i else Ok h2) = Ok h' /\
    h' ≡ₚ h /\ length h' = length h /\
    (forall j, n <= j -> zget h' j = zget h j) /\
    (StrictWeakOrder less ->
     (forall a d, descendant a d -> d < n -> a <> i -> d <> i ->
                  holds less (val h) a d) ->
     (forall a, descendant a i -> holds less (val h) a i) \/
     (forall c, is_child i c \/ is_grandchild i c -> c < n ->
        extreme less (Z.even (depth i)) (val h i) (val h c) /\
        (Z.even (depth i) = true \/ ~ tied less (val h i) (val h c))) ->
     ordered_from less 0 n (val h')).
Proof.
  intros Hi Hn Hlen Hfuel.
  destruct (down_spec less dflt fuel h i n)
    as (h2 & moved & Hrun & Hperm & Hlength & Hhigh & _ & Hinv);
    try (unfold int.max_int in *; lia).
  destruct (up_spec less dflt fuel h2 i)
    as (h3 & Hrun' & Hperm' & Hlength' & Hhigh' & Hinv');
    try (unfold slice_len in *; lia).
  exists h2, moved, (if negb moved then h3 else h2).
  split; [exact Hrun|]. split; [by destruct moved|].
  split; [destruct moved; cbn; [done|by rewrite Hperm']|].
  split; [destruct moved; cbn; lia|].
  split.
  { intros j Hj. destruct moved; cbn; [by apply Hhigh|].
    rewrite Hhigh' by lia. by apply Hhigh. }
  intros SWO Hapart [Hfit|Hkeep].
  - assert (Hord : ordered_from less 0 n (val h2)).
    { apply (Hinv 0); [assumption|lia|].
      intros a d _ Hne Had Hd. destruct (Z.eq_dec d i) as [->|Hdi]; auto. }
    destruct moved; cbn; [exact Hord|].
    apply Hinv'; [assumption|lia|].
    intros a d Had Hd _. apply Hord; auto. apply desc_lt in Had. lia.
  - destruct fuel as [|fuel]; [lia|].
    rewrite (down_keep fuel h i n) in Hrun; [|lia..|].
    2:{ intros c Hc. apply valid_family_elem in Hc as Hc'; [|lia].
        destruct Hc' as [Hcn Hrel]. apply Hkeep; [|lia].
        destruct Hrel as [[_ ?]|[_ ?]]; [by left|by right]. }
    injection Hrun as <- <-. cbn.
    apply Hinv'; [assumption|lia|].
    intros a d Had Hd Hne. destruct (Z.eq_dec a i) as [->|Hai]; auto.
    apply (extreme_below less i n (val h) i); auto; [|lia|].
    + intros a' d' Ha' Hne' Had' Hd'. apply Hapart; auto.
      apply desc_lt in Had'. lia.
    + intros c Hc Hcn. by apply Hkeep.
Qed.

End Sift.

(** ** [Fix] where it repairs the heap *)

Lemma zget_insert {A : Type} (h : list A) i x j :
  0 <= i < slice_len h ->
  zget (<[Z.to_nat i := x]> h) j = if j =? i then Some x else zget h j.
Proof.
  intros Hi. unfold zget, slice_len in *.
  destruct (Z.eqb_spec j i) as [->|Hne].
  - destruct (Z.ltb_spec i 0); [lia|]. apply list_lookup_insert_eq. lia.
  - destruct (Z.ltb_spec j 0); [reflexivity|].
    apply list_lookup_insert_ne. lia.
Qed.

Lemma slice_len_insert {A : Type} (h : list A) i x :
  slice_len (<[i := x]> h) = slice_len h.
Proof. unfold slice_len. by rewrite length_insert. Qed.

Section Restore.
Context {A : Type} (less : A -> A -> bool).
Local Abbreviation I := (sliceHeap less).

(** X10. [Fix] at [i], after the element at index [i] of a min-max heap
    was replaced by [x], returns and leaves a min-max heap of the same
    elements in two cases: [x] is in order with every ancestor of [i], as
    it is at index 0; or [x] is in order with the children and
    grandchildren of [i], and ties with none of them if [i] is at odd
    depth, as it is at an index without children. *)
Theorem Fix_restores_heap `{!StrictWeakOrder less} (h : list A) (i : Z)
    (x : A) (fuel : nat) :
  MinMaxHeap less h -> 0 <= i < slice_len h -> slice_len h <= int.max_int ->
  (length h < fuel)%nat ->
  (forall a y, descendant a i -> zget h a = Some y ->
               extreme less (Z.even (depth a)) y x) \/
  (forall c y, is_child i c \/ is_grandchild i c -> zget h c = Some y ->
               extreme less (Z.even (depth i)) x y /\
               (Z.even (depth i) = true \/ ~ tied less x y)) ->
  exists h',
    mmheap.Fix (I := I) fuel (<[Z.to_nat i := x]> h) i = Ok h' /\
    h' ≡ₚ <[Z.to_nat i := x]> h /\ MinMaxHeap less h'.
Proof.
  intros Hh Hi Hlen Hfuel Hcase.
  set (h1 := <[Z.to_nat i := x]> h).
  assert (Hlen1 : slice_len h1 = slice_len h) by apply slice_len_insert.
  assert (Hget : forall j, zget h1 j = if j =? i then Some x else zget h j).
  { intros j. by apply zget_insert. }
  assert (Hvi : val x h1 i = x).
  { apply val_get. by rewrite Hget, Z.eqb_refl. }
  assert (Hvj : forall j, j <> i -> val x h1 j = val x h j).
  { intros j Hj. apply val_congr. rewrite Hget.
    by destruct (Z.eqb_spec j i). }
  destruct (sift_spec less x fuel h1 i (slice_len h1))
    as (h2 & moved & h' & Hdown & Hup & Hperm & Hlength & _ & Hinv);
    try (unfold slice_len in *; lia).
  exists h'. split.
  { rewrite Fix_unfold, Hdown, res_bind_Ok. exact Hup. }
  split; [exact Hperm|].
  unfold MinMaxHeap. apply (heap_upto_val less x); [lia|].
  replace (slice_len h') with (slice_len h1) by (unfold slice_len; lia).
  pose proof (proj1 (heap_upto_val less x (slice_len h) h ltac:(lia)) Hh)
    as Hord.
  apply Hinv; [assumption| |].
  - intros a d Had Hd Ha Hdi. unfold holds. rewrite !Hvj by assumption.
    apply Hord; auto; [|lia]. apply desc_lt in Had. lia.
  - destruct Hcase as [Hfit|Hkeep]; [left|right].
    + intros a Ha. pose proof (desc_lt _ _ Ha) as Hlt.
      unfold holds. rewrite Hvi, Hvj by lia.
      apply Hfit; [assumption|]. apply zget_val. lia.
    + intros c Hc Hcn.
      assert (Hic : i < c).
      { destruct Hc as [[? ?]|[p [[? ?] [? ?]]]]; lia. }
      rewrite Hvi, Hvj by lia. apply (Hkeep c); [assumption|].
      apply zget_val. lia.
Qed.

End Restore.

(** ** [Remove] where it keeps the heap *)

Lemma desc_top_level a i : descendant a i -> i <= 2 -> a = 0.
Proof.
  intros Ha Hi. pose proof (desc_lt _ _ Ha). apply desc_ge in Ha. lia.
Qed.

Section RemoveHeap.
Context {A : Type} (less : A -> A -> bool) `{!StrictWeakOrder less}.
Local Abbreviation I := (sliceHeap less).

Lemma heap_upto_le n m (h : list A) :
  n <= m -> heap_upto less m h -> heap_upto less n h.
Proof. intros Hn Hh a d x y Had Hd. apply Hh; auto. lia. Qed.

(** [Remove] at [i] keeps the heap when the last element, which comes to
    [i], is in order with the ancestors of [i], or when [i] has no child
    left. *)
Lemma Remove_sift fuel (h : list A) i :
  MinMaxHeap less h -> 0 <= i < slice_len h -> slice_len h <= int.max_int ->
  (length h < fuel)%nat ->
  (forall a x y, descendant a i ->
     zget h a = Some x -> zget h (slice_len h - 1) = Some y ->
     extreme less (Z.even (depth a)) x y) \/
  slice_len h - 1 <= 2 * i + 1 ->
  exists v h',
    mmheap.Remove (I := I) fuel h i = Ok (v, h') /\
    zget h i = Some v /\ h ≡ₚ v :: h' /\ MinMaxHeap less h'.
Proof.
  intros Hh Hi Hlen Hfuel Hcase. rewrite Remove_unfold.
  rewrite sub_id by (unfold int.max_int in *; lia).
  set (n := slice_len h - 1) in *.
  destruct (zget_is_Some h i Hi) as [v Hv].
  assert (Hpop : forall h3 : list A,
            h3 ≡ₚ h -> zget h3 n = Some v -> heap_upto less n h3 ->
            exists h', slice_pop h3 = Ok (v, h') /\ h ≡ₚ v :: h' /\
                       MinMaxHeap less h').
  { intros h3 Hperm Hlast Hheap.
    assert (Hlen3 : slice_len h3 = slice_len h).
    { unfold slice_len. by rewrite (Permutation_length Hperm). }
    destruct (slice_pop_ok h3 v) as [Hp Hsplit];
      [lia|by rewrite Hlen3|].
    rewrite Hlen3 in Hp, Hsplit. fold n in Hp, Hsplit.
    eexists. split; [exact Hp|]. split.
    - rewrite <- Hperm. rewrite Hsplit at 1. by rewrite Permutation_app_comm.
    - apply heap_upto_take; [lia|assumption]. }
  destruct (Z.eqb_spec n i) as [E|E]; cbn [negb].
  { rewrite res_bind_Ok. destruct (Hpop h) as (h' & Hp & Hperm & Hheap).
    - reflexivity.
    - by rewrite E.
    - apply (heap_upto_le n (slice_len h)); [lia|exact Hh].
    - by exists v, h'. }
  assert (Hin : 0 <= i < n) by lia.
  rewrite slice_swap_ok by lia. rewrite res_bind_Ok.
  destruct (sift_spec less v fuel (exchange h i n) i n)
    as (h2 & moved & h3 & Hdown & Hup & Hperm & Hlength & Hhigh & Hinv);
    try (rewrite ?exchange_len, ?exchange_length;
         unfold int.max_int in *; lia).
  rewrite Hdown, res_bind_Ok. cbn beta iota. rewrite Hup, res_bind_Ok.
  assert (Hlen3 : slice_len h3 = slice_len h).
  { unfold slice_len. by rewrite Hlength, exchange_length. }
  destruct (Hpop h3) as (h' & Hp & Hperm' & Hheap).
  - by rewrite Hperm, exchange_perm.
  - rewrite Hhigh by lia. rewrite zget_exchange by lia.
    by rewrite Z.eqb_refl.
  - apply (heap_upto_val less v); [lia|].
    pose proof (proj1 (heap_upto_val less v (slice_len h) h ltac:(lia)) Hh)
      as Hord.
    apply Hinv; [assumption| |].
    + intros a d Had Hd Ha Hdi. pose proof (desc_lt _ _ Had) as Hlt.
      unfold holds. rewrite !val_exchange by lia.
      rewrite !swapf_other by lia. apply Hord; auto; lia.
    + destruct Hcase as [Hfit|Hleaf]; [left|right].
      * intros a Ha. pose proof (desc_lt _ _ Ha) as Hlt.
        unfold holds. rewrite !val_exchange by lia.
        rewrite swapf_r, swapf_other by lia.
        apply Hfit; [assumption|apply zget_val; lia|apply zget_val; lia].
      * intros c Hc Hcn.
        destruct Hc as [[? ?]|[p [[? ?] [? ?]]]]; lia.
  - by exists v, h'.
Qed.

(** The last element is in order with the root. *)
Lemma fits_top (h : list A) i :
  MinMaxHeap less h -> 0 <= i < slice_len h -> i <= 2 ->
  forall a x y, descendant a i ->
    zget h a = Some x -> zget h (slice_len h - 1) = Some y ->
    extreme less (Z.even (depth a)) x y.
Proof.
  intros Hh Hi Hi2 a x y Ha Hx Hy.
  assert (a = 0) as -> by (by eapply desc_top_level).
  apply (root_min less h x y); [assumption|assumption|].
  unfold zget in Hy. destruct (_ <? 0); [done|].
  by eapply list_elem_of_lookup_2.
Qed.

(** X7. [Remove] at an index [i] of a min-max heap returns the element
    that was at [i] and leaves a min-max heap of the others in three
    cases: [i] is one of the first three indices; [i] is an ancestor of
    the last index; [i] has no child among the elements that stay. *)
Theorem Remove_keeps_heap (h : list A) (i : Z) (fuel : nat) :
  MinMaxHeap less h -> 0 <= i < slice_len h -> slice_len h <= int.max_int ->
  (length h < fuel)%nat ->
  i <= 2 \/ descendant i (slice_len h - 1) \/ slice_len h - 1 <= 2 * i + 1 ->
  exists v h',
    mmheap.Remove (I := I) fuel h i = Ok (v, h') /\
    zget h i = Some v /\ h ≡ₚ v :: h' /\ MinMaxHeap less h'.
Proof.
  intros Hh Hi Hlen Hfuel Hcase.
  apply Remove_sift; try assumption.
  destruct Hcase as [Hi2|[Hanc|Hleaf]]; [left|left|by right].
  - by apply fits_top.
  - intros a x y Ha Hx Hy. apply (Hh a (slice_len h - 1)); auto; [|lia].
    by eapply desc_trans.
Qed.

End RemoveHeap.

(** ** Taking the maximum out: [Remove] at the index [Max] gives *)

Section RemoveMax.
Context {A : Type} (less : A -> A -> bool) `{!StrictWeakOrder less}.
Local Abbreviation I := (sliceHeap less).

(** An element of the first three indices that is above the two children
    of the root is above every element. *)
Lemma top_max (h : list A) i m :
  MinMaxHeap less h -> 0 <= i <= 2 -> zget h i = Some m ->
  (forall c y, 1 <= c <= 2 -> zget h c = Some y -> leq less y m) ->
  forall x, x ∈ h -> leq less x m.
Proof.
  intros Hh Hi Hm Htop x [d Hd]%list_elem_of_lookup.
  assert (Hx : zget h (Z.of_nat d) = Some x).
  { unfold zget. destruct (Z.ltb_spec (Z.of_nat d) 0); [lia|].
    by rewrite Nat2Z.id. }
  pose proof (zget_range _ _ _ Hx) as Hdr.
  destruct (Z.eq_dec (Z.of_nat d) 0) as [E0|E0].
  { rewrite E0 in Hx. destruct (Z.eq_dec i 0) as [->|Hi0].
    - assert (x = m) as -> by congruence. by apply leq_refl.
    - apply (Hh 0 i x m); auto; [apply desc_root|apply zget_range in Hm];
        lia. }
  destruct (desc_top 0 (Z.of_nat d) ltac:(apply desc_root; lia))
    as [[_ Hc]|[c [[_ Hc] Hcd]]].
  - apply (Htop (Z.of_nat d)); [lia|assumption].
  - destruct (zget_is_Some h c) as [y Hy].
    { apply desc_lt in Hcd. lia. }
    eapply leq_trans; [assumption| |apply (Htop c y); [lia|assumption]].
    assert (Hlvl : Z.even (depth c) = false).
    { destruct Hc as [-> | ->]; reflexivity. }
    specialize (Hh c (Z.of_nat d) y x Hcd ltac:(lia) Hy Hx).
    by rewrite Hlvl in Hh.
Qed.

(** [Max] on a min-max heap gives one of the first three indices, and a
    maximum is there. *)
Lemma Max_spec (h : list A) :
  MinMaxHeap less h -> 1 <= slice_len h ->
  exists i m,
    mmheap.Max (I := I) h = Ok i /\ 0 <= i <= 2 /\
    zget h i = Some m /\ forall x, x ∈ h -> leq less x m.
Proof.
  intros Hh Hlen. unfold mmheap.Max. cbn [heap.Len heap.Less sliceHeap].
  destruct (Z.eqb_spec (slice_len h) 1) as [E1|E1].
  { destruct (zget_is_Some h 0 ltac:(lia)) as [m Hm].
    exists 0, m. split; [reflexivity|]. split; [lia|]. split; [exact Hm|].
    apply (top_max h 0 m); [assumption|lia|assumption|].
    intros c y Hc Hy. apply zget_range in Hy. lia. }
  destruct (Z.eqb_spec (slice_len h) 2) as [E2|E2].
  { destruct (zget_is_Some h 1 ltac:(lia)) as [m Hm].
    exists 1, m. split; [reflexivity|]. split; [lia|]. split; [exact Hm|].
    apply (top_max h 1 m); [assumption|lia|assumption|].
    intros c y Hc Hy. pose proof (zget_range _ _ _ Hy).
    assert (c = 1) as -> by lia.
    assert (y = m) as -> by congruence. by apply leq_refl. }
  destruct (zget_is_Some h 1 ltac:(lia)) as [m1 Hm1].
  destruct (zget_is_Some h 2 ltac:(lia)) as [m2 Hm2].
  unfold slice_less. rewrite !slice_get_zget, Hm1, Hm2, !res_bind_Ok.
  destruct (less m1 m2) eqn:E.
  - exists 2, m2. split; [reflexivity|]. split; [lia|]. split; [exact Hm2|].
    apply (top_max h 2 m2); [assumption|lia|assumption|].
    intros c y Hc Hy. destruct (Z.eq_dec c 1) as [->|Hc1].
    + assert (y = m1) as -> by congruence. by apply less_leq.
    + assert (c = 2) as -> by lia.
      assert (y = m2) as -> by congruence. by apply leq_refl.
  - exists 1, m1. split; [reflexivity|]. split; [lia|]. split; [exact Hm1|].
    apply (top_max h 1 m1); [assumption|lia|assumption|].
    intros c y Hc Hy. destruct (Z.eq_dec c 1) as [->|Hc1].
    + assert (y = m1) as -> by congruence. by apply leq_refl.
    + assert (c = 2) as -> by lia.
      assert (y = m2) as -> by congruence. exact E.
Qed.

Lemma Remove_Max_spec fuel (h : list A) :
  MinMaxHeap less h -> 1 <= slice_len h <= int.max_int ->
  (length h < fuel)%nat ->
  exists i v h',
    mmheap.Max (I := I) h = Ok i /\
    mmheap.Remove (I := I) fuel h i = Ok (v, h') /\
    zget h i = Some v /\ (forall x, x ∈ h -> leq less x v) /\
    h ≡ₚ v :: h' /\ MinMaxHeap less h'.
Proof.
  intros Hh Hlen Hfuel.
  destruct (Max_spec h Hh ltac:(lia)) as (i & m & Hmax & Hi & Hm & Hall).
  pose proof (zget_range _ _ _ Hm) as Hr.
  destruct (Remove_sift less fuel h i) as (v & h' & Hrun & Hv & Hperm & Hheap);
    try assumption; try lia.
  { left. apply fits_top; auto; lia. }
  assert (v = m) as -> by congruence.
  by exists i, m, h'.
Qed.

(** X8. On a min-max heap that is not empty, [Remove] at the index [Max]
    gives returns a maximum of the elements held, and leaves a min-max
    heap of the others. *)
Theorem Remove_Max_pops_maximum (h : list A) (fuel : nat) :
  MinMaxHeap less h -> 1 <= slice_len h <= int.max_int ->
  (length h < fuel)%nat ->
  exists i v h',
    mmheap.Max (I := I) h = Ok i /\
    mmheap.Remove (I := I) fuel h i = Ok (v, h') /\
    (forall x, x ∈ h -> leq less x v) /\
    h ≡ₚ v :: h' /\ MinMaxHeap less h'.
Proof.
  intros Hh Hlen Hfuel.
  destruct (Remove_Max_spec fuel h Hh Hlen Hfuel)
    as (i & v & h' & Hmax & Hrun & _ & Hall & Hperm & Hheap).
  by exists i, v, h'.
Qed.

Lemma remove_max_S fuel k (h : list A) :
  remove_max less fuel (S k) h =
  i ← mmheap.Max (I := I) h;
  '(v, h) ← mmheap.Remove (I := I) fuel h i;
  '(vs, h) ← remove_max less fuel k h;
  Ok (v :: vs, h).
Proof. reflexivity. Qed.

Lemma remove_max_spec fuel k : forall (h : list A),
  length h = k -> slice_len h <= int.max_int -> (length h < fuel)%nat ->
  MinMaxHeap less h ->
  exists out,
    remove_max less fuel k h = Ok (out, []) /\
    out ≡ₚ h /\ StronglySorted (fun x y => leq less y x) out.
Proof.
  induction k as [|k IH]; intros h Hk Hlen Hfuel Hh.
  { destruct h; [|discriminate]. exists []. split; [reflexivity|].
    split; [reflexivity|constructor]. }
  destruct (Remove_Max_spec fuel h)
    as (i & v & h' & Hmax & Hrun & _ & Hall & Hperm & Hheap);
    try (unfold slice_len in *; lia); [assumption|].
  assert (Hk' : length h' = k).
  { apply Permutation_length in Hperm. simpl in Hperm. lia. }
  destruct (IH h' Hk') as (out & Hrun' & Hperm' & Hsorted);
    try (unfold slice_len in *; lia); [assumption|].
  rewrite remove_max_S, Hmax, res_bind_Ok, Hrun, res_bind_Ok. cbn beta iota.
  rewrite Hrun', res_bind_Ok. cbn beta iota.
  exists (v :: out). split; [reflexivity|].
  split; [by rewrite Hperm, Hperm'|].
  constructor; [assumption|].
  apply Forall_forall. intros x Hx. apply Hall.
  rewrite Hperm. apply list_elem_of_further. by rewrite <- Hperm'.
Qed.

(** X9. Heap sort from the other end: [Init] on any slice, then as many
    calls to [Remove] at the index [Max] gives as it has elements,
    return; the values removed are in non-increasing order and are a
    permutation of the slice, which is left empty. *)
Theorem Remove_Max_yields_sorted (l : list A) (fuel : nat) :
  slice_len l <= int.max_int -> (length l < fuel)%nat ->
  exists h out,
    mmheap.Init (I := I) fuel l = Ok h /\
    remove_max less fuel (length l) h = Ok (out, []) /\
    Sorted (fun x y => leq less y x) out /\ out ≡ₚ l.
Proof.
  intros Hlen Hfuel.
  destruct (Init_heap less l fuel Hlen Hfuel) as (h & Hinit & Hperm & Hheap).
  assert (Hlength : length h = length l) by (by apply Permutation_length).
  destruct (remove_max_spec fuel (length l) h)
    as (out & Hrun & Hperm' & Hsorted);
    try (unfold slice_len in *; lia); [assumption|].
  exists h, out. split; [exact Hinit|]. split; [exact Hrun|].
  split; [by apply StronglySorted_Sorted|]. by rewrite Hperm'.
Qed.

End RemoveMax.

(** ** Indices at the edge and beyond *)

Section Edges.
Context {A : Type} (less : A -> A -> bool).
Local Abbreviation I := (sliceHeap less).

Lemma up_root fuel (h : list A) :
  mmheap.up (I := I) (S fuel) h 0 = Ok h.
Proof. reflexivity. Qed.

Lemma slice_get_returns (h : list A) i : slice_get h i <> OutOfFuel.
Proof.
  unfold slice_get. destruct (i <? 0); [done|].
  by destruct (h !! Z.to_nat i).
Qed.

(** [down] at an index whose first child is not below [n] looks at no
    element. *)
Lemma down_none fuel (h : list A) i n :
  0 <= i <= int.max_int -> n <= 2 * i + 1 -> n <= int.max_int ->
  mmheap.down (I := I) (S fuel) h i n = Ok (h, false).
Proof.
  intros Hi Hn Hmax. apply down_stays.
  pose proof (int_child_l i Hi) as Hl. cbv zeta in Hl.
  unfold mmheap.progenies.
  set (l := int.add (int.mul 2 i) 1) in *.
  cbn [mmheap.select mmheap.index].
  destruct (Z.geb_spec l n), (Z.ltb_spec l 0); try reflexivity.
  unfold int.max_int in *. lia.
Qed.

Lemma down_negative fuel (h : list A) i n :
  - 2 ^ 62 <= i < 0 ->
  mmheap.down (I := I) (S fuel) h i n = Ok (h, false).
Proof.
  intros Hi. apply down_stays. unfold mmheap.progenies.
  assert (El : int.add (int.mul 2 i) 1 = 2 * i + 1).
  { rewrite mul_id, add_id; lia. }
  rewrite El. cbn [mmheap.select mmheap.index].
  destruct (Z.ltb_spec (2 * i + 1) 0); [|lia].
  by rewrite orb_true_r.
Qed.

(** X4. [Remove] at an index of a slice returns the element that was
    there and leaves the other elements, in some order, whatever [Less]
    is and whether the slice is a heap or not. *)
Theorem Remove_returns_element (h : list A) (i : Z) (fuel : nat) :
  0 <= i < slice_len h -> slice_len h <= int.max_int ->
  (length h < fuel)%nat ->
  exists v h',
    mmheap.Remove (I := I) fuel h i = Ok (v, h') /\
    zget h i = Some v /\ h ≡ₚ v :: h' /\
    slice_len h' = slice_len h - 1.
Proof. apply Remove_spec. Qed.

(** X5. [Remove] panics at the indices out of range, the empty slice
    included, and at no other. *)
Theorem Remove_panics_out_of_range (h : list A) (i : Z) (fuel : nat) :
  slice_len h <= int.max_int -> (length h < fuel)%nat ->
  mmheap.Remove (I := I) fuel h i = Panic <-> ~ 0 <= i < slice_len h.
Proof.
  intros Hlen Hfuel. split.
  - intros Hrun Hi.
    destruct (Remove_spec less fuel h i Hi Hlen Hfuel) as (v & h' & E & _).
    congruence.
  - intros Hi. rewrite Remove_unfold.
    assert (H0 : 0 <= slice_len h) by (unfold slice_len; lia).
    rewrite sub_id by (unfold int.max_int in *; lia).
    destruct (Z.eqb_spec (slice_len h - 1) i) as [E|E]; cbn [negb].
    + assert (El : length h = 0%nat) by (unfold slice_len in *; lia).
      destruct h; [by vm_compute|discriminate].
    + unfold slice_swap. by rewrite (slice_get_panic h i).
Qed.

(** X6. [Remove] at index 0 is [Pop]: the two give the same result on
    every slice, the empty one included. *)
Theorem Remove_root_is_Pop (h : list A) (fuel : nat) :
  (0 < fuel)%nat ->
  mmheap.Remove (I := I) fuel h 0 = mmheap.Pop (I := I) fuel h.
Proof.
  intros Hfuel. destruct fuel as [|fuel]; [lia|].
  rewrite Remove_unfold. unfold mmheap.Pop.
  cbn [heap.Len heap.Swap heap.Pop sliceHeap].
  set (n := int.sub (slice_len h) 1).
  destruct (Z.eqb_spec n 0) as [E|E]; cbn [negb].
  - rewrite E, res_bind_Ok. destruct h as [|x h].
    { exfalso. by vm_compute in E. }
    assert (Es : slice_swap (x :: h) 0 0 = Ok (x :: h)) by reflexivity.
    rewrite Es, res_bind_Ok.
    rewrite down_none by (unfold int.max_int; lia). by rewrite res_bind_Ok.
  - destruct (slice_swap h 0 n) as [h1| |]; [|reflexivity..].
    rewrite !res_bind_Ok.
    destruct (mmheap.down (S fuel) h1 0 n) as [[h2 moved]| |];
      [|reflexivity..].
    rewrite !res_bind_Ok. destruct moved; cbn [negb]; [reflexivity|].
    by rewrite up_root.
Qed.

(** X11. [Fix] at an index out of range: past the end it panics, in
    [up], after [down] has looked at nothing; at a negative index down to
    [-2^62] no method of the heap is called with it, and [Fix] returns,
    the slice as it was; on the empty slice at index 0 it returns too. *)
Theorem Fix_out_of_range (h : list A) (i : Z) (fuel : nat) :
  slice_len h <= int.max_int -> (0 < fuel)%nat ->
  (slice_len h <= i <= int.max_int -> 0 < i ->
   mmheap.Fix (I := I) fuel h i = Panic) /\
  (- 2 ^ 62 <= i < 0 -> mmheap.Fix (I := I) fuel h i = Ok h) /\
  mmheap.Fix (I := I) fuel [] 0 = Ok [].
Proof.
  intros Hlen Hfuel. destruct fuel as [|fuel]; [lia|].
  assert (H0 : 0 <= slice_len h) by (unfold slice_len; lia).
  split; [|split; [|reflexivity]].
  - intros Hi Hpos. rewrite Fix_unfold.
    rewrite down_none by lia. rewrite res_bind_Ok. cbn [negb].
    rewrite up_unfold. unfold mmheap.hasParent.
    destruct (Z.gtb_spec i 0); [|lia].
    unfold slice_less. rewrite (slice_get_panic h i) by lia.
    destruct (slice_get h (mmheap.parent i)) eqn:E; [reflexivity..|].
    by apply slice_get_returns in E.
  - intros Hi. apply Fix_stays; [by apply down_negative|].
    apply up_stays; unfold mmheap.hasParent, mmheap.hasGrandparent;
      intros E%Z.gtb_lt; lia.
Qed.

End Edges.

(** ** The calls to [Swap]: how many, and where *)

Lemma depth_grandchild g c : is_grandchild g c -> depth c = depth g + 2.
Proof.
  intros [p [Hp Hc]]. rewrite (depth_child p c Hc), (depth_child g p Hp). lia.
Qed.

Lemma depth_mono i j : 0 <= i <= j -> depth i <= depth j.
Proof. intros Hij. unfold depth. apply Z.log2_le_mono. lia. Qed.

Lemma depth_nonneg i : 0 <= depth i.
Proof. apply Z.log2_nonneg. Qed.

Section Log.
Context {A : Type} (less : A -> A -> bool).
Context (dflt : A).
Local Abbreviation L := (loggedHeap less).
Local Abbreviation S := (sliceHeap less).

Lemma Swap_log (h : list A) log i j :
  0 <= i < slice_len h -> 0 <= j < slice_len h ->
  heap.Swap (Interface := L) (Logged h log) i j
  = Ok (Logged (exchange h i j) (log ++ [(i, j)])).
Proof.
  intros Hi Hj. cbn [heap.Swap loggedHeap elems swaps].
  by rewrite slice_swap_ok.
Qed.

Lemma replay_app (h : list A) sw1 sw2 :
  replay h (sw1 ++ sw2) = replay (replay h sw1) sw2.
Proof. unfold replay. by rewrite foldl_app. Qed.

(** The calls to [Swap] of the loop of [down]: at most as many as the
    levels it goes down, and all of them at [on] or below. *)
Lemma down_loop_log fuel : forall (h : list A) log n lvl on H' on',
  0 <= on <= int.max_int -> 0 <= n <= slice_len h ->
  slice_len h <= int.max_int ->
  mmheap.down_loop (I := L) fuel (Logged h log) n lvl on = Ok (H', on') ->
  exists sw,
    swaps H' = log ++ sw /\ elems H' = replay h sw /\
    ((on' = on /\ sw = []) \/ (descendant on on' /\ on' < n /\ sw <> [])) /\
    Z.of_nat (length sw) <= depth on' - depth on /\
    Forall (fun ij => (ij.1 = on \/ descendant on ij.1) /\
                      (ij.2 = on \/ descendant on ij.2)) sw.
Proof.
  induction fuel as [|fuel IH]; intros h log n lvl on H' on' Hon Hn Hlen;
    [discriminate|].
  cbn [mmheap.down_loop].
  rewrite (select_sim less h log (Logged h log) h) by apply reached_start.
  destruct (select_progenies less dflt h n lvl on Hon Hn Hlen)
    as (s & Hsel & Hs & _).
  rewrite Hsel, res_bind_Ok.
  destruct Hs as [->|Hs].
  { cbn [mmheap.rel]. intros [= <- <-]. exists [].
    split; [by rewrite app_nil_r|]. split; [reflexivity|].
    split; [by left|]. split; [cbn; lia|constructor]. }
  apply valid_family_elem in Hs as [Hsn Hrel]; [|lia].
  destruct s as [c r]. cbn [mmheap.index mmheap.rel] in *.
  destruct Hrel as [[-> Hc]|[-> [p [Hp Hg]]]].
  - assert (Hoc : on < c) by (destruct Hc; lia).
    rewrite Swap_log by lia. rewrite res_bind_Ok. intros [= <- <-].
    exists [(on, c)]. cbn [swaps elems].
    split; [reflexivity|]. split; [reflexivity|].
    split; [right; split; [by apply desc_child|split; [lia|done]]|].
    split; [rewrite (depth_child on c Hc); cbn; lia|].
    apply Forall_singleton. cbn. split; [by left|right; by apply desc_child].
  - assert (Hpr : on < p < c) by (destruct Hp, Hg; lia).
    assert (Hgc : is_grandchild on c) by (by exists p).
    rewrite Swap_log by lia. rewrite res_bind_Ok. cbv zeta.
    assert (Hpar : mmheap.parent c = p).
    { apply parent_child; [assumption|]. unfold int.max_int in *. lia. }
    rewrite Hpar. cbn [heap.Less loggedHeap elems].
    rewrite (slice_less_ok less dflt) by (rewrite exchange_len; lia).
    rewrite res_bind_Ok.
    set (b := eqb lvl _). intros Hrun.
    assert (Hstep : exists h2 sw2,
      (if b then heap.Swap (Interface := L)
                   (Logged (exchange h on c) (log ++ [(on, c)])) c p
       else Ok (Logged (exchange h on c) (log ++ [(on, c)])))
      = Ok (Logged h2 (log ++ sw2)) /\
      h2 = replay h sw2 /\ slice_len h2 = slice_len h /\
      sw2 <> [] /\ Z.of_nat (length sw2) <= 2 /\
      Forall (fun ij => (ij.1 = on \/ descendant on ij.1) /\
                        (ij.2 = on \/ descendant on ij.2)) sw2).
    { destruct b.
      - rewrite Swap_log by (rewrite exchange_len; lia).
        exists (exchange (exchange h on c) c p), [(on, c); (c, p)].
        split; [by rewrite <- app_assoc|]. split; [reflexivity|].
        split; [by rewrite !exchange_len|]. split; [done|].
        split; [cbn; lia|].
        apply Forall_cons. cbn.
        split; [split; [by left|right; by apply desc_grandchild]|].
        apply Forall_singleton. cbn.
        split; right; [by apply desc_grandchild|by apply desc_child].
      - exists (exchange h on c), [(on, c)].
        split; [reflexivity|]. split; [reflexivity|].
        split; [by rewrite exchange_len|]. split; [done|].
        split; [cbn; lia|].
        apply Forall_singleton. cbn.
        split; [by left|right; by apply desc_grandchild]. }
    destruct Hstep
      as (h2 & sw2 & Hst & Hh2 & Hlen2 & Hne2 & Hcount2 & Hfoot2).
    rewrite Hst, res_bind_Ok in Hrun.
    apply IH in Hrun; try lia.
    destruct Hrun as (sw & Hlog & Helems & Hon' & Hcount & Hfoot).
    exists (sw2 ++ sw). split; [by rewrite Hlog, app_assoc|].
    split; [by rewrite replay_app, <- Hh2|].
    assert (Hdc : descendant on c) by (by apply desc_grandchild).
    split.
    { right. assert (Hne : sw2 ++ sw <> []).
      { by intros [E _]%app_eq_nil. }
      destruct Hon' as [[-> _]|(Hd & Hlt & _)];
        [split; [assumption|split; [lia|assumption]]|].
      split; [by eapply desc_trans|split; assumption]. }
    split.
    { rewrite length_app, (depth_grandchild on c Hgc) in *. lia. }
    apply Forall_app. split; [exact Hfoot2|].
    eapply Forall_impl; [exact Hfoot|]. intros [a b'] [Ha Hb]. cbn in *.
    split.
    + right. destruct Ha as [->|Ha]; [assumption|by eapply desc_trans].
    + right. destruct Hb as [->|Hb]; [assumption|by eapply desc_trans].
Qed.

(** The calls to [Swap] of the loop of [up]: one for two levels, all of
    them at [on] or above. *)
Lemma up_loop_log fuel : forall (h : list A) log lvl on H',
  0 <= on < slice_len h -> slice_len h <= int.max_int ->
  mmheap.up_loop (I := L) fuel (Logged h log) lvl on = Ok H' ->
  exists sw,
    swaps H' = log ++ sw /\ elems H' = replay h sw /\
    2 * Z.of_nat (length sw) <= depth on /\
    Forall (fun ij => (ij.1 = on \/ descendant ij.1 on) /\
                      (ij.2 = on \/ descendant ij.2 on)) sw.
Proof.
  induction fuel as [|fuel IH]; intros h log lvl on H' Hon Hlen;
    [discriminate|].
  cbn [mmheap.up_loop]. unfold mmheap.hasGrandparent.
  destruct (Z.gtb_spec on 2) as [Hgp|Hgp].
  2:{ intros [= <-]. exists []. split; [by rewrite app_nil_r|].
      split; [reflexivity|]. split; [|constructor].
      cbn. pose proof (depth_nonneg on). lia. }
  destruct (grandparent_eq on) as [Hg Hp];
    [unfold int.max_int in *; lia|].
  set (gp := mmheap.grandparent on) in *.
  set (p := mmheap.parent on) in *. clearbody gp p.
  assert (Hlt : 0 <= gp < p /\ p < on) by (destruct Hg, Hp; lia).
  assert (Hgc : is_grandchild gp on) by (by exists p).
  cbn [heap.Less loggedHeap elems].
  rewrite (slice_less_ok less dflt) by lia. rewrite res_bind_Ok.
  destruct (eqb lvl _).
  2:{ intros [= <-]. exists []. split; [by rewrite app_nil_r|].
      split; [reflexivity|]. split; [|constructor].
      cbn. pose proof (depth_nonneg on). lia. }
  rewrite Swap_log by lia. rewrite res_bind_Ok. intros Hrun.
  apply IH in Hrun; [|rewrite exchange_len; lia..].
  destruct Hrun as (sw & Hlog & Helems & Hcount & Hfoot).
  exists ((on, gp) :: sw).
  split; [by rewrite Hlog, <- app_assoc|]. split; [exact Helems|].
  split.
  { rewrite (depth_grandchild gp on Hgc). cbn [length]. lia. }
  assert (Hd : descendant gp on) by (by apply desc_grandchild).
  apply Forall_cons. cbn. split; [split; [by left|by right]|].
  eapply Forall_impl; [exact Hfoot|]. intros [a b] [Ha Hb]. cbn in *.
  split.
  - right. destruct Ha as [->|Ha]; [assumption|by eapply desc_trans].
  - right. destruct Hb as [->|Hb]; [assumption|by eapply desc_trans].
Qed.

(** The calls to [Swap] of [up]. *)
Lemma up_log fuel (h : list A) log on H' :
  0 <= on < slice_len h -> slice_len h <= int.max_int ->
  mmheap.up (I := L) fuel (Logged h log) on = Ok H' ->
  exists sw,
    swaps H' = log ++ sw /\ elems H' = replay h sw /\
    2 * Z.of_nat (length sw) <= depth on + 1 /\
    Forall (fun ij => (ij.1 = on \/ descendant ij.1 on) /\
                      (ij.2 = on \/ descendant ij.2 on)) sw.
Proof.
  intros Hon Hlen. unfold mmheap.up. unfold mmheap.hasParent.
  destruct (Z.gtb_spec on 0) as [Hp|Hp].
  2:{ rewrite res_bind_Ok. intros Hrun.
      apply up_loop_log in Hrun; [|lia..].
      destruct Hrun as (sw & Hlog & Helems & Hcount & Hfoot).
      exists sw. repeat split; try assumption. lia. }
  pose proof (child_parent on ltac:(unfold int.max_int in *; lia)) as Hc.
  set (p := mmheap.parent on) in *. clearbody p.
  assert (Hlt : 0 <= p < on) by (destruct Hc; lia).
  cbn [heap.Less loggedHeap elems].
  rewrite (slice_less_ok less dflt) by lia. rewrite res_bind_Ok.
  destruct (eqb _ _).
  2:{ rewrite res_bind_Ok. intros Hrun.
      apply up_loop_log in Hrun; [|lia..].
      destruct Hrun as (sw & Hlog & Helems & Hcount & Hfoot).
      exists sw. repeat split; try assumption. lia. }
  rewrite Swap_log by lia. rewrite !res_bind_Ok. intros Hrun.
  apply up_loop_log in Hrun; [|rewrite exchange_len; lia..].
  destruct Hrun as (sw & Hlog & Helems & Hcount & Hfoot).
  exists ((on, p) :: sw).
  split; [by rewrite Hlog, <- app_assoc|]. split; [exact Helems|].
  split.
  { rewrite (depth_child p on Hc). cbn [length]. lia. }
  assert (Hd : descendant p on) by (by apply desc_child).
  apply Forall_cons. cbn. split; [split; [by left|by right]|].
  eapply Forall_impl; [exact Hfoot|]. intros [a b] [Ha Hb]. cbn in *.
  split.
  - right. destruct Ha as [->|Ha]; [assumption|by eapply desc_trans].
  - right. destruct Hb as [->|Hb]; [assumption|by eapply desc_trans].
Qed.

(** The calls to [Swap] of [down]: none when it answers false. *)
Lemma down_log fuel (h : list A) log i n H' moved :
  0 <= i <= int.max_int -> 0 <= n <= slice_len h ->
  slice_len h <= int.max_int ->
  mmheap.down (I := L) fuel (Logged h log) i n = Ok (H', moved) ->
  exists sw,
    swaps H' = log ++ sw /\ elems H' = replay h sw /\
    (moved = false <-> sw = []) /\
    (sw = [] \/ Z.of_nat (length sw) <= depth (n - 1) - depth i) /\
    Forall (fun ij => (ij.1 = i \/ descendant i ij.1) /\
                      (ij.2 = i \/ descendant i ij.2)) sw.
Proof.
  intros Hi Hn Hlen. unfold mmheap.down.
  destruct (mmheap.down_loop fuel (Logged h log) n (mmheap.isMinLevel i) i)
    as [[H1 on']| |] eqn:Hrun; try discriminate.
  rewrite res_bind_Ok. intros [= <- <-].
  apply down_loop_log in Hrun; [|lia..].
  destruct Hrun as (sw & Hlog & Helems & Hon' & Hcount & Hfoot).
  exists sw. split; [exact Hlog|]. split; [exact Helems|].
  split; [|split; [|exact Hfoot]].
  - destruct Hon' as [[-> ->]|(Hd & _ & Hne)].
    + by rewrite Z.gtb_ltb, Z.ltb_irrefl.
    + apply desc_lt in Hd. split; [|done].
      intros Hm. rewrite Z.gtb_ltb in Hm. apply Z.ltb_ge in Hm. lia.
  - destruct Hon' as [[-> ->]|(Hd & Hlt & _)]; [by left|].
    right. pose proof (desc_lt _ _ Hd).
    pose proof (depth_mono on' (n - 1) ltac:(lia)). lia.
Qed.

End Log.

Lemma zget_exchange_other {A : Type} (h : list A) i j k :
  k <> i -> k <> j -> zget (exchange h i j) k = zget h k.
Proof.
  intros Hi Hj. destruct (zget h i) as [x|] eqn:Ex.
  - destruct (zget h j) as [y|] eqn:Ey.
    + rewrite zget_exchange by (by eapply zget_range).
      destruct (Z.eqb_spec k j); [done|]. by destruct (Z.eqb_spec k i).
    + unfold exchange. by rewrite Ex, Ey.
  - unfold exchange. by rewrite Ex.
Qed.

(** An index that no call to [Swap] names keeps its element. *)
Lemma replay_frame {A : Type} (h : list A) sw j :
  Forall (fun ij => ij.1 <> j /\ ij.2 <> j) sw ->
  zget (replay h sw) j = zget h j.
Proof.
  induction sw as [|[a b] sw IH] using rev_ind; [reflexivity|].
  intros [Hsw [[Ha Hb] _]%Forall_cons]%Forall_app. cbn in *.
  rewrite replay_snoc, zget_exchange_other by done. by apply IH.
Qed.

Section PackageLog.
Context {A : Type} (less : A -> A -> bool).
Local Abbreviation L := (loggedHeap less).
Local Abbreviation S := (sliceHeap less).

Lemma Fix_log fuel (h : list A) i :
  0 <= i < slice_len h -> slice_len h <= int.max_int ->
  (length h < fuel)%nat ->
  exists h' sw,
    mmheap.Fix (I := S) fuel h i = Ok h' /\
    mmheap.Fix (I := L) fuel (Logged h []) i = Ok (Logged h' sw) /\
    h' = replay h sw /\
    Z.of_nat (length sw) <= Z.log2 (slice_len h) /\
    Forall (fun ij => on_path i ij.1 /\ on_path i ij.2) sw.
Proof.
  intros Hi Hlen Hfuel.
  destruct (zget_is_Some h i Hi) as [dflt _].
  destruct (Fix_spec less fuel h i Hi Hlen Hfuel) as (h' & Hrun & _).
  pose proof (Fix_sim less h [] fuel _ _ i (reached_start h [])) as Hsim.
  rewrite Hrun in Hsim.
  destruct (mmheap.Fix fuel (Logged h []) i) as [[l sw]| |] eqn:HL;
    try done.
  destruct Hsim as [E (sw' & Hsw & Hh')]. cbn in E, Hsw. subst l sw.
  exists h', sw'. split; [exact Hrun|]. split; [reflexivity|].
  split; [exact Hh'|].
  assert (HD : depth (slice_len h - 1) = Z.log2 (slice_len h)).
  { unfold depth. f_equal. lia. }
  pose proof (Z.log2_nonneg (slice_len h)) as Hnn.
  pose proof (depth_nonneg i) as Hdi.
  pose proof (depth_mono i (slice_len h - 1) ltac:(lia)) as Hmono.
  revert HL. unfold mmheap.Fix. cbn [heap.Len loggedHeap elems].
  destruct (mmheap.down fuel (Logged h []) i (slice_len h))
    as [[H1 moved]| |] eqn:Hd; try discriminate.
  rewrite res_bind_Ok.
  apply (down_log less dflt) in Hd; [|lia..].
  destruct Hd as (sw1 & Hlog1 & Helems1 & Hstay & Hcount1 & Hfoot1).
  destruct H1 as [h1 log1]. cbn [swaps elems app] in *. subst log1.
  destruct moved; cbn [negb].
  - intros [= -> ->]. split.
    + destruct Hcount1 as [->|Hc]; cbn [length]; lia.
    + eapply Forall_impl; [exact Hfoot1|]. intros [a b] [Ha Hb].
      unfold on_path. cbn in *. tauto.
  - rewrite (proj1 Hstay eq_refl) in *. cbn in Helems1. subst h1.
    intros Hup. apply (up_log less dflt) in Hup; [|lia..].
    destruct Hup as (sw2 & Hlog2 & _ & Hcount2 & Hfoot2).
    cbn [swaps app] in Hlog2. subst sw2. split; [lia|].
    eapply Forall_impl; [exact Hfoot2|]. intros [a b] [Ha Hb].
    unfold on_path. cbn in *. tauto.
Qed.

(** X12. [Fix] at an index of a slice of [n] elements calls [Swap] at
    most [log2 n] times, rounded down, and only with indices that are
    [i], above [i] or below [i]. *)
Theorem Fix_swaps_logarithmic (h : list A) (i : Z) (fuel : nat) :
  0 <= i < slice_len h -> slice_len h <= int.max_int ->
  (length h < fuel)%nat ->
  exists h' sw,
    mmheap.Fix (I := L) fuel (Logged h []) i = Ok (Logged h' sw) /\
    Z.of_nat (length sw) <= Z.log2 (slice_len h) /\
    Forall (fun ij => on_path i ij.1 /\ on_path i ij.2) sw.
Proof.
  intros Hi Hlen Hfuel.
  destruct (Fix_log fuel h i Hi Hlen Hfuel)
    as (h' & sw & _ & Hrun & _ & Hcount & Hfoot).
  by exists h', sw.
Qed.

(** X13. [Fix] at [i] leaves in place every element whose index is
    neither [i], nor above [i], nor below [i]. *)
Theorem Fix_leaves_off_path (h : list A) (i : Z) (fuel : nat) :
  0 <= i < slice_len h -> slice_len h <= int.max_int ->
  (length h < fuel)%nat ->
  exists h',
    mmheap.Fix (I := S) fuel h i = Ok h' /\
    forall j, ~ on_path i j -> zget h' j = zget h j.
Proof.
  intros Hi Hlen Hfuel.
  destruct (Fix_log fuel h i Hi Hlen Hfuel)
    as (h' & sw & Hrun & _ & -> & _ & Hfoot).
  eexists. split; [exact Hrun|]. intros j Hj. apply replay_frame.
  eapply Forall_impl; [exact Hfoot|]. intros [a b] [Ha Hb]. cbn in *.
  split; intros ->; contradiction.
Qed.

End PackageLog.

Section PushPopLog.
Context {A : Type} (less : A -> A -> bool).
Local Abbreviation L := (loggedHeap less).
Local Abbreviation S := (sliceHeap less).

(** X14. [Push] on a slice of [n] elements returns, on the slice that
    logs its calls as on the plain one; it calls [Swap] at most
    [(log2 (n + 1) + 1) / 2] times, and only with the new index [n] and
    indices above it. *)
Theorem Push_swaps_bounded (h : list A) (x : A) (fuel : nat) :
  slice_len h < int.max_int -> (length h < fuel)%nat ->
  exists h' sw,
    mmheap.Push (I := S) fuel h x = Ok h' /\
    mmheap.Push (I := L) fuel (Logged h []) x = Ok (Logged h' sw) /\
    h' = replay (h ++ [x]) sw /\
    2 * Z.of_nat (length sw) <= Z.log2 (slice_len h + 1) + 1 /\
    Forall (fun ij =>
              (ij.1 = slice_len h \/ descendant ij.1 (slice_len h)) /\
              (ij.2 = slice_len h \/ descendant ij.2 (slice_len h))) sw.
Proof.
  intros Hlen Hfuel.
  assert (H0 : 0 <= slice_len h) by (unfold slice_len; lia).
  destruct (Push_spec less fuel h x Hlen Hfuel) as (h' & Hrun & _).
  assert (EL : mmheap.Push (I := L) fuel (Logged h []) x
               = mmheap.up (I := L) fuel (Logged (h ++ [x]) [])
                   (slice_len h)).
  { unfold mmheap.Push. cbn [heap.Push heap.Len loggedHeap elems swaps].
    unfold slice_push. rewrite !res_bind_Ok. cbn [elems].
    rewrite slice_len_app, sub_id by (unfold int.max_int in *; lia).
    f_equal. lia. }
  exists h'. rewrite Hrun, EL. rewrite Push_unfold in Hrun.
  rewrite slice_len_app in Hrun.
  rewrite sub_id in Hrun by (unfold int.max_int in *; lia).
  replace (slice_len h + 1 - 1) with (slice_len h) in Hrun by lia.
  pose proof (up_sim less (h ++ [x]) [] fuel _ _ (slice_len h)
                (reached_start (h ++ [x]) [])) as Hsim.
  rewrite Hrun in Hsim.
  destruct (mmheap.up fuel (Logged (h ++ [x]) []) (slice_len h))
    as [[l sw]| |] eqn:HL; try done.
  destruct Hsim as [E (sw' & Hsw & Hh')]. cbn in E, Hsw. subst l sw.
  exists sw'. split; [reflexivity|]. split; [reflexivity|].
  split; [exact Hh'|].
  apply (up_log less x) in HL;
    [|rewrite slice_len_app; unfold int.max_int in *; lia..].
  destruct HL as (sw2 & Hlog2 & _ & Hcount2 & Hfoot2).
  cbn [swaps app] in Hlog2. subst sw2. split; [exact Hcount2|exact Hfoot2].
Qed.

(** X15. [Pop] on a slice of [n >= 1] elements returns, on the slice
    that logs its calls as on the plain one, and calls [Swap] at most
    [1 + log2 (n - 1)] times, the one with the last index included. *)
Theorem Pop_swaps_bounded (h : list A) (fuel : nat) :
  1 <= slice_len h <= int.max_int -> (length h < fuel)%nat ->
  exists v h' sw,
    mmheap.Pop (I := S) fuel h = Ok (v, h') /\
    mmheap.Pop (I := L) fuel (Logged h []) = Ok (v, Logged h' sw) /\
    Z.of_nat (length sw) <= 1 + Z.log2 (slice_len h - 1).
Proof.
  intros Hlen Hfuel.
  destruct (zget_is_Some h 0 ltac:(lia)) as [dflt _].
  destruct (Pop_spec less dflt fuel h Hlen Hfuel)
    as (h2 & moved & v & _ & Hdown & Hpop & _ & Hrun & _).
  set (n := slice_len h - 1) in *.
  exists v, (take (Z.to_nat n) h2). rewrite Hrun.
  unfold mmheap.Pop. cbn [heap.Len loggedHeap elems].
  rewrite sub_id by (unfold int.max_int in *; lia). fold n.
  rewrite Swap_log by lia. rewrite res_bind_Ok.
  pose proof (down_sim less (exchange h 0 n) [(0, n)] fuel _ _ 0 n
                (reached_start (exchange h 0 n) [(0, n)])) as Hsim.
  rewrite Hdown in Hsim. cbn [app] in *.
  destruct (mmheap.down fuel (Logged (exchange h 0 n) [(0, n)]) 0 n)
    as [[H2 moved']| |] eqn:HL; try done.
  destruct Hsim as [[E _] _]. cbn in E.
  apply (down_log less dflt) in HL;
    [|rewrite ?exchange_len; unfold int.max_int in *; lia..].
  destruct HL as (sw1 & Hlog1 & _ & _ & Hcount1 & _).
  destruct H2 as [l2 log2]. cbn [elems swaps] in *. subst l2 log2.
  rewrite res_bind_Ok. cbn [heap.Pop loggedHeap elems swaps].
  rewrite Hpop, res_bind_Ok.
  exists ([(0, n)] ++ sw1). split; [reflexivity|]. split; [reflexivity|].
  rewrite length_app. cbn [length].
  pose proof (Z.log2_nonneg n).
  destruct Hcount1 as [->|Hc]; [cbn [length]; lia|].
  pose proof (depth_nonneg 0). unfold depth at 1 in Hc.
  replace (n - 1 + 1) with n in Hc by lia. lia.
Qed.

(** X16. What [down] answers: [down(h, i, n)] returns, answers false
    exactly when it has called [Swap] not once, and calls it only with
    [i] and indices below [i]. *)
Theorem down_reports_move (h : list A) (i n : Z) (fuel : nat) :
  0 <= i < n -> n <= slice_len h -> slice_len h <= int.max_int ->
  (length h < fuel)%nat ->
  exists h' sw moved,
    mmheap.down (I := S) fuel h i n = Ok (h', moved) /\
    mmheap.down (I := L) fuel (Logged h []) i n = Ok (Logged h' sw, moved) /\
    h' = replay h sw /\
    (moved = false <-> sw = []) /\
    Forall (fun ij => (ij.1 = i \/ descendant i ij.1) /\
                      (ij.2 = i \/ descendant i ij.2)) sw.
Proof.
  intros Hi Hn Hlen Hfuel.
  destruct (zget_is_Some h i ltac:(lia)) as [dflt _].
  destruct (down_spec less dflt fuel h i n)
    as (h' & moved & Hrun & _); try (unfold int.max_int in *; lia).
  pose proof (down_sim less h [] fuel _ _ i n (reached_start h [])) as Hsim.
  rewrite Hrun in Hsim.
  destruct (mmheap.down fuel (Logged h []) i n)
    as [[[l sw] moved']| |] eqn:HL; try done.
  destruct Hsim as [[E _] Em]. cbn in E, Em. subst l moved'.
  apply (down_log less dflt) in HL; [|unfold int.max_int in *; lia..].
  destruct HL as (sw1 & Hlog & Helems & Hmoved & _ & Hfoot).
  cbn [swaps elems app] in *. subst sw1.
  by exists h', sw, moved.
Qed.

End PushPopLog.

(** ** The invariant through [Init], [Push] and [Pop] *)

Section Keeps.
Context {A : Type} (less : A -> A -> bool) `{!StrictWeakOrder less}.
Local Abbreviation I := (sliceHeap less).

(** X1. [Init] on a slice that is not empty returns and leaves a min-max
    heap of the same elements; index 0 then holds a minimum of them, and
    the index [Max] gives holds a maximum. *)
Theorem Init_makes_heap (l : list A) (fuel : nat) :
  1 <= slice_len l <= int.max_int -> (length l < fuel)%nat ->
  exists h lo i hi,
    mmheap.Init (I := I) fuel l = Ok h /\ h ≡ₚ l /\ MinMaxHeap less h /\
    zget h 0 = Some lo /\ mmheap.Max (I := I) h = Ok i /\
    zget h i = Some hi /\
    forall x, x ∈ l -> leq less lo x /\ leq less x hi.
Proof.
  intros Hlen Hfuel.
  destruct (Init_heap less l fuel ltac:(lia) Hfuel)
    as (h & Hrun & Hperm & Hheap).
  assert (Hlen' : slice_len h = slice_len l).
  { unfold slice_len. by rewrite (Permutation_length Hperm). }
  destruct (zget_is_Some h 0 ltac:(lia)) as [lo Hlo].
  destruct (Max_spec less h Hheap ltac:(lia))
    as (i & hi & Hmax & _ & Hhi & Hall).
  exists h, lo, i, hi. repeat (split; [assumption|]).
  intros x Hx. rewrite <- Hperm in Hx.
  split; [by apply (root_min less h)|by apply Hall].
Qed.

(** X2. [Push] on a min-max heap returns and leaves a min-max heap of
    the elements held and the one pushed. *)
Theorem Push_keeps_heap (h : list A) (x : A) (fuel : nat) :
  MinMaxHeap less h -> slice_len h < int.max_int -> (length h < fuel)%nat ->
  exists h',
    mmheap.Push (I := I) fuel h x = Ok h' /\
    h' ≡ₚ x :: h /\ MinMaxHeap less h'.
Proof.
  intros Hh Hlen Hfuel.
  destruct (Push_spec less fuel h x Hlen Hfuel) as (h' & Hrun & Hperm & Hheap).
  exists h'. split; [exact Hrun|]. split; [exact Hperm|]. by apply Hheap.
Qed.

(** X3. [Pop] on a min-max heap that is not empty returns and leaves a
    min-max heap of the elements held but the one returned. *)
Theorem Pop_keeps_heap (h : list A) (fuel : nat) :
  MinMaxHeap less h -> 1 <= slice_len h <= int.max_int ->
  (length h < fuel)%nat ->
  exists v h',
    mmheap.Pop (I := I) fuel h = Ok (v, h') /\
    h ≡ₚ v :: h' /\ MinMaxHeap less h'.
Proof.
  intros Hh Hlen Hfuel.
  destruct (zget_is_Some h 0 ltac:(lia)) as [d0 _].
  destruct (Pop_spec less d0 fuel h Hlen Hfuel)
    as (h2 & moved & v & _ & _ & _ & _ & Hrun & _ & Hperm & Hheap).
  eexists v, _. split; [exact Hrun|]. split; [exact Hperm|]. by apply Hheap.
Qed.

End Keeps.

(** ** The index arithmetic of [down] against that of [up] *)

(** X17. The indices [down] computes for the children and grandchildren
    of [on], where it looks at them, are taken back to [on] by [parent]
    and [grandparent]; [hasParent] and [hasGrandparent] hold of them; a
    child is on the other kind of level, a grandchild on the same. *)
Theorem progeny_round_trip (on n : Z) (c : mmheap.progeny) :
  0 <= on <= int.max_int -> 0 <= n <= int.max_int ->
  c ∈ considered n (mmheap.progenies on) ->
  match mmheap.rel c with
  | mmheap.self => False
  | mmheap.child =>
      mmheap.hasParent (mmheap.index c) = true /\
      mmheap.parent (mmheap.index c) = on /\
      mmheap.isMinLevel (mmheap.index c) = negb (mmheap.isMinLevel on)
  | mmheap.grandchild =>
      mmheap.hasGrandparent (mmheap.index c) = true /\
      mmheap.grandparent (mmheap.index c) = on /\
      is_child on (mmheap.parent (mmheap.index c)) /\
      mmheap.isMinLevel (mmheap.index c) = mmheap.isMinLevel on
  end.
Proof.
  intros Hon Hn. rewrite considered_progenies by assumption.
  intros [Hc Hrel]%valid_family_elem; [|lia].
  destruct c as [c r]. cbn [mmheap.index mmheap.rel] in *.
  rewrite !isMinLevel_depth by lia.
  destruct Hrel as [[-> Hch]|[-> [p [Hp Hg]]]].
  - split; [apply Z.gtb_lt; destruct Hch; lia|].
    split; [apply parent_child; [assumption|unfold int.max_int in *; lia]|].
    by apply level_child.
  - assert (Hpc : mmheap.parent c = p).
    { apply parent_child; [assumption|unfold int.max_int in *; lia]. }
    assert (Hpr : on < p < c) by (destruct Hp, Hg; lia).
    split; [apply Z.gtb_lt; destruct Hp, Hg; lia|].
    unfold mmheap.grandparent. rewrite Hpc.
    split; [apply parent_child; [assumption|unfold int.max_int in *; lia]|].
    split; [assumption|]. apply level_grandchild. by exists p.
Qed.

(** ** [Init] on a heap *)

Section InitStays.
Context {H A : Type} {I : heap.Interface H A}.

Lemma Init_loop_stays fuel (h : H) n k :
  (forall i, (i < k)%nat ->
     mmheap.down fuel h (Z.of_nat i) n = Ok (h, false)) ->
  mmheap.Init_loop fuel h n k = Ok h.
Proof.
  induction k as [|k IH]; intros Hd; [reflexivity|].
  cbn [mmheap.Init_loop]. rewrite Hd by lia. rewrite res_bind_Ok.
  apply IH. intros i Hi. apply Hd. lia.
Qed.

End InitStays.

Section InitNoTies.
Context {A : Type} (less : A -> A -> bool).

(** X18. [Init] on a min-max heap in which no element at odd depth ties
    with an element below it calls [Swap] not once and leaves the slice
    as it is. *)
Theorem Init_without_ties_is_noop (h : list A) (fuel : nat)
    (log : list (Z * Z)) :
  MinMaxHeap less h -> slice_len h <= int.max_int -> (0 < fuel)%nat ->
  (forall i d x y, Z.even (depth i) = false -> descendant i d ->
     zget h i = Some x -> zget h d = Some y -> ~ tied less x y) ->
  mmheap.Init (I := loggedHeap less) fuel (Logged h log)
  = Ok (Logged h log).
Proof.
  intros Hh Hlen Hfuel Hties. destruct fuel as [|fuel]; [lia|].
  unfold mmheap.Init. cbn [heap.Len loggedHeap elems].
  assert (Hn : 0 <= slice_len h) by (unfold slice_len; lia).
  assert (Ek : int.sub (int.div (slice_len h) 2) 1 + 1 = slice_len h / 2).
  { unfold int.max_int in *. unfold int.div. rewrite (wrap_id (_ ÷ _)) by lia.
    rewrite sub_id; lia. }
  rewrite Ek. apply Init_loop_stays. intros k Hk.
  set (i := Z.of_nat k).
  assert (Hi : 0 <= i < slice_len h) by lia.
  destruct (zget_is_Some h i Hi) as [x Hx].
  assert (Ex : val x h i = x) by (by apply val_get).
  apply down_stays. cbn [heap.Len loggedHeap elems].
  rewrite select_considered, considered_progenies by lia.
  apply select_all_keep. apply Forall_forall. intros c Hc.
  apply valid_family_elem in Hc as [Hcn Hrel]; [|lia].
  cbn [heap.Less loggedHeap elems mmheap.index].
  assert (Hic : descendant i (mmheap.index c)).
  { destruct Hrel as [[_ Hc]|[_ [p [Hp Hc]]]].
    - by apply desc_child.
    - apply desc_grandchild. by exists p. }
  rewrite (slice_less_ok less x) by lia. rewrite Ex.
  eexists. split; [reflexivity|].
  rewrite isMinLevel_depth by lia. apply not_chosen.
  - apply (Hh i (mmheap.index c)); auto; [lia|]. apply zget_val. lia.
  - destruct (Z.even (depth i)) eqn:E; [by left|right].
    apply (Hties i (mmheap.index c)); auto. apply zget_val. lia.
Qed.

End InitNoTies.

(** ** One implementation of [heap.Interface] against another *)

Section Refinement.
Context {H1 H2 A : Type}.
Context {I1 : heap.Interface H1 A} {I2 : heap.Interface H2 A}.
Context (R : H1 -> H2 -> Prop).
Hypothesis Len_R : forall a b, R a b -> heap.Len a = heap.Len b.
Hypothesis Less_R :
  forall a b i j, R a b -> heap.Less a i j = heap.Less b i j.
Hypothesis Swap_R :
  forall a b i j, R a b -> agree R (heap.Swap a i j) (heap.Swap b i j).
Hypothesis Push_R :
  forall a b x, R a b -> agree R (heap.Push a x) (heap.Push b x).
Hypothesis Pop_R :
  forall a b, R a b ->
    agree (fun x y => x.1 = y.1 /\ R x.2 y.2) (heap.Pop a) (heap.Pop b).









End Refinement.

(** ** The oracle of the tests *)

Lemma bad_extreme lvl x y :
  eqb lvl (y <? x) && negb (y =? x) = false <-> extreme Z.ltb lvl x y.
Proof.
  unfold extreme, leq.
  destruct lvl, (Z.ltb_spec y x), (Z.ltb_spec x y), (Z.eqb_spec y x);
    cbn; split; intros; try done; lia.
Qed.

Lemma verify_child_spec (h : list Z) i j jmsg dir t :
  0 <= i < slice_len h -> 0 <= j < slice_len h ->
  slice_len h <= int.max_int ->
  exists errs failed,
    test.verify_child h i j jmsg dir t = Ok (t ++ errs, failed) /\
    (failed = false -> errs = []) /\ (failed = true -> errs <> []) /\
    (failed = false <->
     extreme Z.ltb (Z.even (depth i)) (val 0 h i) (val 0 h j)).
Proof.
  intros Hi Hj Hlen. unfold test.verify_child.
  rewrite (slice_less_ok Z.ltb 0) by assumption. rewrite res_bind_Ok.
  rewrite !(slice_get_ok 0) by assumption.
  rewrite isMinLevel_depth by lia.
  set (lvl := Z.even (depth i)). set (x := val 0 h i). set (y := val 0 h j).
  pose proof (bad_extreme lvl x y) as Hbad.
  destruct (eqb lvl (y <? x)); rewrite ?res_bind_Ok; cbn [andb] in Hbad.
  - destruct (negb (y =? x)).
    + rewrite ?res_bind_Ok. eexists [_], true. split; [reflexivity|].
      split; [done|]. split; [done|]. split; [done|].
      intros Hx. by apply Hbad in Hx.
    + exists [], false. rewrite app_nil_r. split; [reflexivity|].
      split; [done|]. split; [done|]. split; [|done].
      intros _. by apply Hbad.
  - exists [], false. rewrite app_nil_r. split; [reflexivity|].
    split; [done|]. split; [done|]. split; [|done].
    intros _. by apply Hbad.
Qed.

Lemma children_ordered_leaf (h : list Z) i :
  0 <= i -> slice_len h <= 2 * i + 1 -> children_ordered h i.
Proof.
  intros Hi Hn p c x y Hp Hc Hx Hy. apply zget_range in Hy.
  assert (i <= p) by (destruct Hp as [->|Hp%desc_lt]; lia).
  destruct Hc as [_ Hc]. lia.
Qed.

Lemma children_ordered_node (h : list Z) i :
  0 <= i ->
  children_ordered h i <->
  (forall j y, is_child i j -> zget h j = Some y ->
     extreme Z.ltb (Z.even (depth i)) (val 0 h i) y) /\
  children_ordered h (2 * i + 1) /\ children_ordered h (2 * i + 2).
Proof.
  intros Hi. split.
  - intros Hall. split; [|split].
    + intros j y Hj Hy. pose proof (zget_range _ _ _ Hy).
      apply (Hall i j); auto. apply zget_val. destruct Hj. lia.
    + intros p c x y Hp. apply Hall. right.
      assert (Hc : is_child i (2 * i + 1)) by (unfold is_child; lia).
      destruct Hp as [->|Hp]; [by apply desc_child|].
      eapply desc_trans; [by apply desc_child|exact Hp].
    + intros p c x y Hp. apply Hall. right.
      assert (Hc : is_child i (2 * i + 2)) by (unfold is_child; lia).
      destruct Hp as [->|Hp]; [by apply desc_child|].
      eapply desc_trans; [by apply desc_child|exact Hp].
  - intros (Htop & Hl & Hr) p c x y Hp Hc Hx Hy.
    destruct Hp as [->|Hp].
    + rewrite <- (val_get 0 h i x Hx). by apply (Htop c).
    + destruct (desc_top _ _ Hp) as [[_ [-> | ->]]|[q [[_ [-> | ->]] Hq]]].
      * apply (Hl (2 * i + 1) c); auto.
      * apply (Hr (2 * i + 2) c); auto.
      * apply (Hl p c); auto.
      * apply (Hr p c); auto.
Qed.

Lemma verify_S fuel (h : list Z) i t :
  0 <= i <= slice_len h -> 2 * slice_len h + 2 <= int.max_int ->
  test.verify (S fuel) h i t =
  let badDirection :=
    if negb (mmheap.isMinLevel i) then "<"%string else ">"%string in
  '(t, returned) ←
    (if 2 * i + 1 <? slice_len h then
       '(t, failed) ← test.verify_child h i (2 * i + 1) (2 * i + 1)
                         badDirection t;
       if failed : bool then Ok (t, true)
       else t ← test.verify fuel h (2 * i + 1) t; Ok (t, false)
     else Ok (t, false));
  if returned : bool then Ok t
  else if 2 * i + 2 <? slice_len h then
    '(t, failed) ← test.verify_child h i (2 * i + 2) (2 * i + 1)
                      badDirection t;
    if failed : bool then Ok t else test.verify fuel h (2 * i + 2) t
  else Ok t.
Proof.
  intros Hi Hlen. cbn [test.verify]. cbv zeta.
  assert (E1 : int.add (int.mul 2 i) 1 = 2 * i + 1).
  { unfold int.max_int in *. rewrite mul_id, add_id; lia. }
  assert (E2 : int.add (int.mul 2 i) 2 = 2 * i + 2).
  { unfold int.max_int in *. rewrite mul_id, add_id; lia. }
  by rewrite E1, E2.
Qed.

Lemma verify_spec fuel : forall (h : list Z) i t,
  0 <= i <= slice_len h -> 2 * slice_len h + 2 <= int.max_int ->
  slice_len h - i < Z.of_nat fuel ->
  exists errs,
    test.verify fuel h i t = Ok (t ++ errs) /\
    (errs = [] <-> children_ordered h i).
Proof.
  induction fuel as [|fuel IH]; intros h i t Hi Hlen Hfuel; [lia|].
  rewrite verify_S by assumption. cbv zeta.
  set (dir := if negb (mmheap.isMinLevel i) then _ else _). clearbody dir.
  assert (Hnode := children_ordered_node h i ltac:(lia)).
  destruct (Z.ltb_spec (2 * i + 1) (slice_len h)) as [H1|H1].
  2:{ rewrite res_bind_Ok. cbn beta iota.
      destruct (Z.ltb_spec (2 * i + 2) (slice_len h)); [lia|].
      exists []. rewrite app_nil_r. split; [reflexivity|].
      split; [|done]. intros _. apply children_ordered_leaf; lia. }
  destruct (verify_child_spec h i (2 * i + 1) (2 * i + 1) dir t)
    as (e1 & failed1 & Hrun1 & Hnil1 & Hne1 & Hok1);
    [unfold int.max_int in *; lia..|].
  rewrite Hrun1, res_bind_Ok. cbn beta iota.
  assert (Hc1 : is_child i (2 * i + 1)) by (unfold is_child; lia).
  assert (Hc2 : is_child i (2 * i + 2)) by (unfold is_child; lia).
  destruct failed1.
  { rewrite res_bind_Ok. cbn beta iota. exists e1. split; [reflexivity|].
    split; [intros E; by apply Hne1 in E|].
    intros (Htop & _)%Hnode. exfalso.
    assert (true = false); [|done]. apply Hok1.
    apply (Htop (2 * i + 1)); [assumption|]. apply zget_val. lia. }
  rewrite (Hnil1 eq_refl), app_nil_r in *.
  destruct (IH h (2 * i + 1) t) as (e2 & Hrun2 & Hiff2); try lia.
  rewrite Hrun2, !res_bind_Ok. cbn beta iota.
  pose proof (proj1 Hok1 eq_refl) as Hx1.
  destruct (Z.ltb_spec (2 * i + 2) (slice_len h)) as [H2|H2].
  2:{ exists e2. split; [reflexivity|]. rewrite Hiff2, Hnode.
      split; [|tauto]. intros Hl. split; [|split; [exact Hl|]].
      - intros j y [_ [-> | ->]] Hy.
        + by rewrite <- (val_get 0 h _ y Hy).
        + apply zget_range in Hy. lia.
      - apply children_ordered_leaf; lia. }
  destruct (verify_child_spec h i (2 * i + 2) (2 * i + 1) dir (t ++ e2))
    as (e3 & failed2 & Hrun3 & Hnil3 & Hne3 & Hok3);
    [unfold int.max_int in *; lia..|].
  rewrite Hrun3, res_bind_Ok. cbn beta iota.
  destruct failed2.
  { exists (e2 ++ e3). rewrite app_assoc. split; [reflexivity|].
    split.
    - intros [_ E]%app_eq_nil. by apply Hne3 in E.
    - intros (Htop & _)%Hnode. exfalso.
      assert (true = false); [|done]. apply Hok3.
      apply (Htop (2 * i + 2)); [assumption|]. apply zget_val. lia. }
  rewrite (Hnil3 eq_refl), app_nil_r in *.
  pose proof (proj1 Hok3 eq_refl) as Hx2.
  destruct (IH h (2 * i + 2) (t ++ e2)) as (e4 & Hrun4 & Hiff4); try lia.
  rewrite Hrun4. exists (e2 ++ e4). rewrite app_assoc.
  split; [reflexivity|]. rewrite Hnode, <- Hiff2, <- Hiff4.
  split.
  - intros [-> ->]%app_eq_nil. split; [|done].
    intros j y [_ [-> | ->]] Hy; by rewrite <- (val_get 0 h _ y Hy).
  - by intros (_ & -> & ->).
Qed.

Lemma children_ordered_root (h : list Z) :
  children_ordered h 0 <->
  forall p c x y, is_child p c -> zget h p = Some x -> zget h c = Some y ->
                  extreme Z.ltb (Z.even (depth p)) x y.
Proof.
  split.
  - intros Hall p c x y Hc Hx Hy. apply (Hall p c); auto.
    apply zget_range in Hx. destruct (Z.eq_dec p 0) as [->|Hp]; [by left|].
    right. apply desc_root. lia.
  - intros Hall p c x y _. apply Hall.
Qed.

(** X20. [verify] of the test file, from index 0 of a slice of ints,
    returns, and reports no failure exactly when every element is in
    order with its two children: not above them at even depth, not below
    them at odd depth. *)
Theorem verify_checks_children (h : list Z) (fuel : nat) :
  2 * slice_len h + 2 <= int.max_int -> (length h < fuel)%nat ->
  exists errs,
    test.verify fuel h 0 [] = Ok errs /\
    (errs = [] <->
     forall p c x y,
       is_child p c -> zget h p = Some x -> zget h c = Some y ->
       extreme Z.ltb (Z.even (depth p)) x y).
Proof.
  intros Hlen Hfuel.
  destruct (verify_spec fuel h 0 []) as (errs & Hrun & Hiff);
    try (unfold slice_len in *; lia).
  exists errs. split; [exact Hrun|]. by rewrite Hiff, children_ordered_root.
Qed.

(** X21. [verify] reports no failure on a min-max heap. *)
Theorem verify_accepts_heaps (h : list Z) (fuel : nat) :
  MinMaxHeap Z.ltb h ->
  2 * slice_len h + 2 <= int.max_int -> (length h < fuel)%nat ->
  test.verify fuel h 0 [] = Ok [].
Proof.
  intros Hh Hlen Hfuel.
  destruct (verify_spec fuel h 0 []) as (errs & Hrun & Hiff);
    try (unfold slice_len in *; lia).
  rewrite Hrun. f_equal. apply Hiff.
  intros p c x y _ Hc Hx Hy. apply (Hh p c); auto.
  - by apply desc_child.
  - apply zget_range in Hy. lia.
Qed.

(** X22. [verify] compares parents with children only: it reports no
    failure on the slice [Remove] at index 3 leaves of a min-max heap of
    twelve elements, which is not a min-max heap. *)
Theorem verify_accepts_lost_heap :
  let h := [0; 5; 9; 1; 1; 1; 1; 2; 2; 2; 2; 7] in
  let h' := [0; 5; 9; 2; 1; 1; 1; 7; 2; 2; 2] in
  MinMaxHeap Z.ltb h /\
  mmheap.Remove (I := sliceHeap Z.ltb) 13 h 3 = Ok (1, h') /\
  test.verify 12 h' 0 [] = Ok [] /\
  ~ MinMaxHeap Z.ltb h'.
Proof.
  cbv zeta. split; [by apply heap_check_sound|]. split; [by vm_compute|].
  split; [by vm_compute|].
  apply (not_heap Z.ltb _ 1 7 5 7 desc_1_7); [reflexivity|reflexivity|].
  by vm_compute.
Qed.

(** ** The two sift procedures, and calls that follow one another *)

Section SiftHeap.
Context {A : Type} (less : A -> A -> bool) `{!StrictWeakOrder less}.
Local Abbreviation I := (sliceHeap less).

(** X23. [down(h, i, n)] on a slice whose first [n] elements are in
    order but for the element at [i] against those below it: it returns
    and leaves the same elements, the first [n] of them a min-max heap,
    and the others where they were. *)
Theorem down_restores_heap (h : list A) (i n : Z) (fuel : nat) :
  0 <= i < n -> n <= slice_len h -> slice_len h <= int.max_int ->
  (length h < fuel)%nat ->
  (forall a d x y, descendant a d -> d < n -> a <> i ->
     zget h a = Some x -> zget h d = Some y ->
     extreme less (Z.even (depth a)) x y) ->
  exists h' moved,
    mmheap.down (I := I) fuel h i n = Ok (h', moved) /\
    h' ≡ₚ h /\ heap_upto less n h' /\
    forall j, n <= j -> zget h' j = zget h j.
Proof.
  intros Hi Hn Hlen Hfuel Hbut.
  destruct (zget_is_Some h i ltac:(lia)) as [dflt _].
  destruct (down_spec less dflt fuel h i n)
    as (h' & moved & Hrun & Hperm & Hlength & Hhigh & _ & Hinv);
    try (unfold int.max_int in *; lia).
  exists h', moved. split; [exact Hrun|]. split; [exact Hperm|].
  split; [|exact Hhigh].
  apply (heap_upto_val less dflt); [unfold slice_len in *; lia|].
  apply (Hinv 0); [assumption|lia|].
  intros a d _ Hne Had Hd. pose proof (desc_lt _ _ Had) as Hlt.
  apply (Hbut a d); auto; apply zget_val; lia.
Qed.

(** X24. [up(h, on)] on a slice whose first [n] elements are in order
    but for the element at [on] against those above it: it returns and
    leaves the same elements, the first [n] of them a min-max heap, and
    those past [on] where they were. *)
Theorem up_restores_heap (h : list A) (on n : Z) (fuel : nat) :
  0 <= on < n -> n <= slice_len h -> slice_len h <= int.max_int ->
  (length h < fuel)%nat ->
  (forall a d x y, descendant a d -> d < n -> d <> on ->
     zget h a = Some x -> zget h d = Some y ->
     extreme less (Z.even (depth a)) x y) ->
  exists h',
    mmheap.up (I := I) fuel h on = Ok h' /\
    h' ≡ₚ h /\ heap_upto less n h' /\
    forall j, on < j -> zget h' j = zget h j.
Proof.
  intros Hi Hn Hlen Hfuel Hexc.
  destruct (zget_is_Some h on ltac:(lia)) as [dflt _].
  destruct (up_spec less dflt fuel h on)
    as (h' & Hrun & Hperm & Hlength & Hhigh & Hinv);
    try (unfold slice_len in *; lia).
  exists h'. split; [exact Hrun|]. split; [exact Hperm|].
  split; [|exact Hhigh].
  apply (heap_upto_val less dflt); [unfold slice_len in *; lia|].
  apply Hinv; [assumption|lia|].
  intros a d Had Hd Hne. pose proof (desc_lt _ _ Had) as Hlt.
  apply (Hexc a d); auto; apply zget_val; lia.
Qed.

(** X25. [Fix] at any index of a min-max heap, nothing having changed,
    returns and leaves a min-max heap of the same elements; it may have
    swapped tied elements. *)
Theorem Fix_keeps_heap (h : list A) (i : Z) (fuel : nat) :
  MinMaxHeap less h -> 0 <= i < slice_len h -> slice_len h <= int.max_int ->
  (length h < fuel)%nat ->
  exists h',
    mmheap.Fix (I := I) fuel h i = Ok h' /\ h' ≡ₚ h /\ MinMaxHeap less h'.
Proof.
  intros Hh Hi Hlen Hfuel.
  destruct (zget_is_Some h i Hi) as [dflt _].
  destruct (sift_spec less dflt fuel h i (slice_len h))
    as (h2 & moved & h' & Hdown & Hup & Hperm & Hlength & _ & Hinv);
    try lia.
  exists h'. split.
  { rewrite Fix_unfold, Hdown, res_bind_Ok. exact Hup. }
  split; [exact Hperm|].
  pose proof (proj1 (heap_upto_val less dflt (slice_len h) h ltac:(lia)) Hh)
    as Hord.
  unfold MinMaxHeap. apply (heap_upto_val less dflt); [lia|].
  replace (slice_len h') with (slice_len h) by (unfold slice_len; lia).
  apply Hinv; [assumption| |left].
  - intros a d Had Hd _ _. apply Hord; auto. apply desc_lt in Had. lia.
  - intros a Ha. apply Hord; auto; [|lia]. apply desc_lt in Ha. lia.
Qed.

Lemma pushes_spec fuel xs : forall (h : list A),
  MinMaxHeap less h -> slice_len h + slice_len xs <= int.max_int ->
  (length h + length xs < fuel)%nat ->
  exists h',
    pushes less fuel h xs = Ok h' /\ h' ≡ₚ h ++ xs /\ MinMaxHeap less h'.
Proof.
  induction xs as [|x xs IH]; intros h Hh Hlen Hfuel.
  { exists h. split; [reflexivity|]. split; [by rewrite app_nil_r|done]. }
  unfold slice_len in *. cbn [length] in *.
  destruct (Push_spec less fuel h x) as (h1 & Hrun & Hperm & Hheap);
    [unfold slice_len, int.max_int in *; lia|lia|].
  assert (Hl1 : length h1 = S (length h)).
  { by rewrite (Permutation_length Hperm). }
  destruct (IH h1) as (h' & Hrun' & Hperm' & Hheap'); [by apply Hheap|lia..|].
  exists h'. cbn [pushes]. rewrite Hrun, res_bind_Ok.
  split; [exact Hrun'|]. split; [|exact Hheap'].
  rewrite Hperm', Hperm. cbn [app]. apply Permutation_middle.
Qed.

(** X26. [Push] called on the elements of a list one after the other,
    from the empty slice on, returns and leaves a min-max heap of these
    elements. *)
Theorem pushes_make_heap (xs : list A) (fuel : nat) :
  slice_len xs <= int.max_int -> (length xs < fuel)%nat ->
  exists h,
    pushes less fuel [] xs = Ok h /\ h ≡ₚ xs /\ MinMaxHeap less h.
Proof.
  intros Hlen Hfuel.
  destruct (pushes_spec fuel xs []) as (h & Hrun & Hperm & Hheap).
  - apply MinMaxHeap_nil.
  - unfold slice_len in *. cbn [length]. lia.
  - cbn [length]. lia.
  - by exists h.
Qed.

End SiftHeap.

(** ** What [verify] reports *)

Lemma verify_child_fails (h : list Z) i j jmsg dir t :
  0 <= i < slice_len h -> 0 <= j < slice_len h ->
  slice_len h <= int.max_int ->
  ~ extreme Z.ltb (Z.even (depth i)) (val 0 h i) (val 0 h j) ->
  test.verify_child h i j jmsg dir t
  = Ok (t ++ [test.Failure i (val 0 h i) dir jmsg (val 0 h j)], true).
Proof.
  intros Hi Hj Hlen Hbad. unfold test.verify_child.
  rewrite (slice_less_ok Z.ltb 0) by assumption. rewrite res_bind_Ok.
  rewrite !(slice_get_ok 0) by assumption.
  rewrite isMinLevel_depth by lia.
  pose proof (bad_extreme (Z.even (depth i)) (val 0 h i) (val 0 h j)) as Hb.
  destruct (eqb _ _); rewrite ?res_bind_Ok; cbn [andb] in Hb.
  - destruct (negb _); rewrite ?res_bind_Ok; [reflexivity|].
    exfalso. by apply Hbad, Hb.
  - exfalso. by apply Hbad, Hb.
Qed.

(** X27. A failure of the second child in [verify] is reported under the
    index of the first: when the left child of [i] and all below it are
    in order and the right child is not in order with [i], [verify]
    reports one failure, which names index [2i + 1] with the value at
    index [2i + 2]. *)
Theorem verify_names_left_child (h : list Z) (i : Z) (fuel : nat)
    (t : list test.failure) (x y : Z) :
  0 <= i -> 2 * i + 2 < slice_len h ->
  2 * slice_len h + 2 <= int.max_int -> (length h < fuel)%nat ->
  zget h i = Some x -> zget h (2 * i + 2) = Some y ->
  (forall z, zget h (2 * i + 1) = Some z ->
             extreme Z.ltb (Z.even (depth i)) x z) ->
  children_ordered h (2 * i + 1) ->
  ~ extreme Z.ltb (Z.even (depth i)) x y ->
  let badDirection := if Z.even (depth i) then ">"%string else "<"%string in
  test.verify fuel h i t
  = Ok (t ++ [test.Failure i x badDirection (2 * i + 1) y]).
Proof.
  intros Hi Hn Hlen Hfuel Hx Hy Hleft Hsub Hbad dir.
  destruct fuel as [|fuel]; [lia|].
  rewrite verify_S by lia. cbv zeta.
  rewrite isMinLevel_depth by (unfold int.max_int in *; lia).
  assert (Edir : (if negb (Z.even (depth i)) then "<"%string
                  else ">"%string) = dir).
  { unfold dir. by destruct (Z.even (depth i)). }
  rewrite Edir.
  destruct (Z.ltb_spec (2 * i + 1) (slice_len h)); [|lia].
  destruct (Z.ltb_spec (2 * i + 2) (slice_len h)); [|lia].
  destruct (verify_child_spec h i (2 * i + 1) (2 * i + 1) dir t)
    as (e1 & failed1 & Hrun1 & Hnil1 & _ & Hok1);
    [unfold int.max_int in *; lia..|].
  assert (failed1 = false) as ->.
  { apply Hok1. rewrite (val_get 0 h i x Hx). apply Hleft.
    apply zget_val. lia. }
  rewrite Hrun1, (Hnil1 eq_refl), app_nil_r, res_bind_Ok. cbn beta iota.
  destruct (verify_spec fuel h (2 * i + 1) t) as (e2 & Hrun2 & Hiff2);
    try (unfold slice_len in *; lia).
  rewrite (proj2 Hiff2 Hsub), app_nil_r in Hrun2.
  rewrite Hrun2, !res_bind_Ok. cbn beta iota.
  rewrite verify_child_fails; try (unfold int.max_int in *; lia).
  - rewrite res_bind_Ok. cbn beta iota.
    by rewrite (val_get 0 h i x Hx), (val_get 0 h _ y Hy).
  - by rewrite (val_get 0 h i x Hx), (val_get 0 h _ y Hy).
Qed.

(** ** The theorems at concrete slices *)

Lemma Pop_yields_sorted_witness :
  slice_len [3; 1; 2] <= int.max_int /\
  exists h out,
    mmheap.Init (I := sliceHeap Z.ltb) 4 [3; 1; 2] = Ok h /\
    drain Z.ltb 4 3 h = Ok (out, []) /\
    Sorted (leq Z.ltb) out /\ out ≡ₚ [3; 1; 2].
Proof.
  assert (H : slice_len [3; 1; 2] <= int.max_int) by (by vm_compute).
  split; [exact H|].
  apply (Pop_yields_sorted Z.ltb [3; 1; 2] 4 H). simpl. lia.
Defined.

Lemma Pop_returns_minimum_witness :
  MinMaxHeap Z.ltb [1; 3; 2] /\
  exists v h', mmheap.Pop (I := sliceHeap Z.ltb) 4 [1; 3; 2] = Ok (v, h') /\
               forall x, x ∈ [1; 3; 2] -> leq Z.ltb v x.
Proof.
  assert (H : MinMaxHeap Z.ltb [1; 3; 2]) by (by apply heap_check_sound).
  split; [exact H|].
  destruct (Pop_returns_minimum Z.ltb [1; 3; 2] 4 H)
    as (h1 & h2 & moved & v & h' & _ & _ & _ & _ & Hrun & _ & Hmin & _).
  - by vm_compute.
  - simpl. lia.
  - exists v, h'. split; [exact Hrun|exact Hmin].
Defined.

Lemma Max_is_maximum_witness :
  MinMaxHeap Z.ltb [1; 5; 9; 2; 3] /\
  exists i m, mmheap.Max (I := sliceHeap Z.ltb) [1; 5; 9; 2; 3] = Ok i /\
              zget [1; 5; 9; 2; 3] i = Some m /\
              forall x, x ∈ [1; 5; 9; 2; 3] -> leq Z.ltb x m.
Proof.
  assert (H : MinMaxHeap Z.ltb [1; 5; 9; 2; 3])
    by (by apply heap_check_sound).
  split; [exact H|].
  destruct (Max_is_maximum Z.ltb [1; 5; 9; 2; 3] H)
    as (i & m & Hrun & _ & _ & _ & Hm & Hmax).
  - by vm_compute.
  - exists i, m. split; [exact Hrun|]. split; [exact Hm|exact Hmax].
Defined.

Lemma isMinLevel_even_depth_witness :
  0 <= 5 <= int.max_int /\
  (mmheap.isMinLevel 5 = true <-> Z.even (depth 5) = true).
Proof.
  assert (H : 0 <= 5 <= int.max_int) by (by vm_compute).
  split; [exact H|]. apply (isMinLevel_even_depth 5 H).
Defined.

Lemma Fix_without_ties_is_noop_witness :
  MinMaxHeap Z.ltb [1; 5; 4; 2; 3] /\
  mmheap.Fix (I := loggedHeap Z.ltb) 1 (Logged [1; 5; 4; 2; 3] []) 1
  = Ok (Logged [1; 5; 4; 2; 3] []).
Proof.
  assert (H : MinMaxHeap Z.ltb [1; 5; 4; 2; 3])
    by (by apply heap_check_sound).
  split; [exact H|].
  apply (Fix_without_ties_is_noop Z.ltb [1; 5; 4; 2; 3] 1 5 1 [] H).
  - by vm_compute.
  - lia.
  - reflexivity.
  - right. intros j y Hj Hy. pose proof (zget_range _ _ _ Hy) as Hr.
    unfold slice_len in Hr. cbn [length] in Hr. unfold tied.
    assert (Hc : j = 0 \/ j = 2 \/ j = 3 \/ j = 4) by lia.
    destruct Hc as [-> | [-> | [-> | ->]]];
      injection Hy as <-; intros [E1 E2]; discriminate.
Defined.

Lemma down_selects_extreme_witness :
  0 <= 0 <= int.max_int /\
  exists s,
    mmheap.select (I := sliceHeap Z.ltb) [5; 3; 8; 1; 9; 2] 6 true
      (mmheap.progenies 0) (mmheap.Progeny 0 mmheap.self) = Ok s /\
    select_all (I := sliceHeap Z.ltb) [5; 3; 8; 1; 9; 2] true
      (valid_family 0 6) (mmheap.Progeny 0 mmheap.self) = Ok s.
Proof.
  assert (H : 0 <= 0 <= int.max_int) by (by vm_compute).
  split; [exact H|].
  destruct (down_selects_extreme Z.ltb [5; 3; 8; 1; 9; 2] 6 true 0 H)
    as (_ & s & Hsel & Hall & _).
  - by vm_compute.
  - by vm_compute.
  - exists s. split; [exact Hsel|exact Hall].
Defined.

Lemma Init_Fix_permute_witness :
  slice_len [3; 1; 2] <= int.max_int /\
  exists h' sw,
    mmheap.Init (I := sliceHeap Z.ltb) 4 [3; 1; 2] = Ok h' /\
    h' = replay [3; 1; 2] sw /\ h' ≡ₚ [3; 1; 2].
Proof.
  assert (H : slice_len [3; 1; 2] <= int.max_int) by (by vm_compute).
  split; [exact H|].
  destruct (Init_Fix_permute Z.ltb [3; 1; 2] 4 H)
    as [(h' & sw & Hrun & _ & Hsw & _ & Hperm) _]; [simpl; lia|].
  exists h', sw. split; [exact Hrun|]. split; [exact Hsw|exact Hperm].
Defined.

(** ** The further theorems at concrete slices *)

Lemma Init_makes_heap_witness :
  1 <= slice_len [3; 1; 2] <= int.max_int /\
  exists h, mmheap.Init (I := sliceHeap Z.ltb) 4 [3; 1; 2] = Ok h /\
            MinMaxHeap Z.ltb h.
Proof.
  assert (H : 1 <= slice_len [3; 1; 2] <= int.max_int) by (by vm_compute).
  split; [exact H|].
  destruct (Init_makes_heap Z.ltb [3; 1; 2] 4 H)
    as (h & lo & i & hi & Hrun & _ & Hheap & _); [simpl; lia|].
  exists h. by split.
Defined.

Lemma Push_keeps_heap_witness :
  MinMaxHeap Z.ltb [1; 3; 2] /\
  exists h', mmheap.Push (I := sliceHeap Z.ltb) 4 [1; 3; 2] 0 = Ok h' /\
             MinMaxHeap Z.ltb h'.
Proof.
  assert (H : MinMaxHeap Z.ltb [1; 3; 2]) by (by apply heap_check_sound).
  split; [exact H|].
  destruct (Push_keeps_heap Z.ltb [1; 3; 2] 0 4 H)
    as (h' & Hrun & _ & Hheap).
  - by vm_compute.
  - simpl. lia.
  - exists h'. by split.
Defined.

Lemma Pop_keeps_heap_witness :
  MinMaxHeap Z.ltb [1; 3; 2] /\
  exists v h', mmheap.Pop (I := sliceHeap Z.ltb) 4 [1; 3; 2] = Ok (v, h') /\
               MinMaxHeap Z.ltb h'.
Proof.
  assert (H : MinMaxHeap Z.ltb [1; 3; 2]) by (by apply heap_check_sound).
  split; [exact H|].
  destruct (Pop_keeps_heap Z.ltb [1; 3; 2] 4 H)
    as (v & h' & Hrun & _ & Hheap).
  - by vm_compute.
  - simpl. lia.
  - exists v, h'. by split.
Defined.

Lemma Remove_returns_element_witness :
  0 <= 1 < slice_len [4; 7; 5] /\
  exists v h',
    mmheap.Remove (I := sliceHeap Z.ltb) 4 [4; 7; 5] 1 = Ok (v, h') /\
    zget [4; 7; 5] 1 = Some v.
Proof.
  assert (H : 0 <= 1 < slice_len [4; 7; 5]) by (by vm_compute).
  split; [exact H|].
  destruct (Remove_returns_element Z.ltb [4; 7; 5] 1 4 H)
    as (v & h' & Hrun & Hv & _).
  - by vm_compute.
  - simpl. lia.
  - exists v, h'. by split.
Defined.

Lemma Remove_panics_out_of_range_witness :
  slice_len [1; 3; 2] <= int.max_int /\
  mmheap.Remove (I := sliceHeap Z.ltb) 4 [1; 3; 2] 3 = Panic.
Proof.
  assert (H : slice_len [1; 3; 2] <= int.max_int) by (by vm_compute).
  split; [exact H|].
  apply (Remove_panics_out_of_range Z.ltb [1; 3; 2] 3 4 H); [simpl; lia|].
  unfold slice_len. simpl. lia.
Defined.

Lemma Remove_root_is_Pop_witness :
  (0 < 4)%nat /\
  mmheap.Remove (I := sliceHeap Z.ltb) 4 [1; 3; 2] 0
  = mmheap.Pop (I := sliceHeap Z.ltb) 4 [1; 3; 2].
Proof.
  assert (H : (0 < 4)%nat) by lia.
  split; [exact H|]. apply (Remove_root_is_Pop Z.ltb [1; 3; 2] 4 H).
Defined.

Lemma Remove_keeps_heap_witness :
  MinMaxHeap Z.ltb [1; 5; 4; 2; 3] /\
  exists v h',
    mmheap.Remove (I := sliceHeap Z.ltb) 6 [1; 5; 4; 2; 3] 1 = Ok (v, h') /\
    MinMaxHeap Z.ltb h'.
Proof.
  assert (H : MinMaxHeap Z.ltb [1; 5; 4; 2; 3])
    by (by apply heap_check_sound).
  split; [exact H|].
  destruct (Remove_keeps_heap Z.ltb [1; 5; 4; 2; 3] 1 6 H)
    as (v & h' & Hrun & _ & _ & Hheap).
  - by vm_compute.
  - by vm_compute.
  - simpl. lia.
  - left. lia.
  - exists v, h'. by split.
Defined.

Lemma Remove_Max_pops_maximum_witness :
  MinMaxHeap Z.ltb [1; 5; 4; 2; 3] /\
  exists i v h',
    mmheap.Max (I := sliceHeap Z.ltb) [1; 5; 4; 2; 3] = Ok i /\
    mmheap.Remove (I := sliceHeap Z.ltb) 6 [1; 5; 4; 2; 3] i = Ok (v, h') /\
    MinMaxHeap Z.ltb h'.
Proof.
  assert (H : MinMaxHeap Z.ltb [1; 5; 4; 2; 3])
    by (by apply heap_check_sound).
  split; [exact H|].
  destruct (Remove_Max_pops_maximum Z.ltb [1; 5; 4; 2; 3] 6 H)
    as (i & v & h' & Hmax & Hrun & _ & _ & Hheap).
  - by vm_compute.
  - simpl. lia.
  - exists i, v, h'. by repeat split.
Defined.

Lemma Remove_Max_yields_sorted_witness :
  slice_len [3; 1; 2] <= int.max_int /\
  exists h out,
    mmheap.Init (I := sliceHeap Z.ltb) 4 [3; 1; 2] = Ok h /\
    remove_max Z.ltb 4 3 h = Ok (out, []) /\
    Sorted (fun x y => leq Z.ltb y x) out /\ out ≡ₚ [3; 1; 2].
Proof.
  assert (H : slice_len [3; 1; 2] <= int.max_int) by (by vm_compute).
  split; [exact H|].
  apply (Remove_Max_yields_sorted Z.ltb [3; 1; 2] 4 H). simpl. lia.
Defined.

Lemma Fix_restores_heap_witness :
  MinMaxHeap Z.ltb [1; 5; 4; 2; 3] /\
  exists h',
    mmheap.Fix (I := sliceHeap Z.ltb) 6 (<[0%nat := 9]> [1; 5; 4; 2; 3]) 0
    = Ok h' /\ MinMaxHeap Z.ltb h'.
Proof.
  assert (H : MinMaxHeap Z.ltb [1; 5; 4; 2; 3])
    by (by apply heap_check_sound).
  split; [exact H|].
  destruct (Fix_restores_heap Z.ltb [1; 5; 4; 2; 3] 0 9 6 H)
    as (h' & Hrun & _ & Hheap).
  - by vm_compute.
  - by vm_compute.
  - simpl. lia.
  - left. intros a y Ha. apply desc_lt in Ha. lia.
  - exists h'. by split.
Defined.

Lemma Fix_out_of_range_witness :
  slice_len [1; 3; 2] <= int.max_int /\
  mmheap.Fix (I := sliceHeap Z.ltb) 1 [1; 3; 2] (-1) = Ok [1; 3; 2] /\
  mmheap.Fix (I := sliceHeap Z.ltb) 1 [1; 3; 2] 3 = Panic.
Proof.
  assert (H : slice_len [1; 3; 2] <= int.max_int) by (by vm_compute).
  split; [exact H|]. split.
  - destruct (Fix_out_of_range Z.ltb [1; 3; 2] (-1) 1 H) as (_ & Hneg & _);
      [lia|]. apply Hneg. lia.
  - destruct (Fix_out_of_range Z.ltb [1; 3; 2] 3 1 H) as (Hpast & _);
      [lia|]. apply Hpast; [by vm_compute|lia].
Defined.

Lemma Fix_swaps_logarithmic_witness :
  0 <= 1 < slice_len [1; 5; 4; 2; 3] /\
  exists h' sw,
    mmheap.Fix (I := loggedHeap Z.ltb) 6 (Logged [1; 5; 4; 2; 3] []) 1
    = Ok (Logged h' sw) /\
    Z.of_nat (length sw) <= Z.log2 (slice_len [1; 5; 4; 2; 3]).
Proof.
  assert (H : 0 <= 1 < slice_len [1; 5; 4; 2; 3]) by (by vm_compute).
  split; [exact H|].
  destruct (Fix_swaps_logarithmic Z.ltb [1; 5; 4; 2; 3] 1 6 H)
    as (h' & sw & Hrun & Hcount & _).
  - by vm_compute.
  - simpl. lia.
  - exists h', sw. by split.
Defined.

Lemma Fix_leaves_off_path_witness :
  0 <= 1 < slice_len [1; 5; 4; 2; 3] /\
  exists h',
    mmheap.Fix (I := sliceHeap Z.ltb) 6 [1; 5; 4; 2; 3] 1 = Ok h' /\
    forall j, ~ on_path 1 j -> zget h' j = zget [1; 5; 4; 2; 3] j.
Proof.
  assert (H : 0 <= 1 < slice_len [1; 5; 4; 2; 3]) by (by vm_compute).
  split; [exact H|].
  apply (Fix_leaves_off_path Z.ltb [1; 5; 4; 2; 3] 1 6 H).
  - by vm_compute.
  - simpl. lia.
Defined.

Lemma Push_swaps_bounded_witness :
  slice_len [1; 3; 2] < int.max_int /\
  exists h' sw,
    mmheap.Push (I := loggedHeap Z.ltb) 4 (Logged [1; 3; 2] []) 0
    = Ok (Logged h' sw) /\
    2 * Z.of_nat (length sw) <= Z.log2 (slice_len [1; 3; 2] + 1) + 1.
Proof.
  assert (H : slice_len [1; 3; 2] < int.max_int) by (by vm_compute).
  split; [exact H|].
  destruct (Push_swaps_bounded Z.ltb [1; 3; 2] 0 4 H)
    as (h' & sw & _ & Hrun & _ & Hcount & _); [simpl; lia|].
  exists h', sw. by split.
Defined.

Lemma Pop_swaps_bounded_witness :
  1 <= slice_len [1; 3; 2] <= int.max_int /\
  exists v h' sw,
    mmheap.Pop (I := loggedHeap Z.ltb) 4 (Logged [1; 3; 2] [])
    = Ok (v, Logged h' sw) /\
    Z.of_nat (length sw) <= 1 + Z.log2 (slice_len [1; 3; 2] - 1).
Proof.
  assert (H : 1 <= slice_len [1; 3; 2] <= int.max_int) by (by vm_compute).
  split; [exact H|].
  destruct (Pop_swaps_bounded Z.ltb [1; 3; 2] 4 H)
    as (v & h' & sw & _ & Hrun & Hcount); [simpl; lia|].
  exists v, h', sw. by split.
Defined.

Lemma down_reports_move_witness :
  0 <= 0 < 6 /\
  exists h' sw moved,
    mmheap.down (I := loggedHeap Z.ltb) 7 (Logged [5; 3; 8; 1; 9; 2] []) 0 6
    = Ok (Logged h' sw, moved) /\
    (moved = false <-> sw = []).
Proof.
  assert (H : 0 <= 0 < 6) by lia.
  split; [exact H|].
  destruct (down_reports_move Z.ltb [5; 3; 8; 1; 9; 2] 0 6 7 H)
    as (h' & sw & moved & _ & Hrun & _ & Hmoved & _).
  - by vm_compute.
  - by vm_compute.
  - simpl. lia.
  - exists h', sw, moved. by split.
Defined.

Lemma progeny_round_trip_witness :
  0 <= 1 <= int.max_int /\
  mmheap.Progeny 7 mmheap.grandchild ∈ considered 9 (mmheap.progenies 1) /\
  mmheap.grandparent 7 = 1 /\ mmheap.isMinLevel 7 = mmheap.isMinLevel 1.
Proof.
  assert (H : 0 <= 1 <= int.max_int) by (by vm_compute).
  assert (Hin : mmheap.Progeny 7 mmheap.grandchild
                ∈ considered 9 (mmheap.progenies 1)).
  { rewrite considered_progenies by (unfold int.max_int; lia).
    apply list_elem_of_filter. split; [unfold in_range; cbn; lia|].
    unfold family. do 2 apply list_elem_of_further. apply elem_of_cons.
    by left. }
  split; [exact H|]. split; [exact Hin|].
  destruct (progeny_round_trip 1 9 (mmheap.Progeny 7 mmheap.grandchild) H)
    as (_ & Hgp & _ & Hlvl); [by vm_compute|exact Hin|].
  by split.
Defined.

Lemma Init_without_ties_is_noop_witness :
  MinMaxHeap Z.ltb [1; 5; 4; 2] /\
  mmheap.Init (I := loggedHeap Z.ltb) 1 (Logged [1; 5; 4; 2] [])
  = Ok (Logged [1; 5; 4; 2] []).
Proof.
  assert (H : MinMaxHeap Z.ltb [1; 5; 4; 2]) by (by apply heap_check_sound).
  split; [exact H|].
  apply (Init_without_ties_is_noop Z.ltb [1; 5; 4; 2] 1 [] H).
  - by vm_compute.
  - lia.
  - intros i d x y Hodd Hd Hx Hy.
    pose proof (desc_lt _ _ Hd) as Hlt. apply desc_ge in Hd.
    apply zget_range in Hy as Hr. unfold slice_len in Hr. cbn [length] in Hr.
    assert (Hc : i = 0 \/ (i = 1 /\ d = 3)) by lia.
    destruct Hc as [-> | [-> ->]]; [discriminate|].
    injection Hx as <-. injection Hy as <-. intros [E1 E2]. discriminate.
Defined.


Lemma verify_checks_children_witness :
  2 * slice_len [1; 3; 2] + 2 <= int.max_int /\
  exists errs, test.verify 4 [1; 3; 2] 0 [] = Ok errs.
Proof.
  assert (H : 2 * slice_len [1; 3; 2] + 2 <= int.max_int)
    by (by vm_compute).
  split; [exact H|].
  destruct (verify_checks_children [1; 3; 2] 4 H) as (errs & Hrun & _);
    [simpl; lia|].
  by exists errs.
Defined.

Lemma verify_accepts_heaps_witness :
  MinMaxHeap Z.ltb [1; 3; 2] /\ test.verify 4 [1; 3; 2] 0 [] = Ok [].
Proof.
  assert (H : MinMaxHeap Z.ltb [1; 3; 2]) by (by apply heap_check_sound).
  split; [exact H|].
  apply (verify_accepts_heaps [1; 3; 2] 4 H); [by vm_compute|simpl; lia].
Defined.

Lemma down_restores_heap_witness :
  0 <= 0 < 5 /\
  exists h' moved,
    mmheap.down (I := sliceHeap Z.ltb) 6 [9; 5; 4; 2; 3] 0 5
    = Ok (h', moved) /\ heap_upto Z.ltb 5 h'.
Proof.
  assert (H : 0 <= 0 < 5) by lia.
  split; [exact H|].
  destruct (down_restores_heap Z.ltb [9; 5; 4; 2; 3] 0 5 6 H)
    as (h' & moved & Hrun & _ & Hheap & _).
  - by vm_compute.
  - by vm_compute.
  - simpl. lia.
  - intros a d x y Had Hd Hne Hx Hy.
    pose proof (desc_lt _ _ Had) as Hlt. apply desc_ge in Had.
    assert (Hc : a = 1 /\ (d = 3 \/ d = 4)) by lia.
    destruct Hc as [-> [-> | ->]];
      injection Hx as <-; injection Hy as <-; reflexivity.
  - exists h', moved. by split.
Defined.

Lemma up_restores_heap_witness :
  0 <= 4 < 5 /\
  exists h',
    mmheap.up (I := sliceHeap Z.ltb) 6 [1; 5; 4; 2; 0] 4 = Ok h' /\
    heap_upto Z.ltb 5 h'.
Proof.
  assert (H : 0 <= 4 < 5) by lia.
  split; [exact H|].
  destruct (up_restores_heap Z.ltb [1; 5; 4; 2; 0] 4 5 6 H)
    as (h' & Hrun & _ & Hheap & _).
  - by vm_compute.
  - by vm_compute.
  - simpl. lia.
  - intros a d x y Had Hd Hne Hx Hy.
    pose proof (desc_lt _ _ Had) as Hlt. apply desc_ge in Had.
    assert (Hc : (a = 0 /\ (d = 1 \/ d = 2 \/ d = 3)) \/ (a = 1 /\ d = 3))
      by lia.
    destruct Hc as [[-> [-> | [-> | ->]]] | [-> ->]];
      injection Hx as <-; injection Hy as <-; reflexivity.
  - exists h'. by split.
Defined.

Lemma Fix_keeps_heap_witness :
  MinMaxHeap Z.ltb [1; 5; 4; 2; 3] /\
  exists h',
    mmheap.Fix (I := sliceHeap Z.ltb) 6 [1; 5; 4; 2; 3] 1 = Ok h' /\
    MinMaxHeap Z.ltb h'.
Proof.
  assert (H : MinMaxHeap Z.ltb [1; 5; 4; 2; 3])
    by (by apply heap_check_sound).
  split; [exact H|].
  destruct (Fix_keeps_heap Z.ltb [1; 5; 4; 2; 3] 1 6 H)
    as (h' & Hrun & _ & Hheap).
  - by vm_compute.
  - by vm_compute.
  - simpl. lia.
  - exists h'. by split.
Defined.

Lemma pushes_make_heap_witness :
  slice_len [5; 3; 8; 1; 9; 2] <= int.max_int /\
  exists h,
    pushes Z.ltb 7 [] [5; 3; 8; 1; 9; 2] = Ok h /\ MinMaxHeap Z.ltb h.
Proof.
  assert (H : slice_len [5; 3; 8; 1; 9; 2] <= int.max_int)
    by (by vm_compute).
  split; [exact H|].
  destruct (pushes_make_heap Z.ltb [5; 3; 8; 1; 9; 2] 7 H)
    as (h & Hrun & _ & Hheap); [simpl; lia|].
  exists h. by split.
Defined.

Lemma verify_names_left_child_witness :
  2 * 0 + 2 < slice_len [1; 5; 0] /\
  test.verify 4 [1; 5; 0] 0 [] = Ok [test.Failure 0 1 ">" 1 0].
Proof.
  assert (H : 2 * 0 + 2 < slice_len [1; 5; 0]) by (by vm_compute).
  split; [exact H|].
  apply (verify_names_left_child [1; 5; 0] 0 4 [] 1 0 ltac:(lia) H).
  - by vm_compute.
  - simpl. lia.
  - reflexivity.
  - reflexivity.
  - intros z [= <-]. reflexivity.
  - apply children_ordered_leaf; [lia|by vm_compute].
  - intros E. discriminate E.
Defined.
